(** * Embedding pipeline of the intel-fusion backend

    A shallow embedding of three services of the NestJS backend

    - [EmbeddingsService] (text to vector, with an in-memory cache, a remote
      provider and a deterministic fallback generator),
    - [VectorProcessingService] (backfill of missing vectors in sub-batches),
    - [IncidentsService.semanticSearch] and [findSimilarIncidents] (ranking
      queries over the stored title vectors), with the search endpoint of
      [IncidentsController],

    and of the graph builder [EntitiesService.getEntityRelationships].

    JavaScript numbers are IEEE-754 doubles and are modelled by Rocq's
    primitive floats, 32-bit integer arithmetic by [Z] with the wrap-around
    written out, strings by [string] read as sequences of code units below
    256, the cache ([Map<string, number[]>]) by a [gmap], and asynchronous
    methods by a state-and-exception monad over the service state and the
    incidents table.  The [datetime] column is [character varying] and is
    kept as text; the database compares it as text. *)

From Stdlib Require Import PrimFloat ZArith QArith Ascii String List Bool Lia
  Sorted.
From Stdlib Require Uint63 FloatOps SpecFloat.
From stdpp Require Import gmap strings list pretty.

Local Open Scope Z_scope.

(** ** JavaScript strings *)

Module JS.

(** [str.charCodeAt(i)] for the code unit [c]. *)
Definition charCode (c : ascii) : Z := Z.of_N (N_of_ascii c).

(** White space and line terminators removed by [String.prototype.trim],
    within the code units below 256: TAB, LF, VT, FF, CR, SP, NBSP. *)
Definition isWhiteSpace (c : ascii) : bool :=
  let n := N_of_ascii c in
  ((9 <=? n)%N && (n <=? 13)%N) || (n =? 32)%N || (n =? 160)%N.

Fixpoint trimStart (s : string) : string :=
  match s with
  | EmptyString => EmptyString
  | String c s' => if isWhiteSpace c then trimStart s' else s
  end.

Definition trimEnd (s : string) : string :=
  String.rev (trimStart (String.rev s)).

Definition trim (s : string) : string := trimEnd (trimStart s).

(** [toLowerCase] on one code unit: A..Z and the Latin-1 capitals
    (U+00C0..U+00DE without the multiplication sign U+00D7) move up by 32. *)
Definition lowerChar (c : ascii) : ascii :=
  let n := N_of_ascii c in
  if ((65 <=? n)%N && (n <=? 90)%N)
     || ((192 <=? n)%N && (n <=? 222)%N && negb (n =? 215)%N)
  then ascii_of_N (n + 32)
  else c.

Fixpoint toLowerCase (s : string) : string :=
  match s with
  | EmptyString => EmptyString
  | String c s' => String (lowerChar c) (toLowerCase s')
  end.

(** [s.substring(start, stop)]: the arguments are swapped when out of
    order and clamped to the length of [s]. *)
Definition substring (s : string) (start stop : nat) : string :=
  String.substring (Nat.min start stop)
                   (Nat.max start stop - Nat.min start stop) s.

(** ToInt32: reduction modulo 2^32 into [-2^31, 2^31). *)
Definition toInt32 (z : Z) : Z := (z + 2 ^ 31) mod 2 ^ 32 - 2 ^ 31.

(** [a << n] on 32-bit integers. *)
Definition shl (a : Z) (n : Z) : Z := toInt32 (Z.shiftl (toInt32 a) n).

(** [a & b] on 32-bit integers. *)
Definition band (a b : Z) : Z := toInt32 (Z.land (toInt32 a) (toInt32 b)).

(** The double nearest to an integer that a double represents exactly
    (every integer used below is under 2^53). *)
Definition number (z : Z) : float :=
  if z <? 0 then PrimFloat.opp (PrimFloat.of_uint63 (Uint63.of_Z (- z)))
  else PrimFloat.of_uint63 (Uint63.of_Z z).

(** The greatest time value of a [Date], in milliseconds from the epoch. *)
Definition MAX_TIME : Z := 8640000000000000.

(** A number written with at least [width] decimal digits. *)
Definition pad (width : nat) (n : Z) : string :=
  let digits := pretty (Z.to_N n) in
  string_of_list_ascii (repeat "0"%char (width - String.length digits))
  +:+ digits.

(** The year, month and day of the month of a day number (days from the
    epoch) in the proleptic Gregorian calendar. *)
Definition civil (day : Z) : Z * Z * Z :=
  let z := day + 719468 in
  let era := z / 146097 in
  let doe := z - era * 146097 in
  let yoe := (doe - doe / 1460 + doe / 36524 - doe / 146096) / 365 in
  let doy := doe - (365 * yoe + yoe / 4 - yoe / 100) in
  let mp := (5 * doy + 2) / 153 in
  let d := doy - (153 * mp + 2) / 5 + 1 in
  let m := if mp <? 10 then mp + 3 else mp - 9 in
  (yoe + era * 400 + (if m <=? 2 then 1 else 0), m, d).

(** The part [YYYY-MM-DDTHH:mm:ss] of [toISOString]; a year outside
    0..9999 is written with a sign and six digits. *)
Definition isoSeconds (t : Z) : string :=
  let '(y, m, d) := civil (t / 86400000) in
  let ms := t mod 86400000 in
  (if (0 <=? y) && (y <=? 9999) then pad 4 y
   else (if y <? 0 then "-" else "+") +:+ pad 6 (Z.abs y))
  +:+ "-" +:+ pad 2 m +:+ "-" +:+ pad 2 d
  +:+ "T" +:+ pad 2 (ms / 3600000) +:+ ":" +:+ pad 2 (ms / 60000 mod 60)
  +:+ ":" +:+ pad 2 (ms / 1000 mod 60).

(** [date.toISOString()] for a date with the valid time value [t]. *)
Definition toISOString (t : Z) : string :=
  isoSeconds t +:+ "." +:+ pad 3 (t mod 1000) +:+ "Z".

End JS.
Arguments JS.toISOString : simpl never.
Arguments JS.isoSeconds : simpl never.

(** ** Shared data *)

(** [number[]]: an embedding vector. *)
Abbreviation Vector := (list float).

(** A JavaScript [Error], identified by its message. *)
Definition Error := string.

(** The answer of [openai.embeddings.create]: it rejects, or resolves to a
    response whose [data] array holds one embedding per entry. *)
Inductive ApiResponse :=
| ApiRejects (e : Error)
| ApiData (data : list Vector).

(** A row of the [incidents] table (the columns used by the pipeline).
    [datetime] is a [character varying] column: the text that ingestion
    stored. *)
Record Incident := {
  id : string;
  title : string;
  description : option string;
  category : option string;
  datetime : string;
  title_vector : option Vector;
  description_vector : option Vector;
}.

(** What the services find around them: the [Math.sin] of the engine
    (ECMAScript only fixes its value at zero), the OpenAI client ([None] when
    no API key is configured; the client answers the [n]-th request for a
    list of inputs), the outcome of the [n]-th [UPDATE] sent to the
    repository, the clock, the time value that [Date.parse] gives a text
    ([None] for an invalid date; ECMAScript fixes it for one format only),
    and of the database: the distance operator [<=>], the order of
    [character varying] values (it depends on the collation), and its
    answer to a ranking query with a given vector pasted in, over given rows
    ([None] when it runs the query; it rejects, for one, a vector with a
    [NaN] component or of another dimension than the column). *)
Class Runtime := {
  Math_sin : float -> float;
  Math_sin_zero : Math_sin 0%float = 0%float;
  openai : option (nat -> list string -> ApiResponse);
  update_fault : nat -> string -> option Error;
  Date_now : Z;
  Date_parse : string -> option Z;
  cosine_distance : Vector -> Vector -> Q;
  varchar_le : string -> string -> bool;
  select_fault : Vector -> list Incident -> option Error;
}.

(** ** EmbeddingsService: pure helpers *)

(** [simpleHash]: one round of the loop body,
    [hash = ((hash << 5) - hash) + char; hash = hash & hash]. *)
Definition simpleHash_step (hash : Z) (c : ascii) : Z :=
  let hash := (JS.shl hash 5 - hash) + JS.charCode c in
  JS.band hash hash.

Fixpoint simpleHash_loop (hash : Z) (str : string) {struct str} : Z :=
  match str with
  | EmptyString => hash
  | String c rest => simpleHash_loop (simpleHash_step hash c) rest
  end.

Definition simpleHash (str : string) : Z := Z.abs (simpleHash_loop 0 str).

(** [createCacheKey]: [`emb_${simpleHash(text.toLowerCase().trim())}`]. *)
Definition createCacheKey (text : string) : string :=
  "emb_" +:+ pretty (simpleHash (JS.trim (JS.toLowerCase text))).

(** The guard [!text || text.trim().length === 0], negated. *)
Definition hasText (text : string) : bool :=
  negb (String.eqb text "") && negb (String.length (JS.trim text) =? 0)%nat.

(** The dimension of the fallback vectors, [new Array(384)]. *)
Definition MOCK_DIMENSION : nat := 384.

(** The body of [generateMockEmbedding] after the hash has been taken. *)
Definition mockVector `{Runtime} (hash : Z) : Vector :=
  let embedding :=
    map (fun i : nat =>
           (Math_sin (JS.number hash * JS.number (Z.of_nat i + 1)) * 0.5)%float)
        (seq 0 MOCK_DIMENSION) in
  let magnitude :=
    PrimFloat.sqrt
      (fold_left (fun sum val => (sum + val * val)%float) embedding 0%float) in
  map (fun val => (val / magnitude)%float) embedding.

(** The L2 norm of a vector, summed left to right. *)
Definition l2norm (v : Vector) : float :=
  PrimFloat.sqrt (fold_left (fun sum val => (sum + val * val)%float) v 0%float).

(** ** Service state and asynchronous methods *)

(** The state the services share: the cache of the embeddings service, the
    rows of the [incidents] table, and three counters that only observe
    (requests sent to the provider, invocations of the fallback generator,
    [UPDATE] statements sent). *)
Record World := {
  embeddingCache : gmap string Vector;
  incidents_table : list Incident;
  api_requests : nat;
  mock_calls : nat;
  updates_sent : nat;
}.

(** How a call ends.  [Diverged] is what a loop of the model yields when its
    fuel is spent; no method below ever produces it. *)
Inductive Result (A : Type) :=
| Returned (a : A)
| Thrown (e : Error)
| Diverged.
Arguments Returned {A} a.
Arguments Thrown {A} e.
Arguments Diverged {A}.

(** An [async] method: it runs on the state and resolves or rejects. *)
Definition Async (A : Type) : Type := World -> Result A * World.

Definition ret {A} (a : A) : Async A := fun w => (Returned a, w).

Definition throw {A} (e : Error) : Async A := fun w => (Thrown e, w).

Definition bind {A B} (m : Async A) (k : A -> Async B) : Async B :=
  fun w =>
    match m w with
    | (Returned a, w') => k a w'
    | (Thrown e, w') => (Thrown e, w')
    | (Diverged, w') => (Diverged, w')
    end.

(** [try { body } catch (error) { handler }]. *)
Definition try_catch {A} (body : Async A) (handler : Error -> Async A)
  : Async A :=
  fun w =>
    match body w with
    | (Thrown e, w') => handler e w'
    | other => other
    end.

Notation "'let!' x ':=' m 'in' k" := (bind m (fun x => k))
  (at level 10, x name, m at level 200, k at level 200).
Notation "'run!' m 'in' k" := (bind m (fun _ => k))
  (at level 10, m at level 200, k at level 200).

Definition cache_set (key : string) (v : Vector) : Async unit :=
  fun w =>
    (Returned tt,
     {| embeddingCache := <[key := v]> (embeddingCache w);
        incidents_table := incidents_table w;
        api_requests := api_requests w;
        mock_calls := mock_calls w;
        updates_sent := updates_sent w |}).

(** [await this.openai.embeddings.create({ input, ... })], resolved to
    [response.data] mapped to the embeddings. *)
Definition embeddings_create
  (api : nat -> list string -> ApiResponse) (input : list string)
  : Async (list Vector) :=
  fun w =>
    let w' := {| embeddingCache := embeddingCache w;
                 incidents_table := incidents_table w;
                 api_requests := S (api_requests w);
                 mock_calls := mock_calls w;
                 updates_sent := updates_sent w |} in
    match api (api_requests w) input with
    | ApiRejects e => (Thrown e, w')
    | ApiData data => (Returned data, w')
    end.

(** ** EmbeddingsService *)

(** One more invocation of the fallback generator. *)
Definition count_mock (w : World) : World :=
  {| embeddingCache := embeddingCache w;
     incidents_table := incidents_table w;
     api_requests := api_requests w;
     mock_calls := S (mock_calls w);
     updates_sent := updates_sent w |}.


(** [generateMockEmbedding]: synchronous, reads nothing but its argument. *)
Definition generateMockEmbedding `{Runtime} (text : string) (w : World)
  : Vector * World :=
  (mockVector (simpleHash text), count_mock w).

Definition mock `{Runtime} (text : string) : Async (option Vector) :=
  fun w => let (v, w') := generateMockEmbedding text w in (Returned (Some v), w').

(** The character cap on the text sent to the provider. *)
Definition MAX_INPUT : nat := Z.to_nat 8191.

(** [generateEmbedding].  [response.data[0].embedding] throws a [TypeError]
    on an empty [data]. *)
Definition generateEmbedding `{Runtime} (text : string)
  : Async (option Vector) :=
  if negb (hasText text) then ret None
  else
    let cacheKey := createCacheKey text in
    fun w =>
      match embeddingCache w !! cacheKey with
      | Some cached => (Returned (Some cached), w)
      | None =>
          try_catch
            (match openai with
             | Some api =>
                 let! data :=
                   embeddings_create api [JS.substring text 0 MAX_INPUT] in
                 match data with
                 | embedding :: _ =>
                     run! cache_set cacheKey embedding in
                     ret (Some embedding)
                 | [] => throw "Cannot read properties of undefined"
                 end
             | None => mock text
             end)
            (fun _ => mock text)
            w
      end.

(** The local variables of [generateBatchEmbeddings] once the cache has been
    consulted.  [results] is [new Array(validTexts.length)]: a slot is [None]
    until it is assigned.  The parallel arrays [uncachedIndices] and
    [uncachedTexts] are pushed to together and are kept as one list of
    pairs. *)
Record Pending := {
  validTexts : list string;
  results : list (option Vector);
  uncached : list (nat * string);
}.

(** The [validTexts.forEach] that consults the cache. *)
Fixpoint scanCache (cache : gmap string Vector) (index : nat)
  (texts : list string) (results : list (option Vector))
  (uncached : list (nat * string))
  : list (option Vector) * list (nat * string) :=
  match texts with
  | [] => (results, uncached)
  | text :: rest =>
      match cache !! createCacheKey text with
      | Some cached =>
          scanCache cache (S index) rest (<[index := Some cached]> results)
                    uncached
      | None =>
          scanCache cache (S index) rest results
                    (uncached ++ [(index, JS.substring text 0 MAX_INPUT)])
      end
  end.

(** [generateBatchEmbeddings] up to its first [await]: [None] stands for the
    early [return []]. *)
Definition beginBatch (texts : list string) (w : World) : option Pending :=
  let valid := List.filter hasText texts in
  if (length valid =? 0)%nat then None
  else
    let '(results, uncached) :=
      scanCache (embeddingCache w) 0 valid
                (replicate (length valid) None) [] in
    Some {| validTexts := valid; results := results; uncached := uncached |}.

(** [arr.slice(start, stop)]. *)
Definition slice {A} (l : list A) (start stop : nat) : list A :=
  take (stop - start) (drop start l).

(** The [response.data.forEach] of one chunk.  Past the end of
    [batchIndices] the index is [undefined], and [createCacheKey] of the
    [undefined] text throws. *)
Fixpoint storeResponse (valid : list string) (batchIndices : list nat)
  (batchIndex : nat) (data : list Vector) (results : list (option Vector))
  (w : World) : Result unit * list (option Vector) * World :=
  match data with
  | [] => (Returned tt, results, w)
  | embedding :: rest =>
      match batchIndices !! batchIndex with
      | Some originalIndex =>
          let results := <[originalIndex := Some embedding]> results in
          match valid !! originalIndex with
          | Some text =>
              match cache_set (createCacheKey text) embedding w with
              | (_, w') =>
                  storeResponse valid batchIndices (S batchIndex) rest
                                results w'
              end
          | None => (Thrown "Cannot read properties of undefined", results, w)
          end
      | None => (Thrown "Cannot read properties of undefined", results, w)
      end
  end.

(** The provider accepts at most 100 inputs per request. *)
Definition API_BATCH : nat := 100.

(** [for (let i = 0; i < uncachedTexts.length; i += batchSize)]. *)
Fixpoint remoteFill (fuel : nat) (api : nat -> list string -> ApiResponse)
  (valid : list string) (uncached : list (nat * string)) (i : nat)
  (results : list (option Vector)) (w : World)
  : Result unit * list (option Vector) * World :=
  if (i <? length uncached)%nat then
    match fuel with
    | O => (Diverged, results, w)
    | S fuel' =>
        let chunk := slice uncached i (i + API_BATCH) in
        match embeddings_create api (map snd chunk) w with
        | (Returned data, w1) =>
            match storeResponse valid (map fst chunk) 0 data results w1 with
            | (Returned _, results', w2) =>
                remoteFill fuel' api valid uncached (i + API_BATCH) results' w2
            | other => other
            end
        | (Thrown e, w1) => (Thrown e, results, w1)
        | (Diverged, w1) => (Diverged, results, w1)
        end
    end
  else (Returned tt, results, w).

(** [uncachedIndices.forEach((index, i) =>
       results[index] = this.generateMockEmbedding(uncachedTexts[i]))]. *)
Fixpoint mockFill `{Runtime} (uncached : list (nat * string))
  (results : list (option Vector)) (w : World)
  : list (option Vector) * World :=
  match uncached with
  | [] => (results, w)
  | (index, text) :: rest =>
      let (v, w') := generateMockEmbedding text w in
      mockFill rest (<[index := Some v]> results) w'
  end.

(** [generateBatchEmbeddings] from its first [await] on. *)
Definition finishBatch `{Runtime} (p : Pending)
  : Async (list (option Vector)) :=
  fun w =>
    if (0 <? length (uncached p))%nat then
      match openai with
      | Some api =>
          match remoteFill (length (uncached p)) api (validTexts p)
                           (uncached p) 0 (results p) w with
          | (Returned _, results', w') => (Returned results', w')
          | (Thrown _, results', w') =>
              let (results'', w'') := mockFill (uncached p) results' w' in
              (Returned results'', w'')
          | (Diverged, _, w') => (Diverged, w')
          end
      | None =>
          let (results', w') := mockFill (uncached p) (results p) w in
          (Returned results', w')
      end
    else (Returned (results p), w).

Definition generateBatchEmbeddings `{Runtime} (texts : list string)
  : Async (list (option Vector)) :=
  fun w =>
    match beginBatch texts w with
    | None => (Returned [], w)
    | Some p => finishBatch p w
    end.

(** ** VectorProcessingService *)

(** The second argument of [incidentRepository.update]. *)
Inductive Patch :=
| SetTitleVector (v : Vector)
| SetDescriptionVector (v : Vector).

Definition applyPatch (p : Patch) (row : Incident) : Incident :=
  match p with
  | SetTitleVector v =>
      {| id := id row; title := title row; description := description row;
         category := category row; datetime := datetime row;
         title_vector := Some v;
         description_vector := description_vector row |}
  | SetDescriptionVector v =>
      {| id := id row; title := title row; description := description row;
         category := category row; datetime := datetime row;
         title_vector := title_vector row;
         description_vector := Some v |}
  end.

(** [incidentRepository.update({ id }, patch)]: the statement is sent, and
    either fails as a whole or rewrites every row with that id. *)
Definition repository_update `{Runtime} (incidentId : string) (p : Patch)
  (w : World) : option Error * World :=
  let rows :=
    match update_fault (updates_sent w) incidentId with
    | Some _ => incidents_table w
    | None =>
        map (fun row =>
               if String.eqb (id row) incidentId then applyPatch p row else row)
            (incidents_table w)
    end in
  (update_fault (updates_sent w) incidentId,
   {| embeddingCache := embeddingCache w;
      incidents_table := rows;
      api_requests := api_requests w;
      mock_calls := mock_calls w;
      updates_sent := S (updates_sent w) |}).

(** [!inc.title_vector && inc.title]. *)
Definition needsTitle (inc : Incident) : bool :=
  match title_vector inc with
  | Some _ => false
  | None => negb (String.eqb (title inc) "")
  end.

(** [!inc.description_vector && inc.description]. *)
Definition needsDescription (inc : Incident) : bool :=
  match description_vector inc, description inc with
  | None, Some d => negb (String.eqb d "")
  | _, _ => false
  end.

(** One of the two [forEach] loops that queue the updates: an update is sent
    for the incident at [index] when [embeddings[index]] is truthy. *)
Fixpoint pushUpdates `{Runtime} (field : Vector -> Patch)
  (embeddings : list (option Vector)) (index : nat) (needs : list Incident)
  (w : World) : list (option Error) * World :=
  match needs with
  | [] => ([], w)
  | incident :: rest =>
      match embeddings !! index with
      | Some (Some v) =>
          let (outcome, w') := repository_update (id incident) (field v) w in
          let (outcomes, w'') :=
            pushUpdates field embeddings (S index) rest w' in
          (outcome :: outcomes, w'')
      | _ => pushUpdates field embeddings (S index) rest w
      end
  end.

(** [await Promise.all(updates)]: rejects with the first failure. *)
Fixpoint awaitAll (outcomes : list (option Error)) : Result unit :=
  match outcomes with
  | [] => Returned tt
  | Some e :: _ => Thrown e
  | None :: rest => awaitAll rest
  end.

(** A call of [generateBatchEmbeddings] resumed after its first [await]. *)
Definition resume `{Runtime} (call : option Pending)
  : Async (list (option Vector)) :=
  match call with
  | None => ret []
  | Some p => finishBatch p
  end.

(** [processSingleBatch].  Under [Promise.all] the two calls of
    [generateBatchEmbeddings] both run up to their first [await] (they
    consult the cache) before either goes on; the title call is then resumed
    first. *)
Definition processSingleBatch `{Runtime} (incidents : list Incident)
  : Async unit :=
  let needsTitleEmbedding := List.filter needsTitle incidents in
  let needsDescriptionEmbedding := List.filter needsDescription incidents in
  let titleTexts := map title needsTitleEmbedding in
  let descriptionTexts :=
    map (fun inc => default EmptyString (description inc))
        needsDescriptionEmbedding in
  fun w =>
    let titleCall :=
      if (0 <? length titleTexts)%nat then beginBatch titleTexts w else None in
    let descriptionCall :=
      if (0 <? length descriptionTexts)%nat
      then beginBatch descriptionTexts w else None in
    (let! titleEmbeddings := resume titleCall in
     let! descriptionEmbeddings := resume descriptionCall in
     fun w =>
       let (titleUpdates, w1) :=
         pushUpdates SetTitleVector titleEmbeddings 0 needsTitleEmbedding w in
       let (descriptionUpdates, w2) :=
         pushUpdates SetDescriptionVector descriptionEmbeddings 0
                     needsDescriptionEmbedding w1 in
       (awaitAll (titleUpdates ++ descriptionUpdates), w2)) w.

(** The value [{ processed, errors }]. *)
Record Counts := { processed : nat; errors : nat }.

Definition BATCH_SIZE : nat := 50.

(** [sleep(ms)]: time is not part of the state. *)
Definition sleep (ms : nat) : Async unit := ret tt.

(** [for (let i = 0; i < incidents.length; i += BATCH_SIZE)] with its
    [try]/[catch]. *)
Fixpoint batchLoop `{Runtime} (fuel : nat) (incidents : list Incident)
  (i : nat) (counts : Counts) : Async Counts :=
  if (i <? length incidents)%nat then
    match fuel with
    | O => fun w => (Diverged, w)
    | S fuel' =>
        let batch := slice incidents i (i + BATCH_SIZE) in
        let! counts' :=
          try_catch
            (run! processSingleBatch batch in
             ret {| processed := processed counts + length batch;
                    errors := errors counts |})
            (fun _ =>
               ret {| processed := processed counts;
                      errors := errors counts + length batch |}) in
        run! sleep 100 in
        batchLoop fuel' incidents (i + BATCH_SIZE) counts'
    end
  else ret counts.

Definition processBatchEmbeddings `{Runtime} (incidents : list Incident)
  : Async Counts :=
  if (length incidents =? 0)%nat then ret {| processed := 0; errors := 0 |}
  else batchLoop (length incidents) incidents 0
                 {| processed := 0; errors := 0 |}.

(** [WHERE title_vector IS NULL OR description_vector IS NULL]. *)
Definition missingEmbedding (inc : Incident) : bool :=
  match title_vector inc, description_vector inc with
  | Some _, Some _ => false
  | _, _ => true
  end.

Definition processAllMissingEmbeddings `{Runtime} : Async Counts :=
  fun w =>
    let incidentsWithoutEmbeddings :=
      List.filter missingEmbedding (incidents_table w) in
    processBatchEmbeddings incidentsWithoutEmbeddings w.

(** ** IncidentsService: similarity queries *)

(** The [filters] argument of [semanticSearch]; [None] stands for an
    absent field. *)
Record SearchFilters := {
  categories : option (list string);
  startDate : option string;
  endDate : option string;
  similarityThreshold : option Q;
}.

(** A raw result row with its [similarity_score]. *)
Record SearchRow := { row : Incident; similarity_score : Q }.

Definition MS_PER_DAY : Z := 86400000.

(** Midnight of the previous day and the last millisecond of the next day,
    for a server clock in UTC. *)
Definition yesterday `{Runtime} : Z := (Date_now / MS_PER_DAY - 1) * MS_PER_DAY.
Definition tomorrow `{Runtime} : Z :=
  (Date_now / MS_PER_DAY + 1) * MS_PER_DAY + MS_PER_DAY - 1.

(** [filters?.similarityThreshold || 0.8]: zero is falsy. *)
Definition effectiveThreshold (filters : option SearchFilters) : Q :=
  match filters with
  | Some f =>
      match similarityThreshold f with
      | Some t => if Qeq_bool t 0 then (8 # 10)%Q else t
      | None => (8 # 10)%Q
      end
  | None => (8 # 10)%Q
  end.

(** [ORDER BY distance ASC], ties left in table order. *)
Fixpoint insertRow (x : SearchRow) (l : list SearchRow) : list SearchRow :=
  match l with
  | [] => [x]
  | y :: l' =>
      if Qle_bool (similarity_score x) (similarity_score y)
      then x :: l
      else y :: insertRow x l'
  end.

Fixpoint orderByScore (l : list SearchRow) : list SearchRow :=
  match l with
  | [] => []
  | x :: l' => insertRow x (orderByScore l')
  end.

(** [(field ? new Date(field) : fallback).toISOString()]: the text of a
    bound of the date window, or [None] for the [RangeError] that
    [toISOString] throws on an invalid date.  The empty text is falsy. *)
Definition isoBound `{Runtime} (field : option string) (fallback : Z)
  : option string :=
  match field with
  | Some text =>
      if String.eqb text "" then Some (JS.toISOString fallback)
      else
        match Date_parse text with
        | Some t =>
            if Z.abs t <=? JS.MAX_TIME then Some (JS.toISOString t) else None
        | None => None
        end
  | None => Some (JS.toISOString fallback)
  end.

(** The two bound parameters [:startDate] and [:endDate]. *)
Definition searchBounds `{Runtime} (filters : option SearchFilters)
  : option (string * string) :=
  match isoBound (filters ≫= startDate) yesterday,
        isoBound (filters ≫= endDate) tomorrow with
  | Some lower, Some upper => Some (lower, upper)
  | _, _ => None
  end.

(** The [WHERE] clause of [semanticSearch] on one row, for the bounds
    [lower] and [upper] of the date window: the column [datetime] and the
    bounds are compared as text. *)
Definition matchesSearch `{Runtime} (embedding : Vector)
  (filters : option SearchFilters) (lower upper : string) (inc : Incident)
  : bool :=
  match title_vector inc with
  | None => false
  | Some v =>
      negb (Qle_bool (effectiveThreshold filters) (cosine_distance v embedding))
      && match filters ≫= categories with
         | Some (c :: cs) =>
             match category inc with
             | Some k => existsb (String.eqb k) (c :: cs)
             | None => false
             end
         | _ => true
         end
      && varchar_le lower (datetime inc)
      && varchar_le (datetime inc) upper
  end.

(** The selected column [(title_vector <=> query) as similarity_score]. *)
Definition scored `{Runtime} (embedding : Vector) (inc : Incident)
  : SearchRow :=
  {| row := inc;
     similarity_score :=
       cosine_distance (default [] (title_vector inc)) embedding |}.

(** [semanticSearch].  An invalid date filter makes [toISOString] throw
    before the query is built; a query that the database rejects makes
    [getRawMany] reject. *)
Definition semanticSearch `{Runtime} (query : string) (embedding : Vector)
  (limit : option nat) (filters : option SearchFilters)
  : Async (list SearchRow) :=
  fun w =>
    match searchBounds filters with
    | None => (Thrown "Invalid time value", w)
    | Some (lower, upper) =>
        match select_fault embedding (incidents_table w) with
        | Some e => (Thrown e, w)
        | None =>
            let selected :=
              List.filter (matchesSearch embedding filters lower upper)
                          (incidents_table w) in
            (Returned
               (take (default 20%nat limit)
                     (orderByScore (map (scored embedding) selected))),
             w)
        end
    end.

(** [incidentRepository.findOne({ where: { id } })]. *)
Definition findOne (incidentId : string) (w : World) : option Incident :=
  find (fun inc => String.eqb (id inc) incidentId) (incidents_table w).

(** The [WHERE] clause of [findSimilarIncidents] on one row. *)
Definition matchesSimilar (incidentId : string) (inc : Incident) : bool :=
  match title_vector inc with
  | Some _ => negb (String.eqb (id inc) incidentId)
  | None => false
  end.

(** [findSimilarIncidents]; [!incident?.title_vector] covers both the absent
    incident and the incident without a title vector. *)
Definition findSimilarIncidents `{Runtime} (incidentId : string)
  (limit : option nat) : Async (list SearchRow) :=
  fun w =>
    match findOne incidentId w ≫= title_vector with
    | None => (Returned [], w)
    | Some v =>
        let selected :=
          List.filter (matchesSimilar incidentId) (incidents_table w) in
        (Returned
           (take (default 10%nat limit)
                 (orderByScore (map (scored v) selected))),
         w)
    end.

(** ** EmbeddingsService: cache management *)

(** [clearCache]. *)
Definition clearCache : Async unit :=
  fun w =>
    (Returned tt,
     {| embeddingCache := ∅;
        incidents_table := incidents_table w;
        api_requests := api_requests w;
        mock_calls := mock_calls w;
        updates_sent := updates_sent w |}).

(** The value [{ size, memoryUsage }] of [getCacheStats]. *)
Record CacheStats := { cache_size : nat; memoryUsage : nat }.

Definition getCacheStats (w : World) : CacheStats :=
  {| cache_size := size (embeddingCache w);
     memoryUsage := size (embeddingCache w) * 384 * 8 |}.

(** ** VectorProcessingService: one incident, and the rebuild *)

(** [incidentRepository.update({ id }, updates)] for an [updates] object
    with several columns: one statement, which fails or is applied as a
    whole. *)
Definition repository_update_fields `{Runtime} (incidentId : string)
  (updates : list Patch) (w : World) : option Error * World :=
  let rows :=
    match update_fault (updates_sent w) incidentId with
    | Some _ => incidents_table w
    | None =>
        map (fun row =>
               if String.eqb (id row) incidentId
               then fold_left (fun r p => applyPatch p r) updates row
               else row)
            (incidents_table w)
    end in
  (update_fault (updates_sent w) incidentId,
   {| embeddingCache := embeddingCache w;
      incidents_table := rows;
      api_requests := api_requests w;
      mock_calls := mock_calls w;
      updates_sent := S (updates_sent w) |}).

(** One of the two [if] blocks of [updateIncidentEmbeddings]: the column is
    put into [updates] when the text is there, the vector is not, and
    [generateEmbedding] answers with a vector. *)
Definition embedColumn `{Runtime} (needed : bool) (text : string)
  (field : Vector -> Patch) : Async (list Patch) :=
  if needed then
    let! embedding := generateEmbedding text in
    ret match embedding with
        | Some v => [field v]
        | None => []
        end
  else ret [].

(** [updateIncidentEmbeddings]. *)
Definition updateIncidentEmbeddings `{Runtime} (incidentId : string)
  : Async unit :=
  fun w =>
    match findOne incidentId w with
    | None => (Thrown ("Incident " +:+ incidentId +:+ " not found"), w)
    | Some incident =>
        (let! titleUpdate :=
           embedColumn (needsTitle incident) (title incident) SetTitleVector in
         let! descriptionUpdate :=
           embedColumn (needsDescription incident)
                       (default EmptyString (description incident))
                       SetDescriptionVector in
         let updates := titleUpdate ++ descriptionUpdate in
         if (0 <? length updates)%nat then
           fun w =>
             match repository_update_fields incidentId updates w with
             | (Some e, w') => (Thrown e, w')
             | (None, w') => (Returned tt, w')
             end
         else ret tt) w
    end.

(** [incidentRepository.update({}, { title_vector: null,
    description_vector: null })]: TypeORM refuses an empty criteria object
    and rejects before any statement is sent, so the vectors are never
    cleared. *)
Definition repository_clear_vectors `{Runtime} (w : World)
  : option Error * World :=
  (Some "Empty criteria(s) are not allowed for the update method."%string, w).

(** [rebuildAllEmbeddings]: nothing catches a failure of the first
    statement. *)
Definition rebuildAllEmbeddings `{Runtime} : Async Counts :=
  fun w =>
    match repository_clear_vectors w with
    | (Some e, w') => (Thrown e, w')
    | (None, w') =>
        let allIncidents := incidents_table w' in
        processBatchEmbeddings allIncidents w'
    end.

(** ** IncidentsController *)

Module IncidentsController.

(** [POST incidents/semantic-search]. *)
Definition semanticSearch `{Runtime} (query : string) (limit : option nat)
  (filters : option SearchFilters) : Async (list SearchRow) :=
  let! embedding := generateEmbedding query in
  match embedding with
  | None => throw "Failed to generate embedding for search query"
  | Some v => semanticSearch query v limit filters
  end.

End IncidentsController.

(** ** EntitiesService: the relationship graph *)

(** A row of the [entities] table. *)
Record Entity := {
  entity_id : string;
  entity_type : string;
  entity_name : string;
}.

(** An incident as [getMany] returns it after
    [leftJoinAndSelect('incident.entities', 'entity')]; [None] stands for
    an [entities] field that is not set. *)
Record JoinedIncident := {
  incident : Incident;
  source : string;
  entities : option (list Entity);
}.

(** The own keys of [Object.prototype], which every object literal
    inherits. *)
Definition Object_prototype : list string :=
  [ "constructor"; "__defineGetter__"; "__defineSetter__"; "hasOwnProperty";
    "__lookupGetter__"; "__lookupSetter__"; "isPrototypeOf";
    "propertyIsEnumerable"; "toString"; "valueOf"; "__proto__";
    "toLocaleString" ]%string.

(** The value of [table[key] || fallback] for an object literal [table]
    whose own values are all truthy: an own value, the fallback, or, when
    [key] names a member of [Object.prototype], that member (a function, or
    the prototype itself for ["__proto__"]), which is truthy. *)
Inductive Property (A : Type) :=
| Value (a : A)
| PrototypeMember (key : string).
Arguments Value {A} a.
Arguments PrototypeMember {A} key.

Definition property_or {A} (table : list (string * A)) (key : string)
  (fallback : A) : Property A :=
  match find (fun kv => String.eqb (fst kv) key) table with
  | Some kv => Value (snd kv)
  | None =>
      if existsb (String.eqb key) Object_prototype then PrototypeMember key
      else Value fallback
  end.

(** [getSizeByType]. *)
Definition getSizeByType (type : string) : Property float :=
  property_or
    [ ("incident", 20); ("person", 15); ("location", 18);
      ("organisation", 16); ("object", 12); ("temporal", 14);
      ("threat_category", 22) ]%string%float
    type 12%float.

(** [getColorBySeverity].  A severity that is a member of
    [Object.prototype] is converted to a string that is no key of
    [colors]. *)
Definition getColorBySeverity (severity : Property string)
  : Property string :=
  match severity with
  | Value s =>
      property_or
        [ ("low", "#10B981"); ("medium", "#F59E0B"); ("high", "#F97316");
          ("critical", "#EF4444") ]%string
        s "#6B7280"%string
  | PrototypeMember _ => Value "#6B7280"%string
  end.

(** [getSeverityFromCategory]; an absent category is looked up as
    ["undefined"]. *)
Definition getSeverityFromCategory (category : option string)
  : Property string :=
  property_or
    [ ("violent-crime", "critical"); ("burglary", "high"); ("robbery", "high");
      ("theft-from-the-person", "medium"); ("vehicle-crime", "medium");
      ("anti-social-behaviour", "low"); ("criminal-damage-arson", "medium");
      ("drugs", "medium"); ("possession-of-weapons", "high");
      ("public-order", "low"); ("shoplifting", "low"); ("other-theft", "low");
      ("bicycle-theft", "low"); ("other-crime", "medium") ]%string
    (default "undefined"%string category) "medium"%string.

(** [getColorByEntityType]. *)
Definition getColorByEntityType (type : string) : Property string :=
  property_or
    [ ("person", "#8B5CF6"); ("location", "#06B6D4");
      ("organisation", "#F59E0B"); ("object", "#84CC16");
      ("temporal", "#EC4899"); ("threat_category", "#EF4444") ]%string
    type "#6B7280"%string.

(** The [data] field of a node. *)
Inductive NodeData :=
| IncidentData (data_id title : string) (severity : Property string)
               (category : option string) (date : string) (source : string)
| EntityData (data_id name type : string).

Record Node := {
  node_id : string;
  node_label : string;
  node_type : string;
  node_data : NodeData;
  node_size : Property float;
  node_color : Property string;
}.

Record Edge := {
  edge_id : string;
  edge_source : string;
  edge_target : string;
  edge_type : string;
  edge_weight : float;
}.

Record Stats := {
  totalNodes : nat;
  totalEdges : nat;
  incidentNodes : nat;
  entityNodes : nat;
}.

(** The value [{ nodes, edges, stats }]. *)
Record Relationships := {
  graph_nodes : list Node;
  graph_edges : list Edge;
  graph_stats : Stats;
}.

(** A [Map] with string keys, in insertion order. *)
Definition JSMap (A : Type) : Type := list (string * A).

Definition Map_get {A} (m : JSMap A) (key : string) : option A :=
  snd <$> find (fun kv => String.eqb (fst kv) key) m.

Definition Map_has {A} (m : JSMap A) (key : string) : bool :=
  existsb (fun kv => String.eqb (fst kv) key) m.

(** [m.set(key, value)]: a new key goes to the end, an old one keeps its
    place. *)
Definition Map_set {A} (m : JSMap A) (key : string) (value : A) : JSMap A :=
  if Map_has m key
  then map (fun kv => if String.eqb (fst kv) key then (key, value) else kv) m
  else m ++ [(key, value)].

(** [s.add(x)] on a [Set] of strings, in insertion order. *)
Definition Set_add (s : list string) (x : string) : list string :=
  if existsb (String.eqb x) s then s else s ++ [x].

(** [l.forEach(x => ...)] for a body that may throw. *)
Fixpoint forEach {S A : Type} (body : S -> A -> option S) (l : list A)
  (s : S) : option S :=
  match l with
  | [] => Some s
  | x :: l' =>
      match body s x with
      | Some s' => forEach body l' s'
      | None => None
      end
  end.

(** The locals [nodes], [edges] and [entityConnections]. *)
Record Locals := {
  nodes : JSMap Node;
  edges : list Edge;
  entityConnections : JSMap (list string);
}.

Definition incidentNode (inc : JoinedIncident) : Node :=
  let severity := getSeverityFromCategory (category (incident inc)) in
  {| node_id := "incident_" +:+ id (incident inc);
     node_label :=
       if String.eqb (title (incident inc)) ""
       then "Incident " +:+ JS.substring (id (incident inc)) 0 8
       else title (incident inc);
     node_type := "incident";
     node_data :=
       IncidentData (id (incident inc)) (title (incident inc)) severity
                    (category (incident inc)) (datetime (incident inc))
                    (source inc);
     node_size := getSizeByType "incident";
     node_color := getColorBySeverity severity |}.

Definition entityNode (entity : Entity) : Node :=
  {| node_id := "entity_" +:+ entity_id entity;
     node_label := entity_name entity;
     node_type := entity_type entity;
     node_data :=
       EntityData (entity_id entity) (entity_name entity) (entity_type entity);
     node_size := getSizeByType (entity_type entity);
     node_color := getColorByEntityType (entity_type entity) |}.

Definition containsEdge (incidentNodeId entityNodeId : string) : Edge :=
  {| edge_id := incidentNodeId +:+ "-" +:+ entityNodeId;
     edge_source := incidentNodeId;
     edge_target := entityNodeId;
     edge_type := "contains";
     edge_weight := 1 |}.

Definition coOccursEdge (sourceId targetId : string) : Edge :=
  {| edge_id := sourceId +:+ "-" +:+ targetId;
     edge_source := sourceId;
     edge_target := targetId;
     edge_type := "co_occurs";
     edge_weight := 0.5 |}.

(** The body of the innermost loop,
    [entityConnections.get(entity.id).add(otherEntity.id)] for another
    entity; [None] is the [TypeError] of [undefined.add]. *)
Definition addConnection (entity : Entity) (connections : JSMap (list string))
  (otherEntity : Entity) : option (JSMap (list string)) :=
  if String.eqb (entity_id entity) (entity_id otherEntity)
  then Some connections
  else
    match Map_get connections (entity_id entity) with
    | Some connected =>
        Some (Map_set connections (entity_id entity)
                      (Set_add connected (entity_id otherEntity)))
    | None => None
    end.

(** The body of [incident.entities.forEach(entity => ...)]. *)
Definition visitEntity (incidentNodeId : string) (all : list Entity)
  (st : Locals) (entity : Entity) : option Locals :=
  let entityNodeId := "entity_" +:+ entity_id entity in
  let nodes' :=
    if Map_has (nodes st) entityNodeId then nodes st
    else Map_set (nodes st) entityNodeId (entityNode entity) in
  let edges' := edges st ++ [containsEdge incidentNodeId entityNodeId] in
  let connections :=
    if Map_has (entityConnections st) (entity_id entity)
    then entityConnections st
    else Map_set (entityConnections st) (entity_id entity) [] in
  match forEach (addConnection entity) all connections with
  | Some connections' =>
      Some {| nodes := nodes'; edges := edges';
              entityConnections := connections' |}
  | None => None
  end.

(** The body of [incidents.forEach(incident => ...)]. *)
Definition visitIncident (st : Locals) (inc : JoinedIncident)
  : option Locals :=
  let incidentNodeId := "incident_" +:+ id (incident inc) in
  let nodes' :=
    if Map_has (nodes st) incidentNodeId then nodes st
    else Map_set (nodes st) incidentNodeId (incidentNode inc) in
  let st' := {| nodes := nodes'; edges := edges st;
                entityConnections := entityConnections st |} in
  match entities inc with
  | Some all => forEach (visitEntity incidentNodeId all) all st'
  | None => Some st'
  end.

(** The body of [connectedEntities.forEach(connectedEntityId => ...)]: the
    edge is pushed unless [edges.find] has one between the two nodes, in
    either direction. *)
Definition linkEntities (entityId : string) (es : list Edge)
  (connectedEntityId : string) : list Edge :=
  let sourceId := "entity_" +:+ entityId in
  let targetId := "entity_" +:+ connectedEntityId in
  if existsb
       (fun e =>
          String.eqb (edge_source e) sourceId
          && String.eqb (edge_target e) targetId
          || String.eqb (edge_source e) targetId
             && String.eqb (edge_target e) sourceId)
       es
  then es
  else es ++ [coOccursEdge sourceId targetId].

(** [entityConnections.forEach((connectedEntities, entityId) => ...)]. *)
Definition coOccurrences (connections : JSMap (list string))
  (es : list Edge) : list Edge :=
  fold_left
    (fun es kv => fold_left (linkEntities (fst kv)) (snd kv) es)
    connections es.

(** [getEntityRelationships] from the result [incidents] of the query on. *)
Definition getEntityRelationships (incidents : list JoinedIncident)
  : Result Relationships :=
  match forEach visitIncident incidents
                {| nodes := []; edges := []; entityConnections := [] |} with
  | None => Thrown "Cannot read properties of undefined (reading 'add')"
  | Some st =>
      let values := map snd (nodes st) in
      let edges' := coOccurrences (entityConnections st) (edges st) in
      Returned
        {| graph_nodes := values;
           graph_edges := edges';
           graph_stats :=
             {| totalNodes := length (nodes st);
                totalEdges := length edges';
                incidentNodes :=
                  length (List.filter
                            (fun n => String.eqb (node_type n) "incident")
                            values);
                entityNodes :=
                  length (List.filter
                            (fun n =>
                               negb (String.eqb (node_type n) "incident"))
                            values) |} |}
  end.

(** ** Concrete runtimes and inputs *)

(** A reference [Math.sin]: the argument is reduced to [-pi, pi] and the
    Taylor polynomial of degree 21 is evaluated in Horner form.  It stands
    for the engine's sine where a statement needs one. *)
Definition TWO_PI : float := 0x1.921fb54442d18p+2%float.

Definition roundToInteger (y : float) : float :=
  (y + 6755399441055744 - 6755399441055744)%float.

Definition sin_reference (x : float) : float :=
  let r := (x - TWO_PI * roundToInteger (x / TWO_PI))%float in
  let r2 := (r * r)%float in
  (r * fold_right (fun d acc => 1 - r2 / d * acc) 1
                  [6; 20; 42; 72; 110; 156; 210; 272; 342; 420])%float.

(** The exact rational value of a finite double. *)
Definition Q_of_float (x : float) : Q :=
  match FloatOps.Prim2SF x with
  | SpecFloat.S754_finite s m e =>
      let q := if (0 <=? e)%Z then (Zpos m * 2 ^ e # 1)%Q
               else (Zpos m # Pos.pow 2 (Z.to_pos (- e)))%Q in
      if s then Qopp q else q
  | _ => 0%Q
  end.

(** An example distance operator: one minus the dot product, computed
    exactly (the cosine distance when both vectors have norm one). *)
Fixpoint unit_distance (a b : Vector) : Q :=
  match a, b with
  | x :: a', y :: b' => (unit_distance a' b' - Q_of_float x * Q_of_float y)%Q
  | _, _ => 1%Q
  end.

(** 2024-06-15T12:00:00Z. *)
Definition noon_2024_06_15 : Z := 1718452800000.

(** The number written by a list of decimal digits. *)
Fixpoint digits_value (acc : Z) (l : list ascii) : option Z :=
  match l with
  | [] => Some acc
  | c :: l' =>
      let n := Z.of_N (N_of_ascii c) in
      if (48 <=? n) && (n <=? 57) then digits_value (10 * acc + (n - 48)) l'
      else None
  end.

(** The day number of a civil date. *)
Definition days_from_civil (y m d : Z) : Z :=
  let y' := if m <=? 2 then y - 1 else y in
  let era := y' / 400 in
  let yoe := y' - era * 400 in
  let doy := (153 * ((m + 9) mod 12) + 2) / 5 + d - 1 in
  era * 146097 + (yoe * 365 + yoe / 4 - yoe / 100 + doy) - 719468.

(** A reference [Date.parse]: it reads the form [YYYY-MM-DDTHH:mm:ss.sssZ]
    that [toISOString] writes, and takes every other text for an invalid
    date.  It stands for the engine's parser where a statement needs one. *)
Definition iso_reference (text : string) : option Z :=
  let field (start len : nat) :=
    digits_value 0 (list_ascii_of_string (String.substring start len text)) in
  match field 0%nat 4%nat, field 5%nat 2%nat, field 8%nat 2%nat,
        field 11%nat 2%nat, field 14%nat 2%nat, field 17%nat 2%nat,
        field 20%nat 3%nat with
  | Some y, Some m, Some d, Some h, Some mi, Some sec, Some ms =>
      let t := days_from_civil y m d * 86400000
               + h * 3600000 + mi * 60000 + sec * 1000 + ms in
      if String.eqb (JS.toISOString t) text then Some t else None
  | _, _, _, _, _, _, _ => None
  end.

(** A reference database: it rejects a query vector that is empty or has a
    component that is not a finite number, and one that has another
    dimension than a stored title vector. *)
Definition pgvector_fault (v : Vector) (rows : list Incident) : option Error :=
  if (length v =? 0)%nat then
    Some "vector must have at least 1 dimension"%string
  else if existsb PrimFloat.is_nan v then
    Some "NaN not allowed in vector"%string
  else if existsb PrimFloat.is_infinity v then
    Some "infinite value not allowed in vector"%string
  else if existsb (fun inc =>
                     match title_vector inc with
                     | Some u => negb (length u =? length v)%nat
                     | None => false
                     end) rows then
    Some "different vector dimensions"%string
  else None.

(** A development server: no API key, and a database that accepts every
    update and orders text by its code units. *)
Definition dev_runtime : Runtime :=
  {| Math_sin := sin_reference;
     Math_sin_zero := eq_refl;
     openai := None;
     update_fault := fun _ _ => None;
     Date_now := noon_2024_06_15;
     Date_parse := iso_reference;
     cosine_distance := unit_distance;
     varchar_le := String.leb;
     select_fault := pgvector_fault |}.

(** A server whose provider answers every input with the same
    three-component vector. *)
Definition constant_api (n : nat) (input : list string) : ApiResponse :=
  ApiData (map (fun _ => [1; 0; 0]%float) input).

Definition remote_runtime : Runtime :=
  {| Math_sin := sin_reference;
     Math_sin_zero := eq_refl;
     openai := Some constant_api;
     update_fault := fun _ _ => None;
     Date_now := noon_2024_06_15;
     Date_parse := iso_reference;
     cosine_distance := unit_distance;
     varchar_le := String.leb;
     select_fault := pgvector_fault |}.

(** A development server whose database rejects every update to the
    incident ["bad"]. *)
Definition faulty_runtime : Runtime :=
  {| Math_sin := sin_reference;
     Math_sin_zero := eq_refl;
     openai := None;
     update_fault :=
       fun _ incidentId =>
         if String.eqb incidentId "bad" then Some "update failed"%string
         else None;
     Date_now := noon_2024_06_15;
     Date_parse := iso_reference;
     cosine_distance := unit_distance;
     varchar_le := String.leb;
     select_fault := pgvector_fault |}.

Definition world_of (rows : list Incident) : World :=
  {| embeddingCache := ∅;
     incidents_table := rows;
     api_requests := 0;
     mock_calls := 0;
     updates_sent := 0 |}.

(** A text whose hash is zero. *)
Definition zero_hash_text : string := "f5a5a608".

(** A text of 8192 characters, one over the cap. *)
Definition long_text : string :=
  string_of_list_ascii (repeat "a"%char (Z.to_nat 8192)).

(** [(await generateBatchEmbeddings(texts))[0]]. *)
Definition batchFirst `{Runtime} (texts : list string)
  : Async (option Vector) :=
  let! embeddings := generateBatchEmbeddings texts in
  ret (embeddings !! 0%nat ≫= (fun slot => slot)).

(** A stored incident with a title vector and a date, stored as
    [toISOString] writes it. *)
Definition stored (n : nat) (v : Vector) (when : Z) : Incident :=
  {| id := "inc-" +:+ pretty n;
     title := "Camden burglary";
     description := None;
     category := Some "burglary"%string;
     datetime := JS.toISOString when;
     title_vector := Some v;
     description_vector := None |}.

(** 2020-01-01T00:00:00Z. *)
Definition new_year_2020 : Z := 1577836800000.

(** One hundred stored vectors from 2020: three in the direction of the
    query [[1; 0]], ninety-seven orthogonal to it. *)
Definition old_store : list Incident :=
  map (fun n => stored n (if (n <? 3)%nat then [1; 0]%float else [0; 1]%float)
                       new_year_2020)
      (seq 0 100).

(** Three vectors stored at the time of the clock, which the example
    operator puts at 1, 1/2 and 0 from the query [[1; 0]]. *)
Definition recent_store : list Incident :=
  [ stored 0 [0; 1]%float noon_2024_06_15;
    stored 1 [0.5; 0.5]%float noon_2024_06_15;
    stored 2 [1; 0]%float noon_2024_06_15 ].

Definition threshold_only (t : Q) : option SearchFilters :=
  Some {| categories := None; startDate := None; endDate := None;
          similarityThreshold := Some t |}.

(** An incident that has not been embedded yet. *)
Definition unembedded (incidentId title : string) (description : option string)
  : Incident :=
  {| id := incidentId;
     title := title;
     description := description;
     category := Some "burglary"%string;
     datetime := JS.toISOString noon_2024_06_15;
     title_vector := None;
     description_vector := None |}.

(** A table of [n] incidents to embed; the one numbered [bad] has the id
    that the database of [faulty_runtime] rejects. *)
Definition backlog (n bad : nat) : list Incident :=
  map (fun k =>
         unembedded (if (k =? bad)%nat then "bad" else "inc-" +:+ pretty k)
                    "Camden burglary" (Some "Forced entry overnight"%string))
      (seq 0 n).

(** ** Vocabulary of the statements *)

(** The sub-batches visited by the loop of [processBatchEmbeddings] from
    index [i] on. *)
Fixpoint subBatches (fuel : nat) (incidents : list Incident) (i : nat)
  : list (list Incident) :=
  if (i <? length incidents)%nat then
    match fuel with
    | O => []
    | S fuel' =>
        slice incidents i (i + BATCH_SIZE)
        :: subBatches fuel' incidents (i + BATCH_SIZE)
    end
  else [].

(** Whether a call ended by throwing. *)
Definition threw {A} (r : Result A) : bool :=
  match r with
  | Thrown _ => true
  | _ => false
  end.

(** [processSingleBatch] run on each sub-batch in turn, each on the state
    left by the one before, whatever the outcome of that one was; the flag
    tells whether the sub-batch threw. *)
Fixpoint runBatches `{Runtime} (batches : list (list Incident)) (w : World)
  : list (list Incident * bool) * World :=
  match batches with
  | [] => ([], w)
  | batch :: rest =>
      let (r, w1) := processSingleBatch batch w in
      let (outcomes, w2) := runBatches rest w1 in
      ((batch, threw r) :: outcomes, w2)
  end.

(** The number of records in the sub-batches that threw ([true]) or did not
    ([false]). *)
Definition recordsWhere (flag : bool) (outcomes : list (list Incident * bool))
  : nat :=
  list_sum (map (fun o => length (fst o))
                (List.filter (fun o => Bool.eqb (snd o) flag) outcomes)).

(** A row after some updates: the same incident, and no vector lost. *)
Definition keeps (r r' : Incident) : Prop :=
  id r' = id r
  /\ (title_vector r <> None -> title_vector r' <> None)
  /\ (description_vector r <> None -> description_vector r' <> None).

(** A table after some updates. *)
Definition grows (t t' : list Incident) : Prop := Forall2 keeps t t'.

(** Every row of incident [X] has the vector read by [column]. *)
Definition embedded (column : Incident -> option Vector) (X : string)
  (t : list Incident) : Prop :=
  forall r, In r t -> id r = X -> column r <> None.

(** The record has a non-blank title and a non-blank description. *)
Definition embeddable (inc : Incident) : Prop :=
  hasText (title inc) = true
  /\ exists d, description inc = Some d /\ hasText d = true.

(** The order of the ranking. *)
Definition byScore (a b : SearchRow) : Prop :=
  (similarity_score a <= similarity_score b)%Q.


(** Slot [k] of the [results] array is still unassigned. *)
Definition hole (rs : list (option Vector)) (k : nat) : Prop :=
  rs !! k = Some None.

(** The provider never answers a request with fewer embeddings than it was
    sent inputs. *)
Definition answersInFull (api : nat -> list string -> ApiResponse) : Prop :=
  forall n input data,
    api n input = ApiData data -> (length input <= length data)%nat.

(** The hash of Java's [String.hashCode], without any wrap-around: Horner's
    rule over the code units with the multiplier 31. *)
Fixpoint hornerHash (acc : Z) (str : string) : Z :=
  match str with
  | EmptyString => acc
  | String c rest => hornerHash (31 * acc + JS.charCode c) rest
  end.

(** [trimStart] on a list of code units. *)
Fixpoint dropWhiteSpace (l : list ascii) : list ascii :=
  match l with
  | [] => []
  | c :: l' => if JS.isWhiteSpace c then dropWhiteSpace l' else l
  end.

(** The same runtime with another OpenAI client. *)
Definition with_openai (R : Runtime)
  (client : option (nat -> list string -> ApiResponse)) : Runtime :=
  {| Math_sin := @Math_sin R;
     Math_sin_zero := @Math_sin_zero R;
     openai := client;
     update_fault := @update_fault R;
     Date_now := @Date_now R;
     Date_parse := @Date_parse R;
     cosine_distance := @cosine_distance R;
     varchar_le := @varchar_le R;
     select_fault := @select_fault R |}.

(** A request the code may send: at most 100 inputs of at most 8191
    characters each. *)
Definition withinLimits (input : list string) : Prop :=
  (length input <= API_BATCH)%nat
  /\ Forall (fun t => (String.length t <= MAX_INPUT)%nat) input.

(** A row after a backfill: the same record, and no vector lost. *)
Definition sameRecord (r r' : Incident) : Prop :=
  id r' = id r /\ title r' = title r /\ description r' = description r
  /\ category r' = category r /\ datetime r' = datetime r
  /\ (title_vector r <> None -> title_vector r' <> None)
  /\ (description_vector r <> None -> description_vector r' <> None).

(** A provider that embeds each input on its own, by [f]. *)
Definition embedsEach (f : string -> Vector)
  (api : nat -> list string -> ApiResponse) : Prop :=
  forall n input, api n input = ApiData (map f input).

(** A provider that rejects every request. *)
Definition rejecting_api (n : nat) (input : list string) : ApiResponse :=
  ApiRejects "503 Service Unavailable".

Definition offline_runtime : Runtime := with_openai remote_runtime (Some rejecting_api).

(** One more request sent to the provider. *)
Definition count_request (w : World) : World :=
  {| embeddingCache := embeddingCache w;
     incidents_table := incidents_table w;
     api_requests := S (api_requests w);
     mock_calls := mock_calls w;
     updates_sent := updates_sent w |}.

(** The state with one more cache entry. *)
Definition with_entry (key : string) (v : Vector) (w : World) : World :=
  {| embeddingCache := <[key := v]> (embeddingCache w);
     incidents_table := incidents_table w;
     api_requests := api_requests w;
     mock_calls := mock_calls w;
     updates_sent := updates_sent w |}.

(** The texts of [validTexts] (from position [index] on) that are not in
    the cache, with their positions, each cut to the cap: what the scan of
    [generateBatchEmbeddings] pushes to [uncachedIndices] and
    [uncachedTexts]. *)
Fixpoint misses (cache : gmap string Vector) (index : nat)
  (texts : list string) : list (nat * string) :=
  match texts with
  | [] => []
  | text :: rest =>
      match cache !! createCacheKey text with
      | Some _ => misses cache (S index) rest
      | None =>
          (index, JS.substring text 0 MAX_INPUT) :: misses cache (S index) rest
      end
  end.

(** The text has no entry in the cache. *)
Definition embeddingCache_miss (cache : gmap string Vector) (text : string)
  : Prop :=
  cache !! createCacheKey text = None.

(** A provider that answers each input with a one-component vector holding
    the number of characters it was sent. *)
Definition length_vector (t : string) : Vector :=
  [JS.number (Z.of_nat (String.length t))].

Definition length_api (n : nat) (input : list string) : ApiResponse :=
  ApiData (map length_vector input).

Definition length_runtime : Runtime := with_openai remote_runtime (Some length_api).

(** No text at one of the positions [indices] of [valid] has the cache key
    [key]. *)
Definition freshKey (key : string) (valid : list string) (indices : list nat)
  : Prop :=
  forall i text, In i indices -> valid !! i = Some text ->
                 createCacheKey text <> key.

(** Whether a request is within the limits. *)
Definition withinLimitsb (input : list string) : bool :=
  (length input <=? API_BATCH)%nat
  && forallb (fun t => (String.length t <=? MAX_INPUT)%nat) input.

(** A provider that answers like [constant_api] but rejects every request
    over the limits. *)
Definition strict_api (n : nat) (input : list string) : ApiResponse :=
  if withinLimitsb input then constant_api n input
  else ApiRejects "413 Payload Too Large".

(** Every title and every description of the incidents has an entry in the
    cache. *)
Definition cachedTexts (cache : gmap string Vector)
  (incidents : list Incident) : Prop :=
  forall inc, In inc incidents ->
    cache !! createCacheKey (title inc) <> None
    /\ (forall d, description inc = Some d ->
                  cache !! createCacheKey d <> None).

(** The filters [f] with the similarity threshold [t]. *)
Definition with_threshold (f : SearchFilters) (t : Q) : SearchFilters :=
  {| categories := categories f;
     startDate := startDate f;
     endDate := endDate f;
     similarityThreshold := Some t |}.

(** The ids of the entities joined to an incident. *)
Definition entityIds (inc : JoinedIncident) : list string :=
  map entity_id (default [] (entities inc)).

(** Two different entities are joined to one incident of the list. *)
Definition coOccur (incidents : list JoinedIncident) (a b : string) : Prop :=
  a <> b
  /\ exists inc, In inc incidents /\ In a (entityIds inc) /\ In b (entityIds inc).

(** The [contains] edges of one incident, in the order of its entities. *)
Definition containsEdges (inc : JoinedIncident) : list Edge :=
  map (fun entity =>
         containsEdge ("incident_" +:+ id (incident inc))
                      ("entity_" +:+ entity_id entity))
      (default [] (entities inc)).

(** The edge runs between the nodes of the entities [a] and [b], in one
    direction or the other. *)
Definition joins (e : Edge) (a b : string) : Prop :=
  edge_source e = "entity_" +:+ a /\ edge_target e = "entity_" +:+ b
  \/ edge_source e = "entity_" +:+ b /\ edge_target e = "entity_" +:+ a.

(** Two edges with the same two end points. *)
Definition sameEnds (e e' : Edge) : Prop :=
  edge_source e = edge_source e' /\ edge_target e = edge_target e'
  \/ edge_source e = edge_target e' /\ edge_target e = edge_source e'.

(** The node ids a list of incidents calls for. *)
Definition nodeIdOf (incidents : list JoinedIncident) (key : string) : Prop :=
  exists inc, In inc incidents
    /\ (key = "incident_" +:+ id (incident inc)
        \/ exists a, In a (entityIds inc) /\ key = "entity_" +:+ a).

(** The pair [a], [b] is recorded in [entityConnections]. *)
Definition connected (connections : JSMap (list string)) (a b : string)
  : Prop :=
  exists s, Map_get connections a = Some s /\ In b s.

(** The nodes to add for one incident: its own, then those of its
    entities. *)
Definition nodesOf (inc : JoinedIncident) : list Node :=
  incidentNode inc :: map entityNode (default [] (entities inc)).

(** [if (!nodes.has(id)) nodes.set(id, node)]. *)
Definition addNode (m : JSMap Node) (n : Node) : JSMap Node :=
  if Map_has m (node_id n) then m else Map_set m (node_id n) n.

(** The part of [visitEntity] on [entityConnections]. *)
Definition connectEntity (all : list Entity) (connections : JSMap (list string))
  (entity : Entity) : option (JSMap (list string)) :=
  forEach (addConnection entity) all
          (if Map_has connections (entity_id entity) then connections
           else Map_set connections (entity_id entity) []).

(** The part of [visitIncident] on [entityConnections]. *)
Definition connectIncident (connections : JSMap (list string))
  (inc : JoinedIncident) : option (JSMap (list string)) :=
  forEach (connectEntity (default [] (entities inc)))
          (default [] (entities inc)) connections.

(** Every value of the map is stored under its own id. *)
Definition keyed (m : JSMap Node) : Prop :=
  forall key n, In (key, n) m -> node_id n = key.

(** The pairs that the loop over [entityConnections] visits, in order. *)
Definition connectionPairs (connections : JSMap (list string))
  : list (string * string) :=
  flat_map (fun kv => map (pair (fst kv)) (snd kv)) connections.

(** The titles and descriptions of the records. *)
Definition textsOf (incidents : list Incident) : list string :=
  flat_map (fun inc =>
              title inc
              :: match description inc with Some d => [d] | None => [] end)
           incidents.

(** The record with each missing vector set to what [f] gives for the text
    cut to the cap. *)
Definition fillVectors (f : string -> Vector) (r : Incident) : Incident :=
  {| id := id r; title := title r; description := description r;
     category := category r; datetime := datetime r;
     title_vector :=
       Some (default (f (JS.substring (title r) 0 MAX_INPUT))
                     (title_vector r));
     description_vector :=
       Some (default
               (f (JS.substring (default EmptyString (description r))
                                0 MAX_INPUT))
               (description_vector r)) |}.

(** Every entry that [cache'] has and [cache] has not is the vector [f]
    gives for one of the [texts], stored under the key of that text. *)
Definition learned (f : string -> Vector) (texts : list string)
  (cache cache' : gmap string Vector) : Prop :=
  forall key v,
    cache' !! key = Some v ->
    cache !! key = Some v
    \/ exists text, In text texts /\ key = createCacheKey text
                    /\ v = f (JS.substring text 0 MAX_INPUT).

(** The cache holds, for each of the [texts], nothing but the vector of
    [f]. *)
Definition faithfulCache (f : string -> Vector) (texts : list string)
  (cache : gmap string Vector) : Prop :=
  forall text v,
    In text texts -> cache !! createCacheKey text = Some v ->
    v = f (JS.substring text 0 MAX_INPUT).

(** No two different texts have the same cache key. *)
Definition separateKeys (texts : list string) : Prop :=
  forall t t', In t texts -> In t' texts ->
               createCacheKey t = createCacheKey t' -> t = t'.

(** The rows with the records of [done] filled in. *)
Definition filledWhere (f : string -> Vector) (done : list Incident)
  (table : list Incident) : list Incident :=
  map (fun r => if existsb (String.eqb (id r)) (map id done)
                then fillVectors f r else r)
      table.

(** One update statement of [pushUpdates] on one row: the row is patched
    when it has the id of the incident. *)
Definition patchRow (field : Vector -> Patch) (g : Incident -> Vector)
  (r inc : Incident) : Incident :=
  if String.eqb (id r) (id inc) then applyPatch (field (g inc)) r else r.

(** * Verification *)

(** ** The fallback generator *)

Lemma mockVector_length `{Runtime} (hash : Z) :
  length (mockVector hash) = MOCK_DIMENSION.
Proof.
  unfold mockVector. rewrite !length_map. apply length_seq.
Qed.

(** C4: the fallback generator returns the same vector whatever the state of
    the service it is called on, and the vector has 384 components. *)
Theorem generateMockEmbedding_deterministic `{Runtime}
  (t : string) (w1 w2 : World) :
  fst (generateMockEmbedding t w1) = fst (generateMockEmbedding t w2)
  /\ length (fst (generateMockEmbedding t w1)) = 384%nat.
Proof.
  cbn [generateMockEmbedding fst]. split; [reflexivity|].
  apply mockVector_length.
Qed.

Lemma zero_hash_arguments :
  map (fun i : nat => (JS.number 0 * JS.number (Z.of_nat i + 1))%float)
      (seq 0 MOCK_DIMENSION)
  = replicate MOCK_DIMENSION 0%float.
Proof. vm_compute. reflexivity. Qed.

Lemma map_replicate_const {A B} (f : A -> B) (n : nat) (x : A) :
  map f (replicate n x) = replicate n (f x).
Proof. induction n as [|n IH]; cbn; [reflexivity|]. now rewrite IH. Qed.

Lemma mockVector_zero `{Runtime} :
  mockVector 0 = replicate MOCK_DIMENSION nan.
Proof.
  unfold mockVector.
  change (map (fun i : nat =>
                 (Math_sin (JS.number 0 * JS.number (Z.of_nat i + 1)) * 0.5)%float)
              (seq 0 MOCK_DIMENSION))
    with (map (fun x => (Math_sin x * 0.5)%float)
              (map (fun i : nat =>
                      (JS.number 0 * JS.number (Z.of_nat i + 1))%float)
                   (seq 0 MOCK_DIMENSION))).
  rewrite zero_hash_arguments, map_replicate_const, Math_sin_zero.
  vm_compute. reflexivity.
Qed.

(** C5: on a text whose hash is zero every component before normalisation
    is zero, the magnitude is zero, and the division leaves 384 NaNs: the
    vector has no norm within 1e-6 (the double [0x1.0c6f7a0b5ed8dp-20]) of
    one. *)
Theorem generateMockEmbedding_zero_hash `{Runtime} (w : World) :
  hasText zero_hash_text = true
  /\ simpleHash zero_hash_text = 0
  /\ fst (generateMockEmbedding zero_hash_text w) = replicate 384 nan
  /\ l2norm (fst (generateMockEmbedding zero_hash_text w)) = nan
  /\ PrimFloat.ltb
       (PrimFloat.abs (l2norm (fst (generateMockEmbedding zero_hash_text w)) - 1))
       0x1.0c6f7a0b5ed8dp-20 = false.
Proof.
  assert (Hv : fst (generateMockEmbedding zero_hash_text w)
               = replicate 384 nan).
  { cbn [generateMockEmbedding fst].
    change (simpleHash zero_hash_text) with 0.
    apply mockVector_zero. }
  rewrite Hv. repeat split; vm_compute; reflexivity.
Qed.

(** ** generateEmbedding and the cache *)

Lemma generateEmbedding_hit `{Runtime} (text : string) (w : World) (v : Vector) :
  hasText text = true ->
  embeddingCache w !! createCacheKey text = Some v ->
  generateEmbedding text w = (Returned (Some v), w).
Proof.
  intros Ht Hc. unfold generateEmbedding. rewrite Ht. cbn [negb].
  now rewrite Hc.
Qed.

Lemma generateEmbedding_fallback `{Runtime} (text : string) (w : World) :
  openai = None ->
  hasText text = true ->
  embeddingCache w !! createCacheKey text = None ->
  generateEmbedding text w
  = (Returned (Some (mockVector (simpleHash text))), count_mock w).
Proof.
  intros Ho Ht Hc. unfold generateEmbedding. rewrite Ht. cbn [negb].
  rewrite Hc, Ho. reflexivity.
Qed.

Lemma generateBatchEmbeddings_one_fallback `{Runtime} (text : string) (w : World) :
  openai = None ->
  hasText text = true ->
  embeddingCache w !! createCacheKey text = None ->
  generateBatchEmbeddings [text] w
  = (Returned [Some (mockVector (simpleHash (JS.substring text 0 MAX_INPUT)))],
     count_mock w).
Proof.
  intros Ho Ht Hc. unfold generateBatchEmbeddings, beginBatch.
  cbn [List.filter]. rewrite Ht. cbn [length Nat.eqb replicate scanCache].
  rewrite Hc. cbn [app]. unfold finishBatch. cbn [uncached length Nat.ltb Nat.leb].
  rewrite Ho. reflexivity.
Qed.

(** C9: with no provider configured, the single-text path hands the whole
    text to the fallback generator, while the batch path hands it the text
    cut to 8191 characters. *)
Theorem fallback_paths_hash_different_text `{Runtime} (text : string) (w : World) :
  openai = None ->
  hasText text = true ->
  embeddingCache w !! createCacheKey text = None ->
  fst (generateEmbedding text w)
  = Returned (Some (mockVector (simpleHash text)))
  /\ fst (generateBatchEmbeddings [text] w)
     = Returned [Some (mockVector (simpleHash (JS.substring text 0 MAX_INPUT)))].
Proof.
  intros Ho Ht Hc.
  rewrite generateEmbedding_fallback, generateBatchEmbeddings_one_fallback
    by assumption.
  split; reflexivity.
Qed.

Lemma substring_short (text : string) (n : nat) :
  (String.length text <= n)%nat -> String.substring 0 n text = text.
Proof.
  revert n. induction text as [|c rest IH]; intros [|n] Hlen;
    cbn in *; try reflexivity; try lia.
  now rewrite IH by lia.
Qed.

(** Up to the cap the two paths hand the same text to the generator. *)
Lemma fallback_paths_agree_on_short_text (text : string) :
  (String.length text <= MAX_INPUT)%nat ->
  JS.substring text 0 MAX_INPUT = text.
Proof.
  intros Hlen. unfold JS.substring.
  rewrite Nat.min_0_l, Nat.max_0_l, Nat.sub_0_r.
  now apply substring_short.
Qed.

Lemma long_text_facts :
  String.length long_text = Z.to_nat 8192
  /\ hasText long_text = true
  /\ simpleHash long_text = 184418304
  /\ simpleHash (JS.substring long_text 0 MAX_INPUT) = 1795166337.
Proof. vm_compute. repeat split; reflexivity. Qed.

(** On the development server the two paths give different vectors for a
    text of 8192 characters. *)
Lemma fallback_paths_differ_on_long_text :
  String.length long_text = Z.to_nat 8192
  /\ hasText long_text = true
  /\ fst (@generateEmbedding dev_runtime long_text (world_of []))
     <> fst (@batchFirst dev_runtime [long_text] (world_of [])).
Proof.
  destruct long_text_facts as (Hlen & Ht & Hh1 & Hh2).
  split; [exact Hlen|]. split; [exact Ht|].
  destruct (@fallback_paths_hash_different_text dev_runtime long_text
              (world_of []) eq_refl Ht eq_refl) as [E1 E2].
  rewrite E1. unfold batchFirst, bind, ret.
  destruct (@generateBatchEmbeddings dev_runtime [long_text] (world_of []))
    as [r w'].
  cbn [fst] in E2 |- *. rewrite E2, Hh1, Hh2.
  remember (@mockVector dev_runtime 184418304) as v1 eqn:Hv1.
  remember (@mockVector dev_runtime 1795166337) as v2 eqn:Hv2.
  cbn. intros E. injection E as E. subst v1 v2.
  apply (f_equal (fun v => hd 0%float v)) in E.
  vm_compute in E. discriminate E.
Defined.

Lemma generateBatchEmbeddings_one_hit `{Runtime} (text : string) (w : World)
  (v : Vector) :
  hasText text = true ->
  embeddingCache w !! createCacheKey text = Some v ->
  generateBatchEmbeddings [text] w = (Returned [Some v], w).
Proof.
  intros Ht Hc. unfold generateBatchEmbeddings, beginBatch.
  cbn [List.filter]. rewrite Ht. cbn [length Nat.eqb replicate scanCache].
  rewrite Hc. reflexivity.
Qed.

Lemma same_normal_form_same_key (t1 t2 : string) :
  JS.trim (JS.toLowerCase t2) = JS.trim (JS.toLowerCase t1) ->
  createCacheKey t2 = createCacheKey t1.
Proof. intros E. unfold createCacheKey. now rewrite E. Qed.

(** C3 (as amended): when the provider is configured and answers the first
    request for a text with a vector, that vector is stored under the key of
    the text, and a later request (single or batch) for a text that is the
    same after lowercasing and trimming is served from the cache: the state,
    and so both call counters, are left as they were. *)
Theorem provider_vector_served_from_cache `{Runtime}
  (api : nat -> list string -> ApiResponse) (t1 t2 : string) (w : World)
  (v : Vector) (others : list Vector) :
  openai = Some api ->
  hasText t1 = true ->
  hasText t2 = true ->
  JS.trim (JS.toLowerCase t2) = JS.trim (JS.toLowerCase t1) ->
  embeddingCache w !! createCacheKey t1 = None ->
  api (api_requests w) [JS.substring t1 0 MAX_INPUT] = ApiData (v :: others) ->
  exists w1,
    generateEmbedding t1 w = (Returned (Some v), w1)
    /\ embeddingCache w1 !! createCacheKey t1 = Some v
    /\ api_requests w1 = S (api_requests w)
    /\ mock_calls w1 = mock_calls w
    /\ generateEmbedding t2 w1 = (Returned (Some v), w1)
    /\ generateBatchEmbeddings [t2] w1 = (Returned [Some v], w1).
Proof.
  intros Ho Ht1 Ht2 Hnf Hmiss Hapi.
  apply same_normal_form_same_key in Hnf.
  eexists. split.
  - unfold generateEmbedding. rewrite Ht1. cbn [negb]. rewrite Hmiss, Ho.
    unfold try_catch, bind, embeddings_create. rewrite Hapi.
    cbn [cache_set ret]. reflexivity.
  - cbn [embeddingCache api_requests mock_calls].
    assert (Hhit : (<[createCacheKey t1 := v]> (embeddingCache w))
                   !! createCacheKey t2 = Some v).
    { rewrite Hnf. apply lookup_insert_eq. }
    split; [apply lookup_insert_eq|]. split; [reflexivity|].
    split; [reflexivity|]. split.
    + apply generateEmbedding_hit; assumption.
    + apply generateBatchEmbeddings_one_hit; assumption.
Qed.

(** The amended claim at a concrete configured provider. *)
Lemma provider_vector_served_from_cache_witness :
  exists w1,
    @generateEmbedding remote_runtime "Camden burglary" (world_of [])
    = (Returned (Some [1; 0; 0]%float), w1)
    /\ embeddingCache w1 !! createCacheKey "Camden burglary"
       = Some [1; 0; 0]%float
    /\ api_requests w1 = 1%nat
    /\ mock_calls w1 = 0%nat
    /\ @generateEmbedding remote_runtime "  CAMDEN Burglary " w1
       = (Returned (Some [1; 0; 0]%float), w1)
    /\ @generateBatchEmbeddings remote_runtime ["  CAMDEN Burglary "] w1
       = (Returned [Some [1; 0; 0]%float], w1).
Proof.
  apply (@provider_vector_served_from_cache remote_runtime constant_api
           "Camden burglary" "  CAMDEN Burglary " (world_of [])
           [1; 0; 0]%float []);
    vm_compute; reflexivity.
Defined.

(** C3 (as stated) fails: with no provider configured, two requests for the
    same text invoke the fallback generator twice, and nothing is put into
    the cache by the first. *)
Lemma fallback_vector_generated_twice :
  let w1 := snd (@generateEmbedding dev_runtime "Camden burglary" (world_of [])) in
  let w2 := snd (@generateEmbedding dev_runtime "Camden burglary" w1) in
  embeddingCache w1 = ∅ /\ mock_calls w1 = 1%nat /\ mock_calls w2 = 2%nat.
Proof.
  cbv zeta.
  rewrite (@generateEmbedding_fallback dev_runtime "Camden burglary"
             (world_of [])) by (vm_compute; reflexivity).
  cbn [snd].
  rewrite (@generateEmbedding_fallback dev_runtime "Camden burglary"
             (count_mock (world_of []))) by (vm_compute; reflexivity).
  cbn. repeat split; reflexivity.
Qed.

(** ** generateBatchEmbeddings: the shape of the result *)

Lemma hole_insert (rs : list (option Vector)) (i k : nat) (v : Vector) :
  hole (<[i := Some v]> rs) k -> hole rs k /\ k <> i.
Proof.
  unfold hole. intros Hk. destruct (decide (k = i)) as [->|Hne].
  - destruct (decide (i < length rs)%nat) as [Hlt|Hge].
    + rewrite list_lookup_insert_eq in Hk by exact Hlt. discriminate.
    + rewrite list_insert_ge in Hk by lia.
      rewrite lookup_ge_None_2 in Hk by lia. discriminate.
  - rewrite list_lookup_insert_ne in Hk by congruence. auto.
Qed.

Lemma slice_from (A : Type) (l : list A) (i n : nat) :
  slice l i (i + n) = take n (drop i l).
Proof. unfold slice. f_equal. lia. Qed.

Section BatchShape.
Context `{Runtime}.

Lemma scanCache_length cache texts : forall index rs unc rs' unc',
  scanCache cache index texts rs unc = (rs', unc') -> length rs' = length rs.
Proof.
  induction texts as [|text rest IH]; intros index rs unc rs' unc' E;
    cbn [scanCache] in E.
  - now inversion E.
  - destruct (cache !! createCacheKey text).
    + apply IH in E. now rewrite E, length_insert.
    + now apply IH in E.
Qed.

Lemma scanCache_holes cache texts : forall index rs unc rs' unc',
  scanCache cache index texts rs unc = (rs', unc') ->
  (index + length texts = length rs)%nat ->
  (forall k, hole rs k -> In k (map fst unc) \/ (index <= k)%nat) ->
  forall k, hole rs' k -> In k (map fst unc').
Proof.
  induction texts as [|text rest IH]; intros index rs unc rs' unc' E Hlen Hinv;
    cbn [scanCache] in E.
  - inversion E; subst. intros k Hk. destruct (Hinv k Hk) as [Hin|Hge];
      [exact Hin|].
    unfold hole in Hk. apply lookup_lt_Some in Hk. cbn [length] in Hlen. lia.
  - cbn [length] in Hlen. destruct (cache !! createCacheKey text) as [c|].
    + eapply IH; [exact E | rewrite length_insert; lia |].
      intros k Hk. apply hole_insert in Hk as [Hk Hne].
      destruct (Hinv k Hk); [auto | right; lia].
    + eapply IH; [exact E | lia |].
      intros k Hk. rewrite map_app, in_app_iff. cbn [map fst In].
      destruct (Hinv k Hk) as [Hin|Hge]; [auto|].
      destruct (decide (k = index)); [auto | right; lia].
Qed.

Lemma mockFill_length unc : forall rs w,
  length (fst (mockFill unc rs w)) = length rs.
Proof.
  induction unc as [|[i t] rest IH]; intros rs w; cbn [mockFill].
  - reflexivity.
  - cbn [generateMockEmbedding]. rewrite IH. apply length_insert.
Qed.

Lemma mockFill_holes unc : forall rs w k,
  hole (fst (mockFill unc rs w)) k -> hole rs k /\ ~ In k (map fst unc).
Proof.
  induction unc as [|[i t] rest IH]; intros rs w k Hk; cbn [mockFill] in Hk.
  - cbn. auto.
  - cbn [generateMockEmbedding] in Hk. apply IH in Hk as [Hk Hnot].
    apply hole_insert in Hk as [Hk Hne]. split; [exact Hk|].
    cbn [map fst In]. intros [->|Hin]; [congruence | contradiction].
Qed.

Lemma storeResponse_spec valid bi data : forall j rs w r rs' w',
  storeResponse valid bi j data rs w = (r, rs', w') ->
  r <> Diverged
  /\ length rs' = length rs
  /\ (forall k, hole rs' k -> hole rs k)
  /\ (r = Returned tt ->
      forall k, hole rs' k -> ~ In k (take (length data) (drop j bi))).
Proof.
  induction data as [|e rest IH]; intros j rs w r rs' w' E;
    cbn [storeResponse] in E.
  - inversion E; subst. repeat split; try congruence; try tauto.
  - destruct (bi !! j) as [oi|] eqn:Hbi.
    + destruct (valid !! oi) as [text|] eqn:Hv.
      * cbn [cache_set] in E. apply IH in E as (Hd & Hl & Hm & Hr).
        split; [exact Hd|]. split; [now rewrite Hl, length_insert|].
        split.
        { intros k Hk. apply Hm in Hk. now apply hole_insert in Hk. }
        intros -> k Hk. cbn [length]. rewrite (drop_S _ _ _ Hbi). cbn [take].
        intros [->|Hin].
        -- apply Hm in Hk. apply hole_insert in Hk as [_ Hne]. congruence.
        -- exact (Hr eq_refl k Hk Hin).
      * inversion E; subst. repeat split; try congruence.
        -- apply length_insert.
        -- intros k Hk. now apply hole_insert in Hk.
    + inversion E; subst. repeat split; congruence.
Qed.

Lemma remoteFill_spec api valid unc : forall fuel i rs w r rs' w',
  (length unc <= i + fuel)%nat ->
  remoteFill fuel api valid unc i rs w = (r, rs', w') ->
  r <> Diverged
  /\ length rs' = length rs
  /\ (forall k, hole rs' k -> hole rs k)
  /\ (answersInFull api -> r = Returned tt ->
      forall k, hole rs' k -> ~ In k (map fst (drop i unc))).
Proof.
  induction fuel as [|fuel IH]; intros i rs w r rs' w' Hfuel E;
    cbn [remoteFill] in E;
    destruct (i <? length unc)%nat eqn:Hlt;
    try (apply Nat.ltb_lt in Hlt; lia).
  - inversion E; subst. apply Nat.ltb_ge in Hlt.
    repeat split; try congruence; try tauto.
    intros _ _ k _. rewrite drop_ge by lia. cbn. tauto.
  - rewrite slice_from in E. unfold embeddings_create in E.
    destruct (api (api_requests w) (map snd (take API_BATCH (drop i unc))))
      as [e|data] eqn:Hapi.
    + inversion E; subst. repeat split; congruence.
    + match type of E with
      | context [storeResponse ?v ?b ?j ?d ?r0 ?w0] =>
          destruct (storeResponse v b j d r0 w0) as [[r1 rs1] w2] eqn:Hs
      end.
      apply storeResponse_spec in Hs as (Hd & Hl & Hm & Hr).
      destruct r1 as [u|e|].
      * apply IH in E as (Hd' & Hl' & Hm' & Hr');
          [|unfold API_BATCH; lia].
        split; [exact Hd'|]. split; [congruence|].
        split; [auto|].
        intros Hfull -> k Hk.
        rewrite <- (take_drop API_BATCH (drop i unc)), drop_drop.
        rewrite map_app, in_app_iff. intros [Hin|Hin].
        -- destruct u. apply (Hr eq_refl k (Hm' k Hk)).
           rewrite drop_0, take_ge; [exact Hin|].
           apply Hfull in Hapi. rewrite !length_map in *. exact Hapi.
        -- exact (Hr' Hfull eq_refl k Hk Hin).
      * inversion E; subst. repeat split; congruence || auto.
      * congruence.
  - inversion E; subst. apply Nat.ltb_ge in Hlt.
    repeat split; try congruence; try tauto.
    intros _ _ k _. rewrite drop_ge by lia. cbn. tauto.
Qed.

Lemma finishBatch_spec (p : Pending) (w : World) :
  (forall k, hole (results p) k -> In k (map fst (uncached p))) ->
  exists rs w',
    finishBatch p w = (Returned rs, w')
    /\ length rs = length (results p)
    /\ ((forall api, openai = Some api -> answersInFull api) ->
        forall k, ~ hole rs k).
Proof.
  intros Hinv. unfold finishBatch.
  destruct (0 <? length (uncached p))%nat eqn:Hpos.
  - destruct openai as [api|] eqn:Ho.
    + destruct (remoteFill (length (uncached p)) api (validTexts p)
                           (uncached p) 0 (results p) w)
        as [[r rs1] w1] eqn:E.
      apply remoteFill_spec in E as (Hd & Hl & Hm & Hr); [|lia].
      destruct r as [u|e|]; [| |congruence].
      * exists rs1, w1. split; [reflexivity|]. split; [exact Hl|].
        intros Hfull k Hk. destruct u.
        apply (Hr (Hfull api eq_refl) eq_refl k Hk), Hinv, Hm, Hk.
      * destruct (mockFill (uncached p) rs1 w1) as [rs2 w2] eqn:Em.
        exists rs2, w2. split; [reflexivity|].
        pose proof (mockFill_length (uncached p) rs1 w1) as Hl2.
        pose proof (mockFill_holes (uncached p) rs1 w1) as Hh2.
        rewrite Em in Hl2, Hh2. cbn [fst] in Hl2, Hh2.
        split; [congruence|]. intros _ k Hk.
        destruct (Hh2 k Hk) as [Hk1 Hnot]. apply Hnot, Hinv, Hm, Hk1.
    + destruct (mockFill (uncached p) (results p) w) as [rs2 w2] eqn:Em.
      exists rs2, w2. split; [reflexivity|].
      pose proof (mockFill_length (uncached p) (results p) w) as Hl2.
      pose proof (mockFill_holes (uncached p) (results p) w) as Hh2.
      rewrite Em in Hl2, Hh2. cbn [fst] in Hl2, Hh2.
      split; [exact Hl2|]. intros _ k Hk.
      destruct (Hh2 k Hk) as [Hk1 Hnot]. apply Hnot, Hinv, Hk1.
  - exists (results p), w. split; [reflexivity|]. split; [reflexivity|].
    intros _ k Hk. apply Hinv in Hk. apply Nat.ltb_ge in Hpos.
    destruct (uncached p); [exact Hk | cbn in Hpos; lia].
Qed.

Lemma beginBatch_spec (texts : list string) (w : World) :
  match beginBatch texts w with
  | None => List.filter hasText texts = []
  | Some p =>
      validTexts p = List.filter hasText texts
      /\ length (results p) = length (List.filter hasText texts)
      /\ forall k, hole (results p) k -> In k (map fst (uncached p))
  end.
Proof.
  unfold beginBatch.
  destruct (length (List.filter hasText texts) =? 0)%nat eqn:Hn.
  - apply Nat.eqb_eq in Hn. now destruct (List.filter hasText texts).
  - destruct (scanCache (embeddingCache w) 0 (List.filter hasText texts)
                (replicate (length (List.filter hasText texts)) None) [])
      as [rs unc] eqn:E.
    cbn [validTexts results uncached]. split; [reflexivity|]. split.
    + apply scanCache_length in E. now rewrite E, length_replicate.
    + eapply scanCache_holes; [exact E | now rewrite length_replicate |].
      intros k _. right. lia.
Qed.
End BatchShape.

Lemma scanCache_empty (texts : list string) : forall index rs unc,
  scanCache ∅ index texts rs unc
  = (rs, unc ++ combine (seq index (length texts))
                        (map (fun t => JS.substring t 0 MAX_INPUT) texts)).
Proof.
  induction texts as [|t rest IH]; intros index rs unc; cbn [scanCache].
  - cbn. now rewrite app_nil_r.
  - rewrite lookup_empty, IH. cbn [length seq map combine].
    now rewrite <- app_assoc.
Qed.

Lemma mockFill_in_order `{Runtime} (ts : list string) : forall a pre w,
  length pre = a ->
  fst (mockFill (combine (seq a (length ts)) ts)
                (pre ++ replicate (length ts) None) w)
  = pre ++ map (fun t => Some (mockVector (simpleHash t))) ts.
Proof.
  induction ts as [|t rest IH]; intros a pre w Hpre;
    cbn [length seq combine mockFill replicate map].
  - reflexivity.
  - cbn [generateMockEmbedding].
    rewrite insert_app_r_alt by lia.
    replace (a - length pre)%nat with 0%nat by lia. cbn [insert list_insert].
    rewrite (cons_middle (Some (mockVector (simpleHash t)))), app_assoc.
    rewrite IH by (rewrite length_app; cbn; lia).
    now rewrite <- app_assoc.
Qed.

Lemma generateBatchEmbeddings_fallback `{Runtime} (texts : list string)
  (w : World) :
  openai = None ->
  embeddingCache w = ∅ ->
  fst (generateBatchEmbeddings texts w)
  = Returned
      (map (fun t =>
              Some (mockVector (simpleHash (JS.substring t 0 MAX_INPUT))))
           (List.filter hasText texts)).
Proof.
  intros Ho Hc. unfold generateBatchEmbeddings, beginBatch.
  destruct (length (List.filter hasText texts) =? 0)%nat eqn:Hn.
  - apply Nat.eqb_eq in Hn. now destruct (List.filter hasText texts).
  - rewrite Hc, scanCache_empty. cbn [app]. unfold finishBatch.
    cbn [uncached results validTexts]. rewrite Ho.
    set (valid := List.filter hasText texts) in *.
    set (cut := map (fun t => JS.substring t 0 MAX_INPUT) valid).
    assert (Hlen : length cut = length valid) by apply length_map.
    rewrite <- Hlen.
    pose proof (mockFill_in_order cut 0 [] w eq_refl) as Hm.
    cbn [app] in Hm.
    destruct (0 <? length (combine (seq 0 (length cut)) cut))%nat eqn:Hpos.
    + destruct (mockFill _ _ w) as [rs w'] eqn:E. cbn [fst] in Hm |- *.
      rewrite Hm. unfold cut. now rewrite map_map.
    + apply Nat.ltb_ge in Hpos. apply Nat.eqb_neq in Hn.
      rewrite length_combine, length_seq in Hpos. lia.
Qed.

Lemma constant_api_answersInFull : answersInFull constant_api.
Proof.
  intros n input data E. unfold constant_api in E. injection E as <-.
  now rewrite length_map.
Qed.

(** ** Ranking queries *)

Lemma insertRow_In (x : SearchRow) (l : list SearchRow) (y : SearchRow) :
  In y (insertRow x l) <-> y = x \/ In y l.
Proof.
  induction l as [|z l IH]; cbn [insertRow].
  - cbn. intuition.
  - destruct (Qle_bool (similarity_score x) (similarity_score z)); cbn [In].
    + intuition.
    + rewrite IH. intuition.
Qed.




Lemma insertRow_sorted (x : SearchRow) (l : list SearchRow) :
  StronglySorted byScore l -> StronglySorted byScore (insertRow x l).
Proof.
  induction 1 as [|z l Hs IH Hall]; cbn [insertRow].
  - repeat constructor.
  - destruct (Qle_bool (similarity_score x) (similarity_score z)) eqn:E.
    + apply Qle_bool_iff in E. constructor; [now constructor|].
      constructor; [exact E|].
      eapply Forall_impl; [exact Hall|].
      intros a Ha. unfold byScore in *. eapply Qle_trans; eassumption.
    + assert (Hzx : byScore z x).
      { unfold byScore. apply Qlt_le_weak, Qnot_le_lt. intros Hle.
        apply Qle_bool_iff in Hle. congruence. }
      constructor; [exact IH|].
      apply Forall_forall. intros a Ha. apply list_elem_of_In in Ha.
      apply insertRow_In in Ha as [->|Ha]; [exact Hzx|].
      rewrite Forall_forall in Hall. apply Hall. now apply list_elem_of_In.
Qed.

Lemma orderByScore_sorted (l : list SearchRow) :
  StronglySorted byScore (orderByScore l).
Proof.
  induction l as [|x l IH]; cbn [orderByScore]; [constructor|].
  now apply insertRow_sorted.
Qed.



Lemma insertRow_Permutation (x : SearchRow) (l : list SearchRow) :
  Permutation (insertRow x l) (x :: l).
Proof.
  induction l as [|y l IH]; cbn [insertRow]; [reflexivity|].
  destruct (Qle_bool _ _); [reflexivity|].
  rewrite IH. apply perm_swap.
Qed.

Lemma orderByScore_Permutation (l : list SearchRow) :
  Permutation (orderByScore l) l.
Proof.
  induction l as [|x l IH]; cbn [orderByScore]; [reflexivity|].
  now rewrite insertRow_Permutation, IH.
Qed.

Lemma sorted_app_byScore (l1 l2 : list SearchRow) :
  StronglySorted byScore (l1 ++ l2) ->
  forall a b, In a l1 -> In b l2 -> byScore a b.
Proof.
  induction l1 as [|x l1 IH]; intros Hs a b Ha Hb; [destruct Ha|].
  cbn [app] in Hs. apply StronglySorted_inv in Hs as [Hs Hall].
  destruct Ha as [<- | Ha]; [|now apply IH].
  rewrite Forall_forall in Hall. apply Hall.
  apply list_elem_of_In, in_or_app. now right.
Qed.

Lemma ranking_closest (n : nat) (l : list SearchRow) :
  Permutation (take n (orderByScore l) ++ drop n (orderByScore l)) l
  /\ (forall a b, In a (take n (orderByScore l)) ->
                  In b (drop n (orderByScore l)) -> byScore a b).
Proof.
  split.
  - rewrite take_drop. apply orderByScore_Permutation.
  - apply sorted_app_byScore. rewrite take_drop. apply orderByScore_sorted.
Qed.

Lemma NoDup_ids_filter (p : Incident -> bool) (t : list Incident) :
  List.NoDup (map id t) -> List.NoDup (map id (List.filter p t)).
Proof.
  induction t as [|r t IH]; intros Hnd; [constructor|].
  cbn [map] in Hnd. apply List.NoDup_cons_iff in Hnd as [Hnotin Hnd].
  cbn [List.filter]. destruct (p r); [|now apply IH].
  cbn [map]. constructor; [|now apply IH].
  intros Hin. apply Hnotin. apply in_map_iff in Hin as (x & E & Hx).
  apply filter_In in Hx as [Hx _]. rewrite <- E. now apply in_map.
Qed.





(** The scenario of the claim when the stored vectors are recent: one
    hundred stored vectors, three under the threshold 0.3, limit 5. *)
Example semanticSearch_three_of_hundred :
  let store := map (fun inc => stored 0 (default [] (title_vector inc))
                                      noon_2024_06_15) old_store in
  length store = 100%nat
  /\ map (fun r => Qeq_bool (similarity_score r) 0)
         (default []
            (match fst (@semanticSearch dev_runtime "burglary" [1; 0]%float
                          (Some 5%nat) (threshold_only (3 # 10))
                          (world_of store)) with
             | Returned rows => Some rows
             | _ => None
             end))
     = [true; true; true].
Proof. vm_compute. split; reflexivity. Qed.


Lemma findOne_absent (incidentId : string) (w : World) :
  (forall inc, In inc (incidents_table w) -> id inc <> incidentId) ->
  findOne incidentId w = None.
Proof.
  intros Habs. unfold findOne.
  destruct (find _ _) as [inc|] eqn:E; [|reflexivity].
  apply find_some in E as [Hin Hid]. apply String.eqb_eq in Hid.
  destruct (Habs inc Hin Hid).
Qed.



(** ** processBatchEmbeddings: the counters *)

Section Counters.
Context `{Runtime}.

Lemma resume_returns (call : option Pending) (w : World) :
  (forall p, call = Some p ->
             forall k, hole (results p) k -> In k (map fst (uncached p))) ->
  exists rs w', resume call w = (Returned rs, w').
Proof.
  intros Hinv. destruct call as [p|]; cbn [resume].
  - destruct (finishBatch_spec p w (Hinv p eq_refl)) as (rs & w' & E & _).
    now exists rs, w'.
  - now exists [], w.
Qed.

Lemma guarded_beginBatch_holes (go : bool) (texts : list string) (w : World) :
  forall p, (if go then beginBatch texts w else None) = Some p ->
            forall k, hole (results p) k -> In k (map fst (uncached p)).
Proof.
  intros p E. destruct go; [|discriminate].
  pose proof (beginBatch_spec texts w) as Hb. rewrite E in Hb. apply Hb.
Qed.

Lemma awaitAll_not_diverged (outcomes : list (option Error)) :
  awaitAll outcomes <> Diverged.
Proof.
  induction outcomes as [|[e|] rest IH]; cbn [awaitAll]; congruence.
Qed.

Lemma processSingleBatch_not_diverged (batch : list Incident) (w : World) :
  fst (processSingleBatch batch w) <> Diverged.
Proof.
  unfold processSingleBatch, bind.
  match goal with
  | |- context [resume ?c w] =>
      destruct (resume_returns c w) as (rs1 & w1 & ->);
        [apply guarded_beginBatch_holes|]
  end.
  match goal with
  | |- context [resume ?c w1] =>
      destruct (resume_returns c w1) as (rs2 & w2 & ->);
        [apply guarded_beginBatch_holes|]
  end.
  destruct (pushUpdates SetTitleVector _ _ _ _) as [o1 w3].
  destruct (pushUpdates SetDescriptionVector _ _ _ _) as [o2 w4].
  cbn [fst]. apply awaitAll_not_diverged.
Qed.

Lemma batchLoop_step (fuel : nat) (incidents : list Incident) (i : nat)
  (counts : Counts) (w : World) :
  (i < length incidents)%nat ->
  batchLoop (S fuel) incidents i counts w
  = let batch := slice incidents i (i + BATCH_SIZE) in
    let (r, w1) := processSingleBatch batch w in
    if threw r
    then batchLoop fuel incidents (i + BATCH_SIZE)
                   {| processed := processed counts;
                      errors := errors counts + length batch |} w1
    else batchLoop fuel incidents (i + BATCH_SIZE)
                   {| processed := processed counts + length batch;
                      errors := errors counts |} w1.
Proof.
  intros Hlt. cbn [batchLoop]. apply Nat.ltb_lt in Hlt. rewrite Hlt.
  cbv zeta. unfold bind at 1, try_catch, bind at 1, sleep, ret.
  pose proof (processSingleBatch_not_diverged
                (slice incidents i (i + BATCH_SIZE)) w) as Hnd.
  destruct (processSingleBatch (slice incidents i (i + BATCH_SIZE)) w)
    as [[u|e|] w1]; cbn [fst threw] in *; try reflexivity.
  congruence.
Qed.

Lemma batchLoop_runs (incidents : list Incident) :
  forall fuel i counts w,
    (length incidents <= i + fuel)%nat ->
    exists c w',
      batchLoop fuel incidents i counts w = (Returned c, w')
      /\ runBatches (subBatches fuel incidents i) w
         = (fst (runBatches (subBatches fuel incidents i) w), w')
      /\ processed c
         = (processed counts
            + recordsWhere false
                (fst (runBatches (subBatches fuel incidents i) w)))%nat
      /\ errors c
         = (errors counts
            + recordsWhere true
                (fst (runBatches (subBatches fuel incidents i) w)))%nat.
Proof.
  induction fuel as [|fuel IH]; intros i counts w Hfuel.
  - cbn [batchLoop subBatches].
    destruct (i <? length incidents)%nat eqn:Hlt;
      [apply Nat.ltb_lt in Hlt; lia|].
    exists counts, w. cbn. repeat split; lia.
  - destruct (i <? length incidents)%nat eqn:Hlt.
    + apply Nat.ltb_lt in Hlt. rewrite batchLoop_step by exact Hlt.
      cbn [subBatches]. apply Nat.ltb_lt in Hlt. rewrite Hlt.
      cbv zeta. cbn [runBatches].
      destruct (processSingleBatch (slice incidents i (i + BATCH_SIZE)) w)
        as [r w1].
      match goal with
      | |- context [batchLoop fuel incidents ?j _ _] =>
          assert (Hf : (length incidents <= j + fuel)%nat)
            by (unfold BATCH_SIZE; lia)
      end.
      destruct (threw r) eqn:Hr.
      * destruct (IH _ {| processed := processed counts;
                          errors := errors counts
                                    + length (slice incidents i
                                                (i + BATCH_SIZE)) |}
                    w1 Hf) as (c & w' & E & Hw & Hp & He).
        exists c, w'. split; [exact E|].
        destruct (runBatches _ w1) as [os w2] eqn:Er.
        cbn [fst] in *. injection Hw as <-.
        split; [reflexivity|]. unfold recordsWhere in *.
        cbn [List.filter snd Bool.eqb map fst processed errors] in *.
        unfold list_sum in *. cbn [fold_right] in *. split; lia.
      * destruct (IH _ {| processed := processed counts
                                       + length (slice incidents i
                                                   (i + BATCH_SIZE));
                          errors := errors counts |}
                    w1 Hf) as (c & w' & E & Hw & Hp & He).
        exists c, w'. split; [exact E|].
        destruct (runBatches _ w1) as [os w2] eqn:Er.
        cbn [fst] in *. injection Hw as <-.
        split; [reflexivity|]. unfold recordsWhere in *.
        cbn [List.filter snd Bool.eqb map fst processed errors] in *.
        unfold list_sum in *. cbn [fold_right] in *. split; lia.
    + cbn [batchLoop subBatches]. rewrite Hlt.
      exists counts, w. cbn. repeat split; lia.
Qed.

Lemma subBatches_partition (incidents : list Incident) :
  forall fuel i,
    (length incidents <= i + fuel)%nat ->
    concat (subBatches fuel incidents i) = drop i incidents
    /\ Forall (fun batch => (0 < length batch <= BATCH_SIZE)%nat)
              (subBatches fuel incidents i).
Proof.
  induction fuel as [|fuel IH]; intros i Hfuel; cbn [subBatches];
    destruct (i <? length incidents)%nat eqn:Hlt.
  - apply Nat.ltb_lt in Hlt. lia.
  - apply Nat.ltb_ge in Hlt. rewrite drop_ge by lia. now split.
  - apply Nat.ltb_lt in Hlt.
    destruct (IH (i + BATCH_SIZE)%nat) as [Hc Hf];
      [unfold BATCH_SIZE; lia|].
    cbn [concat]. rewrite Hc, slice_from. split.
    + now rewrite <- drop_drop, take_drop.
    + constructor; [|exact Hf].
      rewrite length_take, length_drop. unfold BATCH_SIZE. lia.
  - apply Nat.ltb_ge in Hlt. rewrite drop_ge by lia. now split.
Qed.

Lemma recordsWhere_total (outcomes : list (list Incident * bool)) :
  (recordsWhere false outcomes + recordsWhere true outcomes)%nat
  = length (concat (map fst outcomes)).
Proof.
  unfold recordsWhere.
  induction outcomes as [|[batch flag] rest IH]; [reflexivity|].
  cbn [List.filter map concat snd fst]. rewrite length_app, <- IH.
  unfold list_sum in *.
  destruct flag; cbn [Bool.eqb map fold_right fst]; lia.
Qed.

Lemma runBatches_batches (batches : list (list Incident)) :
  forall w, map fst (fst (runBatches batches w)) = batches.
Proof.
  induction batches as [|batch rest IH]; intros w; cbn [runBatches];
    [reflexivity|].
  destruct (processSingleBatch batch w) as [r w1].
  specialize (IH w1). destruct (runBatches rest w1) as [os w2].
  cbn [fst map] in *. now rewrite IH.
Qed.
End Counters.

Lemma processBatchEmbeddings_runs `{Runtime} (incidents : list Incident)
  (w : World) :
  exists c w' outcomes,
    processBatchEmbeddings incidents w = (Returned c, w')
    /\ runBatches (subBatches (length incidents) incidents 0) w
       = (outcomes, w')
    /\ processed c = recordsWhere false outcomes
    /\ errors c = recordsWhere true outcomes.
Proof.
  unfold processBatchEmbeddings.
  destruct (length incidents =? 0)%nat eqn:Hn.
  - apply Nat.eqb_eq in Hn. destruct incidents; [|discriminate].
    exists {| processed := 0; errors := 0 |}, w, []. now cbn.
  - destruct (batchLoop_runs incidents (length incidents) 0
                {| processed := 0; errors := 0 |} w)
      as (c & w' & E & Hw & Hp & He); [lia|].
    exists c, w', (fst (runBatches (subBatches (length incidents) incidents 0) w)).
    cbn [processed errors] in Hp, He. now repeat split.
Qed.

Lemma processBatchEmbeddings_trace `{Runtime}
  (incidents : list Incident) (w : World) :
  exists c w' outcomes,
    processBatchEmbeddings incidents w = (Returned c, w')
    /\ runBatches (subBatches (length incidents) incidents 0) w
       = (outcomes, w')
    /\ concat (map fst outcomes) = incidents
    /\ Forall (fun o => (0 < length (fst o) <= BATCH_SIZE)%nat) outcomes
    /\ processed c = recordsWhere false outcomes
    /\ errors c = recordsWhere true outcomes.
Proof.
  destruct (processBatchEmbeddings_runs incidents w)
    as (c & w' & outcomes & E & Hr & Hp & He).
  exists c, w', outcomes. split; [exact E|]. split; [exact Hr|].
  pose proof (runBatches_batches
                (subBatches (length incidents) incidents 0) w) as Hb.
  rewrite Hr in Hb. cbn [fst] in Hb.
  destruct (subBatches_partition incidents (length incidents) 0) as [Hc Hf];
    [lia|].
  split; [now rewrite Hb, Hc|]. split; [|now split].
  rewrite <- Hb in Hf. now apply Forall_map in Hf.
Qed.

(** C1: the call always returns its counters.  The records are cut into
    consecutive sub-batches of at most 50; each sub-batch is processed on
    the state left by the one before it, whether or not that one threw; the
    records of the sub-batches that threw are counted in [errors] and those
    of all the others in [processed]. *)
Theorem processBatchEmbeddings_isolates_failures `{Runtime}
  (incidents : list Incident) (w : World) :
  exists c w' outcomes,
    processBatchEmbeddings incidents w = (Returned c, w')
    /\ runBatches (subBatches (length incidents) incidents 0) w
       = (outcomes, w')
    /\ concat (map fst outcomes) = incidents
    /\ Forall (fun o => (0 < length (fst o) <= BATCH_SIZE)%nat) outcomes
    /\ processed c = recordsWhere false outcomes
    /\ errors c = recordsWhere true outcomes.
Proof. exact (processBatchEmbeddings_trace incidents w). Qed.

(** Three sub-batches of 50, 50 and 20 records on a server whose database
    rejects the update of one record of the second sub-batch. *)
Example one_bad_sub_batch :
  fst (@processBatchEmbeddings faulty_runtime (backlog 120 60)
         (world_of (backlog 120 60)))
  = Returned {| processed := 70; errors := 50 |}.
Proof. vm_compute. reflexivity. Qed.

(** C10: the counters add up to the number of input records, and the empty
    list is answered with two zeros on an untouched state. *)
Theorem processBatchEmbeddings_counts_every_record `{Runtime}
  (incidents : list Incident) (w : World) :
  exists c w',
    processBatchEmbeddings incidents w = (Returned c, w')
    /\ (processed c + errors c)%nat = length incidents
    /\ (incidents = [] -> c = {| processed := 0; errors := 0 |} /\ w' = w).
Proof.
  destruct (processBatchEmbeddings_trace incidents w)
    as (c & w' & outcomes & E & Hr & Hc & _ & Hp & He).
  exists c, w'. split; [exact E|]. split.
  - now rewrite Hp, He, recordsWhere_total, Hc.
  - intros ->. cbn in E. now inversion E.
Qed.

(** ** The backfill *)

Lemma keeps_refl (r : Incident) : keeps r r.
Proof. unfold keeps. auto. Qed.

Lemma keeps_trans (a b c : Incident) : keeps a b -> keeps b c -> keeps a c.
Proof. unfold keeps. intros (? & ? & ?) (? & ? & ?). repeat split; try congruence; auto. Qed.

Lemma grows_refl (t : list Incident) : grows t t.
Proof. induction t; constructor; auto using keeps_refl. Qed.

Lemma grows_trans (a b c : list Incident) : grows a b -> grows b c -> grows a c.
Proof.
  unfold grows. intros Hab. revert c.
  induction Hab as [|x y l l' Hxy Hl IH]; intros c Hbc; inversion Hbc; subst;
    constructor; eauto using keeps_trans.
Qed.

Lemma grows_In (t t' : list Incident) (r' : Incident) :
  grows t t' -> In r' t' -> exists r, In r t /\ keeps r r'.
Proof.
  induction 1 as [|x y l l' Hxy Hl IH]; cbn [In]; [tauto|].
  intros [<-|Hin].
  - exists x. auto.
  - destruct (IH Hin) as (r & Hr & Hk). exists r. auto.
Qed.

Lemma embedded_grows (column : Incident -> option Vector) (X : string)
  (t t' : list Incident) :
  (forall r r', keeps r r' -> column r <> None -> column r' <> None) ->
  grows t t' -> embedded column X t -> embedded column X t'.
Proof.
  intros Hmono Hg He r' Hin Hid.
  destruct (grows_In _ _ _ Hg Hin) as (r & Hr & Hk).
  apply (Hmono r r' Hk). apply He; [exact Hr|].
  destruct Hk as (Hi & _). congruence.
Qed.

Lemma title_vector_kept (r r' : Incident) :
  keeps r r' -> title_vector r <> None -> title_vector r' <> None.
Proof. intros (_ & Ht & _). exact Ht. Qed.

Lemma description_vector_kept (r r' : Incident) :
  keeps r r' -> description_vector r <> None -> description_vector r' <> None.
Proof. intros (_ & _ & Hd). exact Hd. Qed.

Lemma applyPatch_keeps (p : Patch) (r : Incident) : keeps r (applyPatch p r).
Proof. destruct p; unfold keeps; cbn; repeat split; auto; discriminate. Qed.

Section Backfill.
Context `{Runtime}.
Hypothesis database_accepts : forall n incidentId, update_fault n incidentId = None.

Lemma repository_update_grows (incidentId : string) (p : Patch) (w : World) :
  grows (incidents_table w)
        (incidents_table (snd (repository_update incidentId p w))).
Proof.
  unfold repository_update. cbn [snd incidents_table].
  destruct (update_fault _ _); [apply grows_refl|].
  unfold grows. induction (incidents_table w) as [|r t IH]; cbn [map];
    constructor; [|exact IH].
  destruct (String.eqb (id r) incidentId);
    [apply applyPatch_keeps | apply keeps_refl].
Qed.

Lemma repository_update_accepted (incidentId : string) (p : Patch) (w : World) :
  fst (repository_update incidentId p w) = None.
Proof. unfold repository_update. cbn [fst]. apply database_accepts. Qed.

Lemma repository_update_embeds (column : Incident -> option Vector)
  (field : Vector -> Patch) (incidentId : string) (v : Vector) (w : World) :
  (forall r, column (applyPatch (field v) r) <> None) ->
  embedded column incidentId
           (incidents_table (snd (repository_update incidentId (field v) w))).
Proof.
  intros Hset r' Hin Hid. unfold repository_update in Hin.
  cbn [snd incidents_table] in Hin. rewrite database_accepts in Hin.
  apply in_map_iff in Hin as (r & <- & Hr).
  destruct (String.eqb (id r) incidentId) eqn:E; [apply Hset|].
  apply String.eqb_neq in E. contradiction.
Qed.

Lemma pushUpdates_effect (column : Incident -> option Vector)
  (field : Vector -> Patch) (embeddings : list (option Vector))
  (needs : list Incident) :
  (forall v r, column (applyPatch (field v) r) <> None) ->
  (forall r r', keeps r r' -> column r <> None -> column r' <> None) ->
  forall index w,
    (forall j, (j < length needs)%nat ->
               exists v, embeddings !! (index + j)%nat = Some (Some v)) ->
    Forall (fun o => o = None) (fst (pushUpdates field embeddings index needs w))
    /\ grows (incidents_table w)
             (incidents_table (snd (pushUpdates field embeddings index needs w)))
    /\ forall inc, In inc needs ->
         embedded column (id inc)
           (incidents_table (snd (pushUpdates field embeddings index needs w))).
Proof.
  intros Hset Hmono.
  induction needs as [|incident rest IH]; intros index w Hslots;
    cbn [pushUpdates].
  - cbn [fst snd]. split; [constructor|]. split; [apply grows_refl|].
    intros inc [].
  - destruct (Hslots 0%nat) as (v & Hv); [cbn; lia|].
    rewrite Nat.add_0_r in Hv. rewrite Hv.
    pose proof (repository_update_grows (id incident) (field v) w) as Hg.
    pose proof (repository_update_accepted (id incident) (field v) w) as Ha.
    pose proof (repository_update_embeds column field (id incident) v w
                  (Hset v)) as He.
    destruct (repository_update (id incident) (field v) w) as [o w1].
    cbn [fst snd] in Hg, Ha, He. subst o.
    destruct (IH (S index) w1) as (Hf & Hg' & He').
    { intros j Hj. destruct (Hslots (S j)) as (u & Hu); [cbn; lia|].
      exists u. now rewrite Nat.add_succ_comm. }
    destruct (pushUpdates field embeddings (S index) rest w1) as [os w2].
    cbn [fst snd] in *. split; [now constructor|].
    split; [eapply grows_trans; eassumption|].
    intros inc [<-|Hin]; [|now apply He'].
    eapply embedded_grows; eassumption.
Qed.

Lemma mockFill_table (unc : list (nat * string)) : forall rs w,
  incidents_table (snd (mockFill unc rs w)) = incidents_table w.
Proof.
  induction unc as [|[i t] rest IH]; intros rs w; cbn [mockFill];
    [reflexivity|].
  cbn [generateMockEmbedding]. now rewrite IH.
Qed.

Lemma storeResponse_table valid bi data : forall j rs w,
  incidents_table (snd (storeResponse valid bi j data rs w))
  = incidents_table w.
Proof.
  induction data as [|e rest IH]; intros j rs w; cbn [storeResponse];
    [reflexivity|].
  destruct (bi !! j) as [oi|]; [|reflexivity].
  destruct (valid !! oi) as [text|]; [|reflexivity].
  cbn [cache_set]. now rewrite IH.
Qed.

Lemma remoteFill_table api valid unc : forall fuel i rs w,
  incidents_table (snd (remoteFill fuel api valid unc i rs w))
  = incidents_table w.
Proof.
  induction fuel as [|fuel IH]; intros i rs w; cbn [remoteFill];
    destruct (i <? length unc)%nat; try reflexivity.
  unfold embeddings_create.
  destruct (api _ _) as [e|data]; [reflexivity|].
  match goal with
  | |- context [storeResponse ?v ?b ?j ?d ?r0 ?w0] =>
      pose proof (storeResponse_table v b d j r0 w0) as Hs;
        destruct (storeResponse v b j d r0 w0) as [[r1 rs1] w2]
  end.
  cbn [snd incidents_table] in Hs.
  destruct r1; try exact Hs. now rewrite IH.
Qed.

Lemma finishBatch_table (p : Pending) (w : World) :
  incidents_table (snd (finishBatch p w)) = incidents_table w.
Proof.
  unfold finishBatch. destruct (0 <? length (uncached p))%nat; [|reflexivity].
  destruct openai as [api|].
  - pose proof (remoteFill_table api (validTexts p) (uncached p)
                  (length (uncached p)) 0 (results p) w) as Hr.
    destruct (remoteFill _ _ _ _ _ _ _) as [[r rs1] w1].
    cbn [snd] in Hr. destruct r; try exact Hr.
    pose proof (mockFill_table (uncached p) rs1 w1) as Hm.
    destruct (mockFill _ _ _) as [rs2 w2]. cbn [snd] in *. congruence.
  - pose proof (mockFill_table (uncached p) (results p) w) as Hm.
    now destruct (mockFill _ _ _) as [rs2 w2].
Qed.

Lemma filter_all_true {A} (f : A -> bool) (l : list A) :
  Forall (fun x => f x = true) l -> List.filter f l = l.
Proof.
  induction 1 as [|x l Hx Hl IH]; cbn [List.filter]; [reflexivity|].
  now rewrite Hx, IH.
Qed.

Hypothesis provider_answers_in_full :
  forall api, openai = Some api -> answersInFull api.

Lemma resume_slots (texts : list string) (w0 w : World) :
  Forall (fun t => hasText t = true) texts ->
  exists rs w',
    resume (if (0 <? length texts)%nat then beginBatch texts w0 else None) w
    = (Returned rs, w')
    /\ incidents_table w' = incidents_table w
    /\ forall j, (j < length texts)%nat -> exists v, rs !! j = Some (Some v).
Proof.
  intros Hall. destruct (0 <? length texts)%nat eqn:Hpos.
  - pose proof (beginBatch_spec texts w0) as Hb.
    rewrite (filter_all_true _ _ Hall) in Hb.
    destruct (beginBatch texts w0) as [p|].
    + destruct Hb as (_ & Hlen & Hinv). cbn [resume].
      pose proof (finishBatch_table p w) as Ht.
      destruct (finishBatch_spec p w Hinv) as (rs & w' & E & Hl & Hno).
      rewrite E in Ht. cbn [snd] in Ht.
      exists rs, w'. split; [exact E|]. split; [exact Ht|].
      intros j Hj.
      destruct (lookup_lt_is_Some_2 rs j) as [[v|] Hv]; [lia| |].
      * now exists v.
      * destruct (Hno provider_answers_in_full j Hv).
    + apply Nat.ltb_lt in Hpos. rewrite Hb in Hpos. cbn in Hpos. lia.
  - apply Nat.ltb_ge in Hpos. exists [], w. cbn [resume ret].
    split; [reflexivity|]. split; [reflexivity|]. intros j Hj. lia.
Qed.

Lemma awaitAll_accepted (outcomes : list (option Error)) :
  Forall (fun o => o = None) outcomes -> awaitAll outcomes = Returned tt.
Proof.
  induction 1 as [|o l -> Hl IH]; cbn [awaitAll]; [reflexivity | exact IH].
Qed.

Lemma processSingleBatch_effect (batch : list Incident) (w : World) :
  Forall embeddable batch ->
  exists w',
    processSingleBatch batch w = (Returned tt, w')
    /\ grows (incidents_table w) (incidents_table w')
    /\ forall inc, In inc batch ->
         (title_vector inc = None ->
          embedded title_vector (id inc) (incidents_table w'))
         /\ (description_vector inc = None ->
             embedded description_vector (id inc) (incidents_table w')).
Proof.
  intros Hall. rewrite Forall_forall in Hall.
  assert (HallIn : forall inc, In inc batch -> embeddable inc).
  { intros inc Hin. apply Hall. now apply list_elem_of_In. }
  clear Hall. unfold processSingleBatch, bind.
  set (needsT := List.filter needsTitle batch).
  set (needsD := List.filter needsDescription batch).
  destruct (resume_slots (map title needsT) w w) as (rs1 & w1 & -> & Ht1 & Hs1).
  { apply Forall_forall. intros t Ht. apply list_elem_of_In, in_map_iff in Ht
      as (inc & <- & Hin).
    apply filter_In in Hin as [Hin _]. apply (HallIn inc Hin). }
  destruct (resume_slots
              (map (fun inc => default EmptyString (description inc)) needsD)
              w w1) as (rs2 & w2 & -> & Ht2 & Hs2).
  { apply Forall_forall. intros t Ht. apply list_elem_of_In, in_map_iff in Ht
      as (inc & <- & Hin).
    apply filter_In in Hin as [Hin _].
    destruct (HallIn inc Hin) as (_ & d & -> & Hd). exact Hd. }
  destruct (pushUpdates_effect title_vector SetTitleVector
              rs1 needsT) with (index := 0%nat) (w := w2)
    as (Hf1 & Hg1 & He1).
  { intros v r. cbn. discriminate. }
  { apply title_vector_kept. }
  { intros j Hj. apply Hs1. now rewrite length_map. }
  destruct (pushUpdates SetTitleVector rs1 0 needsT w2) as [o1 w3].
  cbn [fst snd] in Hf1, Hg1, He1.
  destruct (pushUpdates_effect description_vector
              SetDescriptionVector rs2 needsD) with (index := 0%nat) (w := w3)
    as (Hf2 & Hg2 & He2).
  { intros v r. cbn. discriminate. }
  { apply description_vector_kept. }
  { intros j Hj. apply Hs2. now rewrite length_map. }
  destruct (pushUpdates SetDescriptionVector rs2 0 needsD w3) as [o2 w4].
  cbn [fst snd] in Hf2, Hg2, He2.
  exists w4. split.
  - f_equal. apply awaitAll_accepted. apply Forall_app. now split.
  - split.
    + rewrite <- Ht1, <- Ht2. eapply grows_trans; eassumption.
    + intros inc Hin. destruct (HallIn inc Hin) as (Htitle & d & Hd & Hdt).
      split; intros Hnone.
      * eapply embedded_grows;
          [apply title_vector_kept | exact Hg2 |].
        apply He1. apply filter_In. split; [exact Hin|].
        unfold needsTitle. rewrite Hnone.
        destruct (title inc); [discriminate Htitle | reflexivity].
      * apply He2. apply filter_In. split; [exact Hin|].
        unfold needsDescription. rewrite Hnone, Hd.
        destruct d; [discriminate Hdt | reflexivity].
Qed.

Lemma runBatches_effect (batches : list (list Incident)) : forall w,
  Forall (Forall embeddable) batches ->
  Forall (fun o => snd o = false) (fst (runBatches batches w))
  /\ grows (incidents_table w) (incidents_table (snd (runBatches batches w)))
  /\ forall inc, In inc (concat batches) ->
       (title_vector inc = None ->
        embedded title_vector (id inc)
                 (incidents_table (snd (runBatches batches w))))
       /\ (description_vector inc = None ->
           embedded description_vector (id inc)
                    (incidents_table (snd (runBatches batches w)))).
Proof.
  induction batches as [|batch rest IH]; intros w Hall; cbn [runBatches].
  - cbn [fst snd concat]. split; [constructor|]. split; [apply grows_refl|].
    intros inc [].
  - inversion Hall as [|? ? Hb Hrest]; subst.
    destruct (processSingleBatch_effect batch w Hb) as (w1 & -> & Hg & He).
    destruct (IH w1 Hrest) as (Hf & Hg' & He').
    destruct (runBatches rest w1) as [os w2]. cbn [fst snd threw] in *.
    split; [now constructor|]. split; [eapply grows_trans; eassumption|].
    intros inc Hin. cbn [concat] in Hin. apply in_app_iff in Hin as [Hin|Hin].
    + destruct (He inc Hin) as [Het Hed]. split; intros Hnone.
      * eapply embedded_grows; [apply title_vector_kept | exact Hg' | auto].
      * eapply embedded_grows;
          [apply description_vector_kept | exact Hg' | auto].
    + now apply He'.
Qed.

Lemma recordsWhere_none_threw (outcomes : list (list Incident * bool)) :
  Forall (fun o => snd o = false) outcomes -> recordsWhere true outcomes = 0%nat.
Proof.
  unfold recordsWhere. induction 1 as [|[b f] l Hf Hl IH]; [reflexivity|].
  cbn [snd] in Hf. subst f. cbn [List.filter snd Bool.eqb]. exact IH.
Qed.

Lemma backfill_completes (w : World) :
  Forall embeddable (incidents_table w) ->
  exists c w1,
    processAllMissingEmbeddings w = (Returned c, w1)
    /\ processed c = length (List.filter missingEmbedding (incidents_table w))
    /\ errors c = 0%nat
    /\ List.filter missingEmbedding (incidents_table w1) = [].
Proof.
  intros Hall. unfold processAllMissingEmbeddings.
  set (snapshot := List.filter missingEmbedding (incidents_table w)).
  destruct (processBatchEmbeddings_trace snapshot w)
    as (c & w1 & outcomes & E & Hr & Hc & _ & Hp & He).
  destruct (subBatches_partition snapshot (length snapshot) 0) as [Hcat _];
    [lia|].
  rewrite drop_0 in Hcat.
  destruct (runBatches_effect (subBatches (length snapshot) snapshot 0) w)
    as (Hflags & Hg & Hemb).
  { apply Forall_forall. intros batch Hb. apply Forall_forall. intros inc Hi.
    rewrite Forall_forall in Hall. apply Hall.
    apply list_elem_of_In. apply list_elem_of_In in Hb, Hi.
    assert (Hin : In inc snapshot).
    { rewrite <- Hcat. apply in_concat. eauto. }
    now apply filter_In in Hin as [Hin _]. }
  rewrite Hr in Hflags, Hg, Hemb. cbn [fst snd] in Hflags, Hg, Hemb.
  rewrite Hcat in Hemb.
  exists c, w1. split; [exact E|].
  assert (He0 : errors c = 0%nat)
    by (rewrite He; now apply recordsWhere_none_threw).
  split.
  { pose proof (recordsWhere_total outcomes) as Ht.
    rewrite Hc, <- Hp, <- He, He0 in Ht. lia. }
  split; [exact He0|].
  destruct (List.filter missingEmbedding (incidents_table w1)) as [|r' l] eqn:Ef;
    [reflexivity|].
  exfalso.
  assert (Hin' : In r' (List.filter missingEmbedding (incidents_table w1)))
    by (rewrite Ef; now left).
  apply filter_In in Hin' as [Hin' Hmiss].
  destruct (grows_In _ _ _ Hg Hin') as (r & Hin & Hid & Hkt & Hkd).
  assert (Ht : title_vector r' <> None).
  { destruct (title_vector r) eqn:Etv; [apply Hkt; discriminate|].
    assert (Hs : In r snapshot).
    { apply filter_In. split; [exact Hin|]. unfold missingEmbedding.
      now rewrite Etv. }
    destruct (Hemb r Hs) as [Het _]. now apply (Het Etv r' Hin'). }
  assert (Hd : description_vector r' <> None).
  { destruct (description_vector r) eqn:Edv; [apply Hkd; discriminate|].
    assert (Hs : In r snapshot).
    { apply filter_In. split; [exact Hin|]. unfold missingEmbedding.
      rewrite Edv. now destruct (title_vector r). }
    destruct (Hemb r Hs) as [_ Hed]. now apply (Hed Edv r' Hin'). }
  unfold missingEmbedding in Hmiss.
  destruct (title_vector r'); [|congruence].
  destruct (description_vector r'); [discriminate | congruence].
Qed.
End Backfill.

(** C2 (as amended): when every record has a non-blank title and a
    non-blank description, the database accepts every update and the
    provider (if one is configured) never answers with fewer embeddings than
    it was sent inputs, one backfill pass counts every record that missed a
    vector as processed, leaves no record without its two vectors, and a
    second pass right after it reports [processed = 0] and touches
    nothing. *)
Theorem backfill_second_pass_idle `{Runtime} (w : World) :
  (forall n incidentId, update_fault n incidentId = None) ->
  (forall api, openai = Some api -> answersInFull api) ->
  Forall embeddable (incidents_table w) ->
  exists c w1,
    processAllMissingEmbeddings w = (Returned c, w1)
    /\ processed c = length (List.filter missingEmbedding (incidents_table w))
    /\ errors c = 0%nat
    /\ processAllMissingEmbeddings w1
       = (Returned {| processed := 0; errors := 0 |}, w1).
Proof.
  intros Hdb Hfull Hall.
  destruct (backfill_completes Hdb Hfull w Hall) as (c & w1 & E & Hp & He & Hnone).
  exists c, w1. repeat split; try assumption.
  unfold processAllMissingEmbeddings. now rewrite Hnone.
Qed.

(** The amended claim on the server whose provider answers every input,
    for a table of three records without vectors. *)
Lemma backfill_second_pass_idle_witness :
  exists c w1,
    @processAllMissingEmbeddings remote_runtime (world_of (backlog 3 99))
    = (Returned c, w1)
    /\ processed c = 3%nat
    /\ errors c = 0%nat
    /\ @processAllMissingEmbeddings remote_runtime w1
       = (Returned {| processed := 0; errors := 0 |}, w1).
Proof.
  apply (@backfill_second_pass_idle remote_runtime (world_of (backlog 3 99))).
  - intros n incidentId. reflexivity.
  - intros api Ho. injection Ho as <-. exact constant_api_answersInFull.
  - repeat constructor; exists "Forced entry overnight"%string;
      split; reflexivity.
Defined.

(** C2 (as stated) fails: a record without a description never gets a
    description vector, so every pass finds it again and counts it as
    processed. *)
Lemma backfill_counts_record_without_description_again :
  let w0 := world_of [unembedded "inc-1" "Camden burglary" None] in
  let w1 := snd (@processAllMissingEmbeddings dev_runtime w0) in
  fst (@processAllMissingEmbeddings dev_runtime w0)
  = Returned {| processed := 1; errors := 0 |}
  /\ length (incidents_table w1) = 1%nat
  /\ fst (@processAllMissingEmbeddings dev_runtime w1)
     = Returned {| processed := 1; errors := 0 |}.
Proof. vm_compute. repeat split; reflexivity. Qed.

(** * Further properties of the code *)

Arguments MAX_INPUT : simpl never.
Arguments JS.substring : simpl never.

(** ** simpleHash *)

Lemma toInt32_range (z : Z) : - 2 ^ 31 <= JS.toInt32 z < 2 ^ 31.
Proof.
  unfold JS.toInt32.
  pose proof (Z.mod_pos_bound (z + 2 ^ 31) (2 ^ 32) ltac:(lia)). lia.
Qed.

Lemma toInt32_congr (a b : Z) :
  a mod 2 ^ 32 = b mod 2 ^ 32 -> JS.toInt32 a = JS.toInt32 b.
Proof.
  intros E. unfold JS.toInt32. f_equal.
  rewrite (Z.add_mod a), (Z.add_mod b) by lia. now rewrite E.
Qed.

Lemma toInt32_mod (z : Z) : JS.toInt32 z mod 2 ^ 32 = z mod 2 ^ 32.
Proof.
  unfold JS.toInt32.
  rewrite Zminus_mod, Zmod_mod, <- Zminus_mod. f_equal. lia.
Qed.

Lemma toInt32_idem (z : Z) : JS.toInt32 (JS.toInt32 z) = JS.toInt32 z.
Proof. apply toInt32_congr, toInt32_mod. Qed.

Lemma simpleHash_step_spec (hash : Z) (c : ascii) :
  simpleHash_step hash c = JS.toInt32 (31 * hash + JS.charCode c).
Proof.
  unfold simpleHash_step, JS.band, JS.shl.
  rewrite Z.land_diag, toInt32_idem, Z.shiftl_mul_pow2 by lia.
  apply toInt32_congr.
  rewrite Zplus_mod, Zminus_mod, toInt32_mod, Zmult_mod, toInt32_mod.
  rewrite <- Zmult_mod, <- Zminus_mod, <- Zplus_mod. f_equal. lia.
Qed.

Lemma hornerHash_congr (str : string) : forall a b,
  a mod 2 ^ 32 = b mod 2 ^ 32 ->
  hornerHash a str mod 2 ^ 32 = hornerHash b str mod 2 ^ 32.
Proof.
  induction str as [|c rest IH]; intros a b E; cbn [hornerHash]; [exact E|].
  apply IH.
  rewrite (Z.add_mod (31 * a)), (Z.add_mod (31 * b)) by lia.
  rewrite (Z.mul_mod 31 a), (Z.mul_mod 31 b) by lia. now rewrite E.
Qed.

Lemma simpleHash_loop_spec (str : string) : forall hash,
  JS.toInt32 (simpleHash_loop hash str) = JS.toInt32 (hornerHash hash str).
Proof.
  induction str as [|c rest IH]; intros hash;
    cbn [simpleHash_loop hornerHash]; [reflexivity|].
  rewrite IH, simpleHash_step_spec.
  apply toInt32_congr, hornerHash_congr, toInt32_mod.
Qed.

Lemma simpleHash_loop_int32 (str : string) : forall hash,
  - 2 ^ 31 <= hash < 2 ^ 31 ->
  - 2 ^ 31 <= simpleHash_loop hash str < 2 ^ 31.
Proof.
  induction str as [|c rest IH]; intros hash Hh; cbn [simpleHash_loop];
    [exact Hh|].
  apply IH. rewrite simpleHash_step_spec. apply toInt32_range.
Qed.

Lemma toInt32_small (z : Z) : - 2 ^ 31 <= z < 2 ^ 31 -> JS.toInt32 z = z.
Proof.
  intros Hz. unfold JS.toInt32. rewrite Z.mod_small; lia.
Qed.

(** X1: [simpleHash] is the absolute value of Java's [String.hashCode]: the
    polynomial of the code units with base 31, wrapped to a signed 32-bit
    integer; it lies between 0 and 2^31 inclusive. *)
Theorem simpleHash_is_wrapped_horner (str : string) :
  simpleHash str = Z.abs (JS.toInt32 (hornerHash 0 str))
  /\ 0 <= simpleHash str <= 2 ^ 31.
Proof.
  assert (E : simpleHash_loop 0 str = JS.toInt32 (hornerHash 0 str)).
  { rewrite <- simpleHash_loop_spec. symmetry. apply toInt32_small.
    apply simpleHash_loop_int32. lia. }
  unfold simpleHash. rewrite E. split; [reflexivity|].
  pose proof (toInt32_range (hornerHash 0 str)). lia.
Qed.

(** ** The cache key *)

Lemma lowerChar_idem (c : ascii) : JS.lowerChar (JS.lowerChar c) = JS.lowerChar c.
Proof. destruct c as [[] [] [] [] [] [] [] []]; reflexivity. Qed.

Lemma isWhiteSpace_lowerChar (c : ascii) :
  JS.isWhiteSpace (JS.lowerChar c) = JS.isWhiteSpace c.
Proof. destruct c as [[] [] [] [] [] [] [] []]; reflexivity. Qed.

Lemma toLowerCase_idem (s : string) :
  JS.toLowerCase (JS.toLowerCase s) = JS.toLowerCase s.
Proof.
  induction s as [|c s IH]; cbn [JS.toLowerCase]; [reflexivity|].
  now rewrite lowerChar_idem, IH.
Qed.

Lemma toLowerCase_trimStart (s : string) :
  JS.toLowerCase (JS.trimStart s) = JS.trimStart (JS.toLowerCase s).
Proof.
  induction s as [|c s IH]; cbn [JS.toLowerCase JS.trimStart]; [reflexivity|].
  rewrite isWhiteSpace_lowerChar. now destruct (JS.isWhiteSpace c).
Qed.

Lemma toLowerCase_rev_app (s1 : string) : forall s2,
  JS.toLowerCase (String.rev_app s1 s2)
  = String.rev_app (JS.toLowerCase s1) (JS.toLowerCase s2).
Proof.
  induction s1 as [|c s1 IH]; intros s2; cbn [String.rev_app JS.toLowerCase];
    [reflexivity|].
  now rewrite IH.
Qed.

Lemma toLowerCase_trim (s : string) :
  JS.toLowerCase (JS.trim s) = JS.trim (JS.toLowerCase s).
Proof.
  unfold JS.trim, JS.trimEnd, String.rev.
  rewrite toLowerCase_rev_app, toLowerCase_trimStart, toLowerCase_rev_app.
  now rewrite toLowerCase_trimStart.
Qed.

Lemma list_of_rev_app (s1 : string) : forall s2,
  list_ascii_of_string (String.rev_app s1 s2)
  = rev (list_ascii_of_string s1) ++ list_ascii_of_string s2.
Proof.
  induction s1 as [|c s1 IH]; intros s2;
    cbn [String.rev_app list_ascii_of_string rev]; [reflexivity|].
  rewrite IH. cbn [list_ascii_of_string]. now rewrite <- app_assoc.
Qed.

Lemma list_of_rev (s : string) :
  list_ascii_of_string (String.rev s) = rev (list_ascii_of_string s).
Proof. unfold String.rev. rewrite list_of_rev_app. apply app_nil_r. Qed.

Lemma list_of_trimStart (s : string) :
  list_ascii_of_string (JS.trimStart s)
  = dropWhiteSpace (list_ascii_of_string s).
Proof.
  induction s as [|c s IH];
    cbn [JS.trimStart list_ascii_of_string dropWhiteSpace]; [reflexivity|].
  now destruct (JS.isWhiteSpace c).
Qed.

Lemma list_of_trim (s : string) :
  list_ascii_of_string (JS.trim s)
  = rev (dropWhiteSpace (rev (dropWhiteSpace (list_ascii_of_string s)))).
Proof.
  unfold JS.trim, JS.trimEnd.
  now rewrite list_of_rev, list_of_trimStart, list_of_rev, list_of_trimStart.
Qed.

Lemma dropWhiteSpace_split (l : list ascii) :
  exists p, l = p ++ dropWhiteSpace l
            /\ Forall (fun c => JS.isWhiteSpace c = true) p.
Proof.
  induction l as [|c l (p & E & Hp)]; cbn [dropWhiteSpace].
  - exists []. now split.
  - destruct (JS.isWhiteSpace c) eqn:Hc.
    + exists (c :: p). split; [cbn; now f_equal | now constructor].
    + exists []. now split.
Qed.

Lemma dropWhiteSpace_head (l : list ascii) (c : ascii) (l' : list ascii) :
  dropWhiteSpace l = c :: l' -> JS.isWhiteSpace c = false.
Proof.
  induction l as [|x l IH]; cbn [dropWhiteSpace]; [discriminate|].
  destruct (JS.isWhiteSpace x) eqn:Hx; [exact IH|].
  intros E. injection E as <- _. exact Hx.
Qed.

Lemma dropWhiteSpace_fixed (l : list ascii) :
  match l with
  | [] => True
  | c :: _ => JS.isWhiteSpace c = false
  end ->
  dropWhiteSpace l = l.
Proof. destruct l as [|c l]; cbn [dropWhiteSpace]; [auto|]. now intros ->. Qed.

Lemma dropWhiteSpace_idem (l : list ascii) :
  dropWhiteSpace (dropWhiteSpace l) = dropWhiteSpace l.
Proof.
  apply dropWhiteSpace_fixed. destruct (dropWhiteSpace l) as [|c l'] eqn:E;
    [exact I|]. eapply dropWhiteSpace_head, E.
Qed.

(** Cutting white space off the end of a list that starts with none leaves
    a list that starts with none. *)
Lemma trimmed_end_starts_clean (y : list ascii) :
  dropWhiteSpace y = y ->
  dropWhiteSpace (rev (dropWhiteSpace (rev y)))
  = rev (dropWhiteSpace (rev y)).
Proof.
  intros Hy. apply dropWhiteSpace_fixed.
  destruct (dropWhiteSpace_split (rev y)) as (p & E & _).
  destruct (dropWhiteSpace (rev y)) as [|x m] eqn:Em; [exact I|].
  pose proof (dropWhiteSpace_head _ _ _ Em) as Hx.
  apply (f_equal (@rev ascii)) in E.
  rewrite rev_involutive, rev_app_distr in E. cbn [rev] in *.
  destruct (rev m) as [|h t] eqn:Er; cbn [app] in *; [exact Hx|].
  rewrite E in Hy. cbn [app dropWhiteSpace] in Hy.
  destruct (JS.isWhiteSpace h) eqn:Hh; [|reflexivity].
  exfalso.
  pose proof (dropWhiteSpace_split ((t ++ [x]) ++ rev p)) as (q & Eq & _).
  rewrite Hy in Eq. apply (f_equal (@length ascii)) in Eq.
  rewrite !length_app in Eq. cbn [length] in Eq.
  rewrite !length_app in Eq. cbn [length] in Eq. lia.
Qed.

Lemma trim_idem (s : string) : JS.trim (JS.trim s) = JS.trim s.
Proof.
  rewrite <- (string_of_list_ascii_of_string (JS.trim (JS.trim s))).
  rewrite <- (string_of_list_ascii_of_string (JS.trim s)) at 2.
  f_equal. rewrite list_of_trim.
  rewrite list_of_trim.
  set (y := dropWhiteSpace (list_ascii_of_string s)).
  assert (Hy : dropWhiteSpace y = y) by apply dropWhiteSpace_idem.
  rewrite (trimmed_end_starts_clean y Hy), rev_involutive.
  now rewrite dropWhiteSpace_idem.
Qed.

(** X2: the cache key ignores case and surrounding white space: a text, its
    lowercased form and its trimmed form have the same key; and a text is
    non-blank exactly when its trimmed form is. *)
Theorem createCacheKey_normalises (text : string) :
  createCacheKey (JS.toLowerCase text) = createCacheKey text
  /\ createCacheKey (JS.trim text) = createCacheKey text
  /\ createCacheKey (JS.trim (JS.toLowerCase text)) = createCacheKey text
  /\ hasText (JS.trim text) = hasText text.
Proof.
  unfold createCacheKey. repeat split.
  - now rewrite toLowerCase_idem.
  - now rewrite toLowerCase_trim, trim_idem.
  - now rewrite toLowerCase_trim, toLowerCase_idem, trim_idem.
  - unfold hasText. rewrite trim_idem.
    destruct (JS.trim text) as [|c t] eqn:Et.
    + cbn. now rewrite andb_false_r.
    + destruct text; [discriminate Et | reflexivity].
Qed.

(** ** generateEmbedding *)

Lemma generateEmbedding_answered `{Runtime}
  (api : nat -> list string -> ApiResponse) (text : string) (w : World)
  (v : Vector) (others : list Vector) :
  openai = Some api ->
  hasText text = true ->
  embeddingCache w !! createCacheKey text = None ->
  api (api_requests w) [JS.substring text 0 MAX_INPUT] = ApiData (v :: others) ->
  generateEmbedding text w
  = (Returned (Some v), with_entry (createCacheKey text) v (count_request w)).
Proof.
  intros Ho Ht Hmiss Hapi. unfold generateEmbedding. rewrite Ht. cbn [negb].
  rewrite Hmiss, Ho. unfold try_catch, bind, embeddings_create.
  rewrite Hapi. reflexivity.
Qed.

Lemma generateEmbedding_unanswered `{Runtime}
  (api : nat -> list string -> ApiResponse) (text : string) (w : World) :
  openai = Some api ->
  hasText text = true ->
  embeddingCache w !! createCacheKey text = None ->
  (exists e, api (api_requests w) [JS.substring text 0 MAX_INPUT] = ApiRejects e)
  \/ api (api_requests w) [JS.substring text 0 MAX_INPUT] = ApiData [] ->
  generateEmbedding text w
  = (Returned (Some (mockVector (simpleHash text))),
     count_mock (count_request w)).
Proof.
  intros Ho Ht Hmiss Hapi. unfold generateEmbedding. rewrite Ht. cbn [negb].
  rewrite Hmiss, Ho. unfold try_catch, bind, embeddings_create.
  destruct Hapi as [[e ->] | ->]; reflexivity.
Qed.

(** X3: [generateEmbedding] never throws, whatever the provider does; it
    answers [null] exactly for the empty and whitespace-only texts, and then
    without any call or state change; it never touches the incidents
    table. *)
Theorem generateEmbedding_total `{Runtime} (text : string) (w : World) :
  exists r w',
    generateEmbedding text w = (Returned r, w')
    /\ (r = None <-> hasText text = false)
    /\ (hasText text = false -> w' = w)
    /\ incidents_table w' = incidents_table w.
Proof.
  unfold generateEmbedding. destruct (hasText text) eqn:Ht; cbn [negb].
  - destruct (embeddingCache w !! createCacheKey text) as [cached|] eqn:Hc.
    + exists (Some cached), w. repeat split; try discriminate; auto.
    + unfold try_catch. destruct openai as [api|].
      * unfold bind, embeddings_create.
        destruct (api _ _) as [e|[|v others]];
          cbn [mock generateMockEmbedding throw ret cache_set];
          eexists _, _; (split; [reflexivity|]);
          repeat split; try discriminate; auto.
      * cbn [mock generateMockEmbedding].
        eexists _, _; (split; [reflexivity|]);
          repeat split; try discriminate; auto.
  - exists None, w. unfold ret. repeat split; auto.
Qed.

(** X4: a vector produced because the provider failed (it rejected the
    request, or answered with no embedding) is not cached: the call returns
    the fallback vector of the whole text, the cache is as before, and the
    next request for the same text is sent to the provider again. *)
Theorem provider_failure_not_cached `{Runtime}
  (api : nat -> list string -> ApiResponse) (text : string) (w : World) :
  openai = Some api ->
  hasText text = true ->
  embeddingCache w !! createCacheKey text = None ->
  (exists e, api (api_requests w) [JS.substring text 0 MAX_INPUT] = ApiRejects e)
  \/ api (api_requests w) [JS.substring text 0 MAX_INPUT] = ApiData [] ->
  exists w1,
    generateEmbedding text w
    = (Returned (Some (mockVector (simpleHash text))), w1)
    /\ embeddingCache w1 = embeddingCache w
    /\ api_requests w1 = S (api_requests w)
    /\ mock_calls w1 = S (mock_calls w)
    /\ api_requests (snd (generateEmbedding text w1)) = S (S (api_requests w)).
Proof.
  intros Ho Ht Hmiss Hapi. eexists. split.
  - eapply generateEmbedding_unanswered; eassumption.
  - cbn [count_mock count_request embeddingCache api_requests mock_calls].
    repeat split.
    unfold generateEmbedding. rewrite Ht.
    cbn [negb embeddingCache count_mock count_request].
    rewrite Hmiss, Ho. unfold try_catch, bind, embeddings_create.
    clear Hapi. cbn [api_requests].
    destruct (api _ _) as [e|[|v others]]; reflexivity.
Qed.

Lemma provider_failure_not_cached_witness :
  exists w1,
    @generateEmbedding offline_runtime "Camden burglary" (world_of [])
    = (Returned (Some (@mockVector offline_runtime
                         (simpleHash "Camden burglary"))), w1)
    /\ embeddingCache w1 = embeddingCache (world_of [])
    /\ api_requests w1 = 1%nat
    /\ mock_calls w1 = 1%nat
    /\ api_requests
         (snd (@generateEmbedding offline_runtime "Camden burglary" w1))
       = 2%nat.
Proof.
  apply (@provider_failure_not_cached offline_runtime rejecting_api
           "Camden burglary" (world_of [])).
  - reflexivity.
  - vm_compute. reflexivity.
  - reflexivity.
  - left. exists "503 Service Unavailable"%string. reflexivity.
Defined.

(** X5: the cache is keyed by the 32-bit hash alone.  Once the provider's
    vector for one text is cached, a request for any other non-blank text
    whose lowercased, trimmed form has the same hash is answered with that
    vector, and neither the provider nor the fallback generator is asked. *)
Theorem colliding_text_served_other_vector `{Runtime}
  (api : nat -> list string -> ApiResponse) (t1 t2 : string) (w : World)
  (v : Vector) (others : list Vector) :
  openai = Some api ->
  hasText t1 = true ->
  hasText t2 = true ->
  simpleHash (JS.trim (JS.toLowerCase t2))
  = simpleHash (JS.trim (JS.toLowerCase t1)) ->
  embeddingCache w !! createCacheKey t1 = None ->
  api (api_requests w) [JS.substring t1 0 MAX_INPUT] = ApiData (v :: others) ->
  exists w1,
    generateEmbedding t1 w = (Returned (Some v), w1)
    /\ generateEmbedding t2 w1 = (Returned (Some v), w1).
Proof.
  intros Ho Ht1 Ht2 Hhash Hmiss Hapi. eexists. split.
  - eapply generateEmbedding_answered; eassumption.
  - apply generateEmbedding_hit; [exact Ht2|].
    unfold createCacheKey. rewrite Hhash.
    cbn [with_entry embeddingCache]. apply lookup_insert_eq.
Qed.

Lemma colliding_text_served_other_vector_witness :
  "a~"%string <> "b_"%string
  /\ exists w1,
      @generateEmbedding remote_runtime "a~" (world_of [])
      = (Returned (Some [1; 0; 0]%float), w1)
      /\ @generateEmbedding remote_runtime "b_" w1
         = (Returned (Some [1; 0; 0]%float), w1).
Proof.
  split; [discriminate|].
  apply (@colliding_text_served_other_vector remote_runtime constant_api
           "a~" "b_" (world_of []) [1; 0; 0]%float []);
    vm_compute; reflexivity.
Defined.

(** ** clearCache and getCacheStats *)

(** X6: [clearCache] empties the cache and nothing else: the statistics
    read zero entries and zero bytes, the incidents table and its stored
    vectors are as before, and a text that was served from the cache is sent
    to the provider again. *)
Theorem clearCache_forgets_only_the_cache `{Runtime}
  (api : nat -> list string -> ApiResponse) (text : string) (w : World)
  (cached : Vector) :
  openai = Some api ->
  hasText text = true ->
  embeddingCache w !! createCacheKey text = Some cached ->
  exists w1,
    clearCache w = (Returned tt, w1)
    /\ getCacheStats w1 = {| cache_size := 0; memoryUsage := 0 |}
    /\ incidents_table w1 = incidents_table w
    /\ api_requests (snd (generateEmbedding text w)) = api_requests w
    /\ api_requests (snd (generateEmbedding text w1)) = S (api_requests w).
Proof.
  intros Ho Ht Hc. eexists. split; [reflexivity|].
  split; [reflexivity|]. split; [reflexivity|]. split.
  - now rewrite (generateEmbedding_hit text w cached).
  - unfold generateEmbedding. rewrite Ht. cbn [negb embeddingCache].
    rewrite lookup_empty, Ho. unfold try_catch, bind, embeddings_create.
    cbn [api_requests].
    destruct (api _ _) as [e|[|v others]]; reflexivity.
Qed.

Lemma clearCache_forgets_only_the_cache_witness :
  let w := with_entry (createCacheKey "Camden burglary") [0; 1; 0]%float
                      (world_of recent_store) in
  exists w1,
    clearCache w = (Returned tt, w1)
    /\ getCacheStats w1 = {| cache_size := 0; memoryUsage := 0 |}
    /\ incidents_table w1 = incidents_table w
    /\ api_requests (snd (@generateEmbedding remote_runtime "Camden burglary" w))
       = api_requests w
    /\ api_requests (snd (@generateEmbedding remote_runtime "Camden burglary" w1))
       = S (api_requests w).
Proof.
  cbv zeta.
  apply (@clearCache_forgets_only_the_cache remote_runtime constant_api
           "Camden burglary" _ [0; 1; 0]%float).
  - reflexivity.
  - vm_compute. reflexivity.
  - apply lookup_insert_eq.
Defined.

(** ** generateBatchEmbeddings: which slot gets which vector *)

Lemma scanCache_closed (cache : gmap string Vector) (texts : list string) :
  forall index pre post unc,
    length pre = index ->
    scanCache cache index texts
              (pre ++ replicate (length texts) None ++ post) unc
    = (pre ++ map (fun t => cache !! createCacheKey t) texts ++ post,
       unc ++ misses cache index texts).
Proof.
  induction texts as [|text rest IH]; intros index pre post unc Hpre;
    cbn [scanCache misses length replicate map app].
  - now rewrite app_nil_r.
  - destruct (cache !! createCacheKey text) as [cached|] eqn:Hc.
    + rewrite insert_app_r_alt by lia.
      replace (index - length pre)%nat with 0%nat by lia.
      cbn [insert list_insert].
      rewrite (cons_middle (Some cached) pre), app_assoc.
      rewrite IH by (rewrite length_app; cbn; lia).
      now rewrite <- app_assoc.
    + rewrite (cons_middle None pre), app_assoc.
      rewrite IH by (rewrite length_app; cbn; lia).
      now rewrite <- !app_assoc.
Qed.

Lemma beginBatch_closed (texts : list string) (w : World) :
  beginBatch texts w
  = let valid := List.filter hasText texts in
    if (length valid =? 0)%nat then None
    else Some {| validTexts := valid;
                 results := map (fun t => embeddingCache w !! createCacheKey t)
                                valid;
                 uncached := misses (embeddingCache w) 0 valid |}.
Proof.
  unfold beginBatch. cbv zeta.
  destruct (length (List.filter hasText texts) =? 0)%nat; [reflexivity|].
  pose proof (scanCache_closed (embeddingCache w) (List.filter hasText texts)
                0 [] [] [] eq_refl) as E.
  cbn [app] in E. rewrite !app_nil_r in E. now rewrite E.
Qed.

Lemma misses_In (cache : gmap string Vector) (texts : list string) :
  forall index i t,
    In (i, t) (misses cache index texts) <->
    exists text, (index <= i)%nat
                 /\ texts !! (i - index)%nat = Some text
                 /\ embeddingCache_miss cache text
                 /\ t = JS.substring text 0 MAX_INPUT.
Proof.
  unfold embeddingCache_miss.
  induction texts as [|text rest IH]; intros index i t; cbn [misses].
  - split; [intros [] | intros (text & _ & E & _); discriminate].
  - assert (Hshift : forall text',
               (S index <= i)%nat ->
               rest !! (i - S index)%nat = Some text'
               <-> (text :: rest) !! (i - index)%nat = Some text').
    { intros text' Hle. replace (i - index)%nat with (S (i - S index)) by lia.
      reflexivity. }
    destruct (cache !! createCacheKey text) as [cached|] eqn:Hc.
    + rewrite IH. split.
      * intros (text' & Hle & Hl & Hm & ->). exists text'.
        split; [lia|]. split; [now apply Hshift|]. now split.
      * intros (text' & Hle & Hl & Hm & ->).
        destruct (decide (i = index)) as [->|Hne].
        -- rewrite Nat.sub_diag in Hl. cbn in Hl. injection Hl as <-.
           congruence.
        -- exists text'. split; [lia|]. split; [apply Hshift; [lia|exact Hl]|].
           now split.
    + cbn [In]. rewrite IH. split.
      * intros [E | (text' & Hle & Hl & Hm & ->)].
        -- injection E as <- <-. exists text. rewrite Nat.sub_diag.
           repeat split; auto.
        -- exists text'. split; [lia|]. split; [now apply Hshift|]. now split.
      * intros (text' & Hle & Hl & Hm & ->).
        destruct (decide (i = index)) as [->|Hne].
        -- rewrite Nat.sub_diag in Hl. cbn in Hl. injection Hl as <-. now left.
        -- right. exists text'. split; [lia|].
           split; [apply Hshift; [lia|exact Hl]|]. now split.
Qed.

Lemma misses_NoDup (cache : gmap string Vector) (texts : list string) :
  forall index, List.NoDup (map fst (misses cache index texts)).
Proof.
  induction texts as [|text rest IH]; intros index; cbn [misses].
  - constructor.
  - destruct (cache !! createCacheKey text); [apply IH|].
    cbn [map fst]. constructor; [|apply IH].
    intros Hin. apply in_map_iff in Hin as ([i t] & Hi & Hin).
    cbn [fst] in Hi. subst i. apply misses_In in Hin as (? & Hle & _). lia.
Qed.

Lemma storeResponse_frame valid bi data : forall j rs w k,
  ~ In k bi ->
  snd (fst (storeResponse valid bi j data rs w)) !! k = rs !! k.
Proof.
  induction data as [|e rest IH]; intros j rs w k Hk; cbn [storeResponse];
    [reflexivity|].
  destruct (bi !! j) as [oi|] eqn:Hbi; [|reflexivity].
  assert (Hne : oi <> k).
  { intros ->. apply Hk. apply list_elem_of_In.
    eapply list_elem_of_lookup_2, Hbi. }
  destruct (valid !! oi) as [text|]; cbn [cache_set fst snd].
  - rewrite IH by exact Hk. now apply list_lookup_insert_ne.
  - now apply list_lookup_insert_ne.
Qed.

Lemma In_slice_fst (unc : list (nat * string)) (i n k : nat) :
  In k (map fst (take n (drop i unc))) -> In k (map fst unc).
Proof.
  rewrite !in_map_iff. intros (x & E & Hin). exists x. split; [exact E|].
  apply list_elem_of_In. apply list_elem_of_In in Hin.
  eapply subseteq_drop, subseteq_take, Hin.
Qed.

Lemma remoteFill_frame api valid unc : forall fuel i rs w k,
  ~ In k (map fst unc) ->
  snd (fst (remoteFill fuel api valid unc i rs w)) !! k = rs !! k.
Proof.
  induction fuel as [|fuel IH]; intros i rs w k Hk; cbn [remoteFill];
    destruct (i <? length unc)%nat; try reflexivity.
  rewrite slice_from. unfold embeddings_create.
  destruct (api _ _) as [e|data]; [reflexivity|].
  match goal with
  | |- context [storeResponse ?v ?b ?j ?d ?r0 ?w0] =>
      pose proof (storeResponse_frame v b d j r0 w0 k) as Hs;
        destruct (storeResponse v b j d r0 w0) as [[r1 rs1] w2]
  end.
  cbn [fst snd] in Hs.
  assert (E : rs1 !! k = rs !! k).
  { apply Hs. intros Hin. apply Hk. eapply In_slice_fst, Hin. }
  destruct r1; cbn [fst snd]; try exact E.
  now rewrite IH.
Qed.

Lemma mockFill_frame `{Runtime} (unc : list (nat * string)) : forall rs w k,
  ~ In k (map fst unc) -> fst (mockFill unc rs w) !! k = rs !! k.
Proof.
  induction unc as [|[i t] rest IH]; intros rs w k Hk; cbn [mockFill];
    [reflexivity|].
  cbn [generateMockEmbedding]. cbn [map fst In] in Hk.
  rewrite IH by tauto. apply list_lookup_insert_ne. tauto.
Qed.

Lemma finishBatch_frame `{Runtime} (p : Pending) (w : World)
  (rs : list (option Vector)) (w' : World) (k : nat) :
  finishBatch p w = (Returned rs, w') ->
  ~ In k (map fst (uncached p)) ->
  rs !! k = results p !! k.
Proof.
  unfold finishBatch. intros E Hk.
  destruct (0 <? length (uncached p))%nat; [|now inversion E].
  destruct openai as [api|].
  - pose proof (remoteFill_frame api (validTexts p) (uncached p)
                  (length (uncached p)) 0 (results p) w k Hk) as Hr.
    destruct (remoteFill _ _ _ _ _ _ _) as [[r rs1] w1].
    cbn [fst snd] in Hr. destruct r as [u|e|].
    + inversion E; subst. exact Hr.
    + pose proof (mockFill_frame (uncached p) rs1 w1 k Hk) as Hm.
      destruct (mockFill _ _ _) as [rs2 w2]. cbn [fst] in Hm.
      inversion E; subst. congruence.
    + discriminate.
  - pose proof (mockFill_frame (uncached p) (results p) w k Hk) as Hm.
    destruct (mockFill _ _ _) as [rs2 w2]. cbn [fst] in Hm.
    now inversion E; subst.
Qed.

Lemma misses_hole (cache : gmap string Vector) (valid : list string) (k : nat) :
  hole (map (fun t => cache !! createCacheKey t) valid) k ->
  In k (map fst (misses cache 0 valid)).
Proof.
  unfold hole. intros Hk. rewrite list_lookup_fmap_Some in Hk.
  destruct Hk as (text & Hm & Hl).
  apply in_map_iff. exists (k, JS.substring text 0 MAX_INPUT).
  split; [reflexivity|]. apply misses_In. exists text.
  rewrite Nat.sub_0_r. split; [lia|]. split; [exact Hl|].
  split; [symmetry; exact Hm | reflexivity].
Qed.

Lemma generateBatchEmbeddings_closed `{Runtime} (texts : list string)
  (w : World) :
  generateBatchEmbeddings texts w
  = let valid := List.filter hasText texts in
    if (length valid =? 0)%nat then (Returned [], w)
    else finishBatch
           {| validTexts := valid;
              results := map (fun t => embeddingCache w !! createCacheKey t)
                             valid;
              uncached := misses (embeddingCache w) 0 valid |} w.
Proof.
  unfold generateBatchEmbeddings. rewrite beginBatch_closed. cbv zeta.
  now destruct (length (List.filter hasText texts) =? 0)%nat.
Qed.

(** X7: whatever the provider does, a text that is in the cache when
    [generateBatchEmbeddings] is called gets its cached vector, in the slot
    of its position among the non-blank texts; and when every non-blank text
    is in the cache the call changes nothing: no request, no fallback, no
    cache write. *)
Theorem cached_texts_keep_their_vectors `{Runtime} (texts : list string)
  (w : World) :
  exists rs w',
    generateBatchEmbeddings texts w = (Returned rs, w')
    /\ (forall k text v,
          List.filter hasText texts !! k = Some text ->
          embeddingCache w !! createCacheKey text = Some v ->
          rs !! k = Some (Some v))
    /\ ((forall text, In text texts -> hasText text = true ->
                      embeddingCache w !! createCacheKey text <> None) ->
        w' = w).
Proof.
  rewrite generateBatchEmbeddings_closed. cbv zeta.
  set (valid := List.filter hasText texts).
  destruct (length valid =? 0)%nat eqn:Hn.
  - exists [], w. split; [reflexivity|]. split; [|reflexivity].
    apply Nat.eqb_eq in Hn. destruct valid; [|discriminate].
    intros k text v Hk. rewrite lookup_nil in Hk. discriminate.
  - set (p := {| validTexts := valid;
                 results := map (fun t => embeddingCache w !! createCacheKey t)
                                valid;
                 uncached := misses (embeddingCache w) 0 valid |}).
    destruct (finishBatch_spec p w) as (rs & w' & E & Hl & _).
    { intros k Hk. now apply misses_hole. }
    exists rs, w'. split; [exact E|]. split.
    + intros k text v Hk Hc.
      rewrite (finishBatch_frame p w rs w' k E).
      * cbn [results p]. rewrite list_lookup_fmap, Hk. cbn. now rewrite Hc.
      * cbn [uncached p]. intros Hin.
        apply in_map_iff in Hin as ([i t] & Hi & Hin). cbn [fst] in Hi.
        subst i. apply misses_In in Hin as (text' & _ & Hl' & Hm & _).
        rewrite Nat.sub_0_r in Hl'. unfold embeddingCache_miss in Hm.
        congruence.
    + intros Hall.
      assert (Hnone : misses (embeddingCache w) 0 valid = []).
      { destruct (misses (embeddingCache w) 0 valid) as [|[i t] l] eqn:Em;
          [reflexivity|].
        exfalso.
        assert (Hin : In (i, t) (misses (embeddingCache w) 0 valid))
          by (rewrite Em; now left).
        apply misses_In in Hin as (text & _ & Hl' & Hm & _).
        apply list_elem_of_lookup_2, list_elem_of_In in Hl'.
        apply filter_In in Hl' as [Hin Ht]. exact (Hall text Hin Ht Hm). }
      unfold finishBatch in E. cbn [uncached p] in E. rewrite Hnone in E.
      cbn in E. now inversion E.
Qed.

Section EmbedsEach.
Context `{Runtime}.
Variable f : string -> Vector.
Variable api : nat -> list string -> ApiResponse.
Hypothesis api_embeds_each : embedsEach f api.

Lemma storeResponse_each (valid : list string) (suffix : list (nat * string)) :
  forall pre rs w,
    (forall i t, In (i, t) suffix ->
                 (i < length valid)%nat /\ (i < length rs)%nat) ->
    List.NoDup (map fst suffix) ->
    exists rs' w',
      storeResponse valid (map fst (pre ++ suffix)) (length pre)
                    (map f (map snd suffix)) rs w
      = (Returned tt, rs', w')
      /\ length rs' = length rs
      /\ (forall i t, In (i, t) suffix -> rs' !! i = Some (Some (f t)))
      /\ (forall k, ~ In k (map fst suffix) -> rs' !! k = rs !! k)
      /\ incidents_table w' = incidents_table w.
Proof.
  induction suffix as [|[i t] rest IH]; intros pre rs w Hin Hnd;
    cbn [map snd fst storeResponse].
  - exists rs, w. repeat split; auto. intros i t [].
  - assert (Hbi : map fst (pre ++ (i, t) :: rest) !! length pre = Some i).
    { rewrite map_app. cbn [map fst].
      apply list_lookup_middle. now rewrite length_map. }
    rewrite Hbi.
    destruct (Hin i t (or_introl eq_refl)) as [Hiv Hir].
    destruct (lookup_lt_is_Some_2 valid i Hiv) as [text Htext].
    rewrite Htext. cbn [cache_set].
    inversion Hnd as [|? ? Hnotin Hnd']; subst.
    match goal with
    | |- context [storeResponse valid _ _ _ ?r0 ?w0] =>
        destruct (IH (pre ++ [(i, t)]) r0 w0) as (rs' & w' & E & Hl & He & Hf & Ht)
    end.
    { intros i' t' Hin'. rewrite length_insert. apply (Hin i' t'). now right. }
    { exact Hnd'. }
    rewrite length_app in E. cbn [length] in E.
    rewrite Nat.add_1_r, <- app_assoc in E. cbn [app] in E.
    exists rs', w'. split; [exact E|].
    split; [now rewrite Hl, length_insert|]. split; [|split].
    + intros i' t' [Eq|Hin'].
      * injection Eq as <- <-. rewrite Hf by exact Hnotin.
        now apply list_lookup_insert_eq.
      * now apply He.
    + intros k Hk. cbn [In] in Hk. rewrite Hf by tauto.
      apply list_lookup_insert_ne. tauto.
    + exact Ht.
Qed.

Lemma remoteFill_each (valid : list string) (unc : list (nat * string)) :
  List.NoDup (map fst unc) ->
  forall fuel i rs w,
    (length unc <= i + fuel)%nat ->
    (forall k t, In (k, t) unc ->
                 (k < length valid)%nat /\ (k < length rs)%nat) ->
    exists rs' w',
      remoteFill fuel api valid unc i rs w = (Returned tt, rs', w')
      /\ length rs' = length rs
      /\ (forall k t, In (k, t) (drop i unc) -> rs' !! k = Some (Some (f t)))
      /\ (forall k, ~ In k (map fst (drop i unc)) -> rs' !! k = rs !! k).
Proof.
  intros Hnd. induction fuel as [|fuel IH]; intros i rs w Hfuel Hin;
    cbn [remoteFill]; destruct (i <? length unc)%nat eqn:Hlt;
    try (apply Nat.ltb_lt in Hlt; lia).
  - apply Nat.ltb_ge in Hlt. exists rs, w. rewrite drop_ge by lia.
    repeat split; auto. intros k t [].
  - rewrite slice_from. unfold embeddings_create.
    rewrite api_embeds_each.
    set (chunk := take API_BATCH (drop i unc)).
    assert (Hsplit : drop i unc = chunk ++ drop (i + API_BATCH) unc).
    { unfold chunk. rewrite <- drop_drop. symmetry. apply take_drop. }
    assert (Hnd_i : List.NoDup (map fst (drop i unc))).
    { rewrite <- (take_drop i unc), map_app in Hnd.
      now apply NoDup_app_remove_l in Hnd. }
    rewrite Hsplit, map_app in Hnd_i.
    assert (Hchunk_in : forall k t, In (k, t) chunk -> In (k, t) unc).
    { intros k t Hk. apply list_elem_of_In. apply list_elem_of_In in Hk.
      eapply subseteq_drop, subseteq_take, Hk. }
    destruct (storeResponse_each valid chunk [] rs
                {| embeddingCache := embeddingCache w;
                   incidents_table := incidents_table w;
                   api_requests := S (api_requests w);
                   mock_calls := mock_calls w;
                   updates_sent := updates_sent w |})
      as (rs1 & w1 & E & Hl & He & Hf & _).
    { intros k t Hk. apply (Hin k t). now apply Hchunk_in. }
    { now apply NoDup_app_remove_r in Hnd_i. }
    cbn [app length] in E. rewrite E.
    destruct (IH (i + API_BATCH)%nat rs1 w1) as (rs' & w' & E' & Hl' & He' & Hf').
    { unfold API_BATCH. lia. }
    { intros k t Hk. rewrite Hl. now apply (Hin k t). }
    exists rs', w'. split; [exact E'|]. split; [congruence|]. split.
    + intros k t Hk. rewrite Hsplit in Hk. apply in_app_iff in Hk as [Hk|Hk].
      * rewrite Hf'; [now apply (He k t)|].
        intros Hlater. apply NoDup_ListNoDup in Hnd_i.
        apply NoDup_app in Hnd_i as (_ & Hdisj & _).
        apply (Hdisj k); apply list_elem_of_In; [|exact Hlater].
        apply in_map_iff. now exists (k, t).
      * now apply He'.
    + intros k Hk. rewrite Hsplit, map_app, in_app_iff in Hk.
      rewrite Hf' by tauto. apply Hf. tauto.
  - apply Nat.ltb_ge in Hlt. exists rs, w. rewrite drop_ge by lia.
    repeat split; auto. intros k t [].
Qed.
End EmbedsEach.

Lemma slots_of_each_text (cache : gmap string Vector) (f : string -> Vector)
  (valid : list string) (rs' : list (option Vector)) :
  length rs' = length valid ->
  (forall k t, In (k, t) (misses cache 0 valid) -> rs' !! k = Some (Some (f t))) ->
  (forall k, ~ In k (map fst (misses cache 0 valid)) ->
             rs' !! k = map (fun t => cache !! createCacheKey t) valid !! k) ->
  rs' = map (fun text =>
               Some match cache !! createCacheKey text with
                    | Some v => v
                    | None => f (JS.substring text 0 MAX_INPUT)
                    end) valid.
Proof.
  intros Hlen Hmiss Hframe. apply list_eq. intros k.
  rewrite list_lookup_fmap.
  destruct (valid !! k) as [text|] eqn:Hk; cbn.
  - destruct (cache !! createCacheKey text) as [v|] eqn:Hc.
    + rewrite Hframe.
      * rewrite list_lookup_fmap, Hk. cbn. now rewrite Hc.
      * intros Hin. apply in_map_iff in Hin as ([i t] & Hi & Hin).
        cbn [fst] in Hi. subst i.
        apply misses_In in Hin as (text' & _ & Hl' & Hm & _).
        rewrite Nat.sub_0_r in Hl'. unfold embeddingCache_miss in Hm.
        congruence.
    + apply Hmiss. apply misses_In. exists text. rewrite Nat.sub_0_r.
      repeat split; auto. lia.
  - apply lookup_ge_None_2. apply lookup_ge_None_1 in Hk. lia.
Qed.

Lemma generateBatchEmbeddings_each `{Runtime} (f : string -> Vector)
  (api : nat -> list string -> ApiResponse) (texts : list string) (w : World) :
  openai = Some api ->
  embedsEach f api ->
  fst (generateBatchEmbeddings texts w)
  = Returned
      (map (fun text =>
              Some match embeddingCache w !! createCacheKey text with
                   | Some v => v
                   | None => f (JS.substring text 0 MAX_INPUT)
                   end)
           (List.filter hasText texts)).
Proof.
  intros Ho Hf. rewrite generateBatchEmbeddings_closed. cbv zeta.
  set (valid := List.filter hasText texts).
  set (cache := embeddingCache w).
  destruct (length valid =? 0)%nat eqn:Hn.
  - apply Nat.eqb_eq in Hn. now destruct valid.
  - unfold finishBatch. cbn [uncached results validTexts]. rewrite Ho.
    destruct (0 <? length (misses cache 0 valid))%nat eqn:Hpos.
    + destruct (remoteFill_each f api Hf valid (misses cache 0 valid)
                  (misses_NoDup cache valid 0)
                  (length (misses cache 0 valid)) 0
                  (map (fun t => cache !! createCacheKey t) valid) w)
        as (rs' & w' & E & Hl & He & Hfr); [lia| |].
      { intros k t Hk. apply misses_In in Hk as (text & _ & Hl' & _).
        rewrite Nat.sub_0_r in Hl'. apply lookup_lt_Some in Hl'.
        now rewrite length_map. }
      rewrite E. cbn [fst]. f_equal. rewrite drop_0 in He, Hfr.
      apply slots_of_each_text; [now rewrite Hl, length_map | exact He | exact Hfr].
    + cbn [fst]. f_equal. apply Nat.ltb_ge in Hpos.
      destruct (misses cache 0 valid) eqn:Em; [|cbn in Hpos; lia].
      apply slots_of_each_text; rewrite ?Em.
      * apply length_map.
      * intros k t [].
      * reflexivity.
Qed.

(** X8: with a provider that embeds each input on its own, the batch call
    returns, for the non-blank texts in their order, the cached vector of a
    text that is in the cache and otherwise the provider's vector for the
    text cut to 8191 characters: the chunks of 100 are put back in the
    original order, whatever the number of texts. *)
Theorem batch_embeds_each_text `{Runtime} (f : string -> Vector)
  (api : nat -> list string -> ApiResponse) (texts : list string) (w : World) :
  openai = Some api ->
  embedsEach f api ->
  fst (generateBatchEmbeddings texts w)
  = Returned
      (map (fun text =>
              Some match embeddingCache w !! createCacheKey text with
                   | Some v => v
                   | None => f (JS.substring text 0 MAX_INPUT)
                   end)
           (List.filter hasText texts)).
Proof. apply generateBatchEmbeddings_each. Qed.

Lemma batch_embeds_each_text_witness :
  fst (@generateBatchEmbeddings length_runtime
         ["Camden"; "   "; "burglary near the station"; ""; "ok"]
         (with_entry (createCacheKey "OK") [0; 1]%float (world_of [])))
  = Returned [Some [6]%float; Some [25]%float; Some [0; 1]%float].
Proof.
  rewrite (@batch_embeds_each_text length_runtime length_vector length_api);
    [|reflexivity|intros n input; reflexivity].
  vm_compute. reflexivity.
Defined.

(** ** The cache only grows *)

Section CacheKept.
Context `{Runtime}.
Variable key : string.

Local Abbreviation fresh := (freshKey key).

Lemma storeResponse_cache valid bi data : forall j rs w,
  fresh valid bi ->
  embeddingCache (snd (storeResponse valid bi j data rs w)) !! key
  = embeddingCache w !! key.
Proof.
  induction data as [|e rest IH]; intros j rs w Hfresh; cbn [storeResponse];
    [reflexivity|].
  destruct (bi !! j) as [oi|] eqn:Hbi; [|reflexivity].
  destruct (valid !! oi) as [text|] eqn:Hv; [|reflexivity].
  cbn [cache_set]. rewrite IH by exact Hfresh. cbn [embeddingCache].
  apply lookup_insert_ne. apply (Hfresh oi text); [|exact Hv].
  apply list_elem_of_In. eapply list_elem_of_lookup_2, Hbi.
Qed.

Lemma remoteFill_cache api valid unc : forall fuel i rs w,
  fresh valid (map fst unc) ->
  embeddingCache (snd (remoteFill fuel api valid unc i rs w)) !! key
  = embeddingCache w !! key.
Proof.
  induction fuel as [|fuel IH]; intros i rs w Hfresh; cbn [remoteFill];
    destruct (i <? length unc)%nat; try reflexivity.
  rewrite slice_from. unfold embeddings_create.
  destruct (api _ _) as [e|data]; [reflexivity|].
  match goal with
  | |- context [storeResponse ?v ?b ?j ?d ?r0 ?w0] =>
      pose proof (storeResponse_cache v b d j r0 w0) as Hs;
        destruct (storeResponse v b j d r0 w0) as [[r1 rs1] w2]
  end.
  cbn [snd embeddingCache] in Hs.
  assert (E : embeddingCache w2 !! key = embeddingCache w !! key).
  { apply Hs. intros oi text Hin. apply Hfresh. eapply In_slice_fst, Hin. }
  destruct r1; cbn [snd]; try exact E.
  now rewrite IH.
Qed.

Lemma mockFill_cache (unc : list (nat * string)) : forall rs w,
  embeddingCache (snd (mockFill unc rs w)) = embeddingCache w.
Proof.
  induction unc as [|[i t] rest IH]; intros rs w; cbn [mockFill];
    [reflexivity|].
  cbn [generateMockEmbedding]. now rewrite IH.
Qed.

Lemma finishBatch_cache (p : Pending) (w : World) :
  fresh (validTexts p) (map fst (uncached p)) ->
  embeddingCache (snd (finishBatch p w)) !! key = embeddingCache w !! key.
Proof.
  intros Hfresh. unfold finishBatch.
  destruct (0 <? length (uncached p))%nat; [|reflexivity].
  destruct openai as [api|].
  - pose proof (remoteFill_cache api (validTexts p) (uncached p)
                  (length (uncached p)) 0 (results p) w Hfresh) as Hr.
    destruct (remoteFill _ _ _ _ _ _ _) as [[r rs1] w1].
    cbn [snd] in Hr. destruct r; cbn [snd]; try exact Hr.
    pose proof (mockFill_cache (uncached p) rs1 w1) as Hm.
    destruct (mockFill _ _ _) as [rs2 w2]. cbn [snd] in *. congruence.
  - pose proof (mockFill_cache (uncached p) (results p) w) as Hm.
    destruct (mockFill _ _ _) as [rs2 w2]. cbn [snd] in *. congruence.
Qed.

Lemma misses_fresh (cache : gmap string Vector) (valid : list string) :
  cache !! key <> None -> fresh valid (map fst (misses cache 0 valid)).
Proof.
  intros Hkey i text Hin Hv Ek.
  apply in_map_iff in Hin as ([i' t] & Hi & Hin). cbn [fst] in Hi. subst i'.
  apply misses_In in Hin as (text' & _ & Hl & Hm & _).
  rewrite Nat.sub_0_r in Hl. unfold embeddingCache_miss in Hm.
  assert (text' = text) by congruence. subst. congruence.
Qed.

Lemma resume_cache (go : bool) (texts : list string) (w0 w : World) :
  embeddingCache w0 !! key <> None ->
  embeddingCache
    (snd (resume (if go then beginBatch texts w0 else None) w)) !! key
  = embeddingCache w !! key.
Proof.
  intros Hkey. destruct go; [|reflexivity].
  rewrite beginBatch_closed. cbv zeta.
  destruct (length (List.filter hasText texts) =? 0)%nat; [reflexivity|].
  cbn [resume]. apply finishBatch_cache. cbn [validTexts uncached].
  now apply misses_fresh.
Qed.

Lemma pushUpdates_cache (field : Vector -> Patch)
  (embeddings : list (option Vector)) (needs : list Incident) :
  forall index w,
    embeddingCache (snd (pushUpdates field embeddings index needs w))
    = embeddingCache w.
Proof.
  induction needs as [|incident rest IH]; intros index w; cbn [pushUpdates];
    [reflexivity|].
  destruct (embeddings !! index) as [[v|]|]; try apply IH.
  unfold repository_update.
  match goal with
  | |- context [pushUpdates field embeddings (S index) rest ?w1] =>
      specialize (IH (S index) w1);
        destruct (pushUpdates field embeddings (S index) rest w1) as [os w2]
  end.
  cbn [snd] in *. now rewrite IH.
Qed.

Lemma processSingleBatch_cache (batch : list Incident) (w : World) :
  embeddingCache w !! key <> None ->
  embeddingCache (snd (processSingleBatch batch w)) !! key
  = embeddingCache w !! key.
Proof.
  intros Hkey. unfold processSingleBatch, bind.
  match goal with
  | |- context [resume (if ?g then beginBatch ?t w else None) w] =>
      pose proof (resume_cache g t w w Hkey) as H1;
        destruct (resume (if g then beginBatch t w else None) w) as [r1 w1]
  end.
  cbn [snd] in H1. destruct r1 as [rs1|e|]; cbn [snd]; try exact H1.
  match goal with
  | |- context [resume (if ?g then beginBatch ?t w else None) w1] =>
      pose proof (resume_cache g t w w1 Hkey) as H2;
        destruct (resume (if g then beginBatch t w else None) w1) as [r2 w2]
  end.
  cbn [snd] in H2. destruct r2 as [rs2|e|]; cbn [snd]; try congruence.
  match goal with
  | |- context [pushUpdates SetTitleVector ?e ?i ?n w2] =>
      pose proof (pushUpdates_cache SetTitleVector e n i w2) as H3;
        destruct (pushUpdates SetTitleVector e i n w2) as [o1 w3]
  end.
  match goal with
  | |- context [pushUpdates SetDescriptionVector ?e ?i ?n w3] =>
      pose proof (pushUpdates_cache SetDescriptionVector e n i w3) as H4;
        destruct (pushUpdates SetDescriptionVector e i n w3) as [o2 w4]
  end.
  cbn [snd] in *. congruence.
Qed.

Lemma runBatches_cache (batches : list (list Incident)) : forall w,
  embeddingCache w !! key <> None ->
  embeddingCache (snd (runBatches batches w)) !! key
  = embeddingCache w !! key.
Proof.
  induction batches as [|batch rest IH]; intros w Hkey; cbn [runBatches];
    [reflexivity|].
  pose proof (processSingleBatch_cache batch w Hkey) as H1.
  destruct (processSingleBatch batch w) as [r w1]. cbn [snd] in H1.
  assert (Hkey1 : embeddingCache w1 !! key <> None) by congruence.
  specialize (IH w1 Hkey1). destruct (runBatches rest w1) as [os w2].
  cbn [snd] in *. congruence.
Qed.
End CacheKept.

(** X9: a cache entry is never replaced or dropped by the embedding calls:
    whatever the provider and the database do, an entry that is in the cache
    before [generateEmbedding], [generateBatchEmbeddings] or
    [processBatchEmbeddings] is there, with the same vector, after it. *)
Theorem cache_entries_are_kept `{Runtime} (key : string) (v : Vector)
  (w : World) :
  embeddingCache w !! key = Some v ->
  (forall text,
      embeddingCache (snd (generateEmbedding text w)) !! key = Some v)
  /\ (forall texts,
        embeddingCache (snd (generateBatchEmbeddings texts w)) !! key = Some v)
  /\ (forall incidents,
        embeddingCache (snd (processBatchEmbeddings incidents w)) !! key
        = Some v).
Proof.
  intros Hkey.
  assert (Hne : embeddingCache w !! key <> None) by congruence.
  split; [|split].
  - intros text. unfold generateEmbedding.
    destruct (hasText text); cbn [negb]; [|exact Hkey].
    destruct (embeddingCache w !! createCacheKey text) as [c|] eqn:Hc;
      [exact Hkey|].
    unfold try_catch. destruct openai as [api|]; [|exact Hkey].
    unfold bind, embeddings_create.
    destruct (api _ _) as [e|[|u others]]; cbn; try exact Hkey.
    rewrite lookup_insert_ne; [exact Hkey | congruence].
  - intros texts. rewrite generateBatchEmbeddings_closed. cbv zeta.
    destruct (length (List.filter hasText texts) =? 0)%nat; [exact Hkey|].
    rewrite finishBatch_cache; [exact Hkey|].
    cbn [validTexts uncached]. now apply misses_fresh.
  - intros incidents.
    destruct (processBatchEmbeddings_trace incidents w)
      as (c & w' & outcomes & E & Hr & _).
    rewrite E. cbn [snd].
    pose proof (runBatches_cache key
                  (subBatches (length incidents) incidents 0) w Hne) as Hc.
    rewrite Hr in Hc. cbn [snd] in Hc. congruence.
Qed.

Lemma cache_entries_are_kept_witness :
  let w := with_entry (createCacheKey "Camden burglary") [0; 1; 0]%float
                      (world_of (backlog 3 99)) in
  (forall text,
      embeddingCache (snd (@generateEmbedding remote_runtime text w))
        !! createCacheKey "Camden burglary" = Some [0; 1; 0]%float)
  /\ (forall texts,
        embeddingCache (snd (@generateBatchEmbeddings remote_runtime texts w))
          !! createCacheKey "Camden burglary" = Some [0; 1; 0]%float)
  /\ (forall incidents,
        embeddingCache (snd (@processBatchEmbeddings remote_runtime incidents w))
          !! createCacheKey "Camden burglary" = Some [0; 1; 0]%float).
Proof.
  cbv zeta. apply (@cache_entries_are_kept remote_runtime).
  apply lookup_insert_eq.
Defined.

(** ** What the provider is sent *)

Lemma substring_length (n : nat) : forall s,
  (String.length (String.substring 0 n s) <= n)%nat.
Proof.
  induction n as [|n IH]; intros [|c s]; cbn; try lia.
  specialize (IH s). lia.
Qed.

Lemma cut_length (text : string) :
  (String.length (JS.substring text 0 MAX_INPUT) <= MAX_INPUT)%nat.
Proof.
  unfold JS.substring. rewrite Nat.min_0_l, Nat.max_0_l, Nat.sub_0_r.
  apply substring_length.
Qed.

Lemma misses_capped (cache : gmap string Vector) (texts : list string) :
  forall index,
    Forall (fun t => (String.length t <= MAX_INPUT)%nat)
           (map snd (misses cache index texts)).
Proof.
  induction texts as [|text rest IH]; intros index; cbn [misses];
    [constructor|].
  destruct (cache !! createCacheKey text); [apply IH|].
  cbn [map snd]. constructor; [apply cut_length | apply IH].
Qed.

Lemma mockFill_with_openai (R : Runtime)
  (client : option (nat -> list string -> ApiResponse))
  (unc : list (nat * string)) : forall rs w,
  @mockFill (with_openai R client) unc rs w = @mockFill R unc rs w.
Proof.
  induction unc as [|[i t] rest IH]; intros rs w; cbn [mockFill];
    [reflexivity|].
  apply IH.
Qed.

Section SameAnswers.
Variables api api' : nat -> list string -> ApiResponse.
Hypothesis same_within_limits :
  forall n input, withinLimits input -> api n input = api' n input.

Lemma remoteFill_same_answers valid unc :
  Forall (fun t => (String.length t <= MAX_INPUT)%nat) (map snd unc) ->
  forall fuel i rs w,
    remoteFill fuel api valid unc i rs w
    = remoteFill fuel api' valid unc i rs w.
Proof.
  intros Hcap. induction fuel as [|fuel IH]; intros i rs w; cbn [remoteFill];
    destruct (i <? length unc)%nat; try reflexivity.
  rewrite slice_from. unfold embeddings_create.
  rewrite same_within_limits.
  - destruct (api' _ _) as [e|data]; [reflexivity|].
    destruct (storeResponse _ _ _ _ _ _) as [[[u|e|] rs1] w1];
      try reflexivity.
    apply IH.
  - split.
    + rewrite length_map, length_take. unfold API_BATCH. lia.
    + rewrite Forall_forall in Hcap. apply Forall_forall. intros t Ht.
      apply Hcap. apply list_elem_of_In. apply list_elem_of_In in Ht.
      apply in_map_iff in Ht as (x & <- & Hx). apply in_map.
      apply list_elem_of_In. apply list_elem_of_In in Hx.
      eapply subseteq_drop, subseteq_take, Hx.
Qed.
End SameAnswers.

(** X10: the provider is never sent more than 100 inputs in one request nor
    an input of more than 8191 characters: a provider that answers
    differently only outside these limits cannot be told apart, neither by
    [generateEmbedding] nor by [generateBatchEmbeddings] (results and state
    are the same). *)
Theorem provider_requests_within_limits (R : Runtime)
  (api api' : nat -> list string -> ApiResponse) :
  (forall n input, withinLimits input -> api n input = api' n input) ->
  (forall text w,
      @generateEmbedding (with_openai R (Some api)) text w
      = @generateEmbedding (with_openai R (Some api')) text w)
  /\ (forall texts w,
        @generateBatchEmbeddings (with_openai R (Some api)) texts w
        = @generateBatchEmbeddings (with_openai R (Some api')) texts w).
Proof.
  intros Hsame. split.
  - intros text w. unfold generateEmbedding.
    destruct (hasText text); cbn [negb]; [|reflexivity].
    destruct (embeddingCache w !! createCacheKey text); [reflexivity|].
    cbn [openai with_openai]. unfold try_catch, bind, embeddings_create.
    rewrite Hsame; [reflexivity|].
    split; [cbn; unfold API_BATCH; lia|].
    constructor; [apply cut_length | constructor].
  - intros texts w. rewrite !generateBatchEmbeddings_closed. cbv zeta.
    destruct (length (List.filter hasText texts) =? 0)%nat; [reflexivity|].
    unfold finishBatch. cbn [openai with_openai uncached results validTexts].
    destruct (0 <? length _)%nat; [|reflexivity].
    rewrite (remoteFill_same_answers api api' Hsame) by apply misses_capped.
    destruct (remoteFill _ _ _ _ _ _ _) as [[[u|e|] rs1] w1]; try reflexivity.
    now rewrite !mockFill_with_openai.
Qed.

Lemma strict_api_same_within_limits :
  forall n input, withinLimits input -> constant_api n input = strict_api n input.
Proof.
  intros n input [Hlen Hcap]. unfold strict_api, withinLimitsb.
  apply Nat.leb_le in Hlen. rewrite Hlen. cbn [andb].
  replace (forallb _ input) with true; [reflexivity|].
  symmetry. apply forallb_forall. intros t Ht.
  rewrite Forall_forall in Hcap. apply Nat.leb_le, Hcap.
  now apply list_elem_of_In.
Qed.

Lemma provider_requests_within_limits_witness :
  strict_api 0 [long_text] = ApiRejects "413 Payload Too Large"
  /\ @generateEmbedding (with_openai dev_runtime (Some constant_api))
        long_text (world_of [])
     = @generateEmbedding (with_openai dev_runtime (Some strict_api))
         long_text (world_of [])
  /\ @generateBatchEmbeddings (with_openai dev_runtime (Some constant_api))
        (repeat long_text 101) (world_of [])
     = @generateBatchEmbeddings (with_openai dev_runtime (Some strict_api))
         (repeat long_text 101) (world_of []).
Proof.
  split; [vm_compute; reflexivity|].
  destruct (provider_requests_within_limits dev_runtime constant_api strict_api
              strict_api_same_within_limits) as [Hone Hbatch].
  split; [apply Hone | apply Hbatch].
Defined.

(** ** How much a backfill asks of the provider and of the database *)

Section Effort.
Context `{Runtime}.

Lemma storeResponse_counters valid bi data : forall j rs w,
  let w' := snd (storeResponse valid bi j data rs w) in
  api_requests w' = api_requests w
  /\ mock_calls w' = mock_calls w
  /\ updates_sent w' = updates_sent w.
Proof.
  induction data as [|e rest IH]; intros j rs w; cbn [storeResponse];
    [now cbn|].
  destruct (bi !! j) as [oi|]; [|now cbn].
  destruct (valid !! oi) as [text|]; [|now cbn].
  cbn [cache_set].
  match goal with
  | |- context [storeResponse valid bi ?j' rest ?r ?w1] =>
      pose proof (IH j' r w1) as IH'
  end.
  cbn zeta in *. cbn [api_requests mock_calls updates_sent] in IH'. exact IH'.
Qed.

Lemma remoteFill_counters api valid unc : forall fuel i rs w,
  let w' := snd (remoteFill fuel api valid unc i rs w) in
  (100 * api_requests w' <= 100 * api_requests w + (length unc - i) + 99)%nat
  /\ ((length unc <= i)%nat -> api_requests w' = api_requests w)
  /\ mock_calls w' = mock_calls w
  /\ updates_sent w' = updates_sent w.
Proof.
  induction fuel as [|fuel IH]; intros i rs w; cbn [remoteFill];
    destruct (i <? length unc)%nat eqn:Hlt; cbn zeta;
    try (apply Nat.ltb_ge in Hlt; cbn [snd]; repeat split; lia).
  - apply Nat.ltb_lt in Hlt. cbn [snd]. repeat split; lia.
  - apply Nat.ltb_lt in Hlt. rewrite slice_from. unfold embeddings_create.
    destruct (api _ _) as [e|data]; [cbn; repeat split; lia|].
    match goal with
    | |- context [storeResponse ?v ?b ?j ?d ?r0 ?w0] =>
        pose proof (storeResponse_counters v b d j r0 w0) as Hs;
          destruct (storeResponse v b j d r0 w0) as [[r1 rs1] w2]
    end.
    cbn zeta in Hs. cbn [snd api_requests mock_calls updates_sent] in Hs.
    destruct Hs as (Ha & Hm & Hu).
    destruct r1 as [u|e|]; cbn [snd]; try (repeat split; lia).
    specialize (IH (i + API_BATCH)%nat rs1 w2). cbn zeta in IH.
    destruct IH as (Hb & Hz & Hm' & Hu'). unfold API_BATCH in *.
    repeat split; lia.
Qed.

Lemma mockFill_counters (unc : list (nat * string)) : forall rs w,
  let w' := snd (mockFill unc rs w) in
  api_requests w' = api_requests w
  /\ mock_calls w' = (mock_calls w + length unc)%nat
  /\ updates_sent w' = updates_sent w.
Proof.
  induction unc as [|[i t] rest IH]; intros rs w; cbn [mockFill];
    [cbn; repeat split; lia|].
  cbn [generateMockEmbedding]. specialize (IH (<[i := Some (mockVector (simpleHash t))]> rs) (count_mock w)).
  cbn zeta in *. cbn [count_mock api_requests mock_calls updates_sent length] in *.
  destruct IH as (Ha & Hm & Hu). repeat split; lia.
Qed.

Lemma finishBatch_counters (p : Pending) (w : World) :
  let w' := snd (finishBatch p w) in
  (100 * api_requests w' <= 100 * api_requests w + length (uncached p) + 99)%nat
  /\ (length (uncached p) = 0%nat -> api_requests w' = api_requests w)
  /\ (mock_calls w' <= mock_calls w + length (uncached p))%nat
  /\ updates_sent w' = updates_sent w.
Proof.
  unfold finishBatch. cbn zeta.
  destruct (0 <? length (uncached p))%nat eqn:Hpos;
    [|cbn; repeat split; lia].
  apply Nat.ltb_lt in Hpos.
  destruct openai as [api|].
  - pose proof (remoteFill_counters api (validTexts p) (uncached p)
                  (length (uncached p)) 0 (results p) w) as Hr.
    cbn zeta in Hr.
    destruct (remoteFill _ _ _ _ _ _ _) as [[r rs1] w1]. cbn [snd] in Hr.
    destruct Hr as (Hb & _ & Hm & Hu).
    destruct r as [u|e|]; cbn [snd]; try (repeat split; lia).
    pose proof (mockFill_counters (uncached p) rs1 w1) as Hk. cbn zeta in Hk.
    destruct (mockFill _ _ _) as [rs2 w2]. cbn [snd] in *.
    destruct Hk as (Ha' & Hm' & Hu'). repeat split; lia.
  - pose proof (mockFill_counters (uncached p) (results p) w) as Hk.
    cbn zeta in Hk. destruct (mockFill _ _ _) as [rs2 w2]. cbn [snd] in *.
    destruct Hk as (Ha' & Hm' & Hu'). repeat split; lia.
Qed.

Lemma misses_length (cache : gmap string Vector) (texts : list string) :
  forall index, (length (misses cache index texts) <= length texts)%nat.
Proof.
  induction texts as [|text rest IH]; intros index; cbn [misses length];
    [lia|].
  specialize (IH (S index)).
  destruct (cache !! createCacheKey text); cbn [length]; lia.
Qed.

Lemma resume_counters (go : bool) (texts : list string) (w0 w : World) :
  let w' := snd (resume (if go then beginBatch texts w0 else None) w) in
  (100 * api_requests w' <= 100 * api_requests w + length texts + 99)%nat
  /\ (mock_calls w' <= mock_calls w + length texts)%nat
  /\ updates_sent w' = updates_sent w.
Proof.
  cbn zeta. destruct go; [|cbn; repeat split; lia].
  rewrite beginBatch_closed. cbv zeta.
  destruct (length (List.filter hasText texts) =? 0)%nat;
    [cbn; repeat split; lia|].
  cbn [resume].
  match goal with
  | |- context [finishBatch ?p w] =>
      pose proof (finishBatch_counters p w) as Hf
  end.
  cbn zeta in Hf. cbn [uncached] in Hf. destruct Hf as (Ha & _ & Hm & Hu).
  pose proof (misses_length (embeddingCache w0) (List.filter hasText texts) 0).
  pose proof (filter_length_le hasText texts).
  repeat split; lia.
Qed.

Lemma pushUpdates_counters (field : Vector -> Patch)
  (embeddings : list (option Vector)) (needs : list Incident) :
  forall index w,
    let w' := snd (pushUpdates field embeddings index needs w) in
    api_requests w' = api_requests w
    /\ mock_calls w' = mock_calls w
    /\ (updates_sent w' <= updates_sent w + length needs)%nat.
Proof.
  induction needs as [|incident rest IH]; intros index w; cbn [pushUpdates];
    [cbn; repeat split; lia|].
  cbn zeta in *. cbn [length].
  destruct (embeddings !! index) as [[v|]|].
  - unfold repository_update.
    match goal with
    | |- context [pushUpdates field embeddings (S index) rest ?w1] =>
        specialize (IH (S index) w1);
          destruct (pushUpdates field embeddings (S index) rest w1) as [os w2]
    end.
    cbn [snd api_requests mock_calls updates_sent] in *.
    destruct IH as (Ha & Hm & Hu). repeat split; lia.
  - specialize (IH (S index) w). destruct IH as (Ha & Hm & Hu).
    repeat split; lia.
  - specialize (IH (S index) w). destruct IH as (Ha & Hm & Hu).
    repeat split; lia.
Qed.

Lemma processSingleBatch_counters (batch : list Incident) (w : World) :
  (length batch <= BATCH_SIZE)%nat ->
  let w' := snd (processSingleBatch batch w) in
  (api_requests w' <= api_requests w + 2)%nat
  /\ (mock_calls w' <= mock_calls w + 2 * length batch)%nat
  /\ (updates_sent w' <= updates_sent w + 2 * length batch)%nat.
Proof.
  intros Hsize. unfold BATCH_SIZE in Hsize. cbn zeta.
  unfold processSingleBatch, bind.
  pose proof (filter_length_le needsTitle batch) as Hn1.
  pose proof (filter_length_le needsDescription batch) as Hn2.
  match goal with
  | |- context [resume (if ?g then beginBatch ?t w else None) w] =>
      pose proof (resume_counters g t w w) as H1;
        destruct (resume (if g then beginBatch t w else None) w) as [r1 w1]
  end.
  cbn zeta in H1. cbn [snd] in H1. rewrite length_map in H1.
  destruct H1 as (Ha1 & Hm1 & Hu1).
  destruct r1 as [rs1|e|]; cbn [snd]; try (repeat split; lia).
  match goal with
  | |- context [resume (if ?g then beginBatch ?t w else None) w1] =>
      pose proof (resume_counters g t w w1) as H2;
        destruct (resume (if g then beginBatch t w else None) w1) as [r2 w2]
  end.
  cbn zeta in H2. cbn [snd] in H2. rewrite length_map in H2.
  destruct H2 as (Ha2 & Hm2 & Hu2).
  destruct r2 as [rs2|e|]; cbn [snd]; try (repeat split; lia).
  match goal with
  | |- context [pushUpdates SetTitleVector ?e ?i ?n w2] =>
      pose proof (pushUpdates_counters SetTitleVector e n i w2) as H3;
        destruct (pushUpdates SetTitleVector e i n w2) as [o1 w3]
  end.
  match goal with
  | |- context [pushUpdates SetDescriptionVector ?e ?i ?n w3] =>
      pose proof (pushUpdates_counters SetDescriptionVector e n i w3) as H4;
        destruct (pushUpdates SetDescriptionVector e i n w3) as [o2 w4]
  end.
  cbn zeta in H3, H4. cbn [snd] in *.
  destruct H3 as (Ha3 & Hm3 & Hu3). destruct H4 as (Ha4 & Hm4 & Hu4).
  repeat split; lia.
Qed.

Lemma runBatches_counters (batches : list (list Incident)) : forall w,
  Forall (fun batch => (length batch <= BATCH_SIZE)%nat) batches ->
  let w' := snd (runBatches batches w) in
  (api_requests w' <= api_requests w + 2 * length batches)%nat
  /\ (mock_calls w' <= mock_calls w + 2 * length (concat batches))%nat
  /\ (updates_sent w' <= updates_sent w + 2 * length (concat batches))%nat.
Proof.
  induction batches as [|batch rest IH]; intros w Hall; cbn [runBatches];
    [cbn; repeat split; lia|].
  inversion Hall as [|? ? Hb Hrest]; subst. cbn zeta.
  pose proof (processSingleBatch_counters batch w Hb) as H1. cbn zeta in H1.
  destruct (processSingleBatch batch w) as [r w1]. cbn [snd] in H1.
  specialize (IH w1 Hrest). cbn zeta in IH.
  destruct (runBatches rest w1) as [os w2]. cbn [snd concat length] in *.
  rewrite length_app. destruct H1 as (? & ? & ?). destruct IH as (? & ? & ?).
  repeat split; lia.
Qed.

Lemma subBatches_count (incidents : list Incident) : forall fuel i,
  (50 * length (subBatches fuel incidents i) <= (length incidents - i) + 49)%nat
  /\ ((length incidents <= i)%nat -> subBatches fuel incidents i = []).
Proof.
  induction fuel as [|fuel IH]; intros i; cbn [subBatches];
    destruct (i <? length incidents)%nat eqn:Hlt;
    try (apply Nat.ltb_ge in Hlt; cbn; split; [lia | reflexivity]).
  - cbn. apply Nat.ltb_lt in Hlt. split; lia.
  - apply Nat.ltb_lt in Hlt. cbn [length].
    destruct (IH (i + BATCH_SIZE)%nat) as [Hb Hz]. unfold BATCH_SIZE in *.
    split; [|lia].
    destruct (decide (length incidents <= i + 50)%nat) as [Hle|Hgt].
    + rewrite (Hz Hle). cbn. lia.
    + lia.
Qed.
End Effort.

(** X11: a backfill over [n] records sends at most two provider requests
    per sub-batch of 50, at most [2 * ceil(n / 50)] in all (none for no
    record, at most two for up to 50 records), invokes the
    fallback generator at most [2 n] times and sends at most [2 n] update
    statements, whatever the provider and the database answer. *)
Theorem backfill_effort_is_bounded `{Runtime} (incidents : list Incident)
  (w : World) :
  let w' := snd (processBatchEmbeddings incidents w) in
  (api_requests w'
   <= api_requests w + 2 * ((length incidents + 49) / 50))%nat
  /\ (mock_calls w' <= mock_calls w + 2 * length incidents)%nat
  /\ (updates_sent w' <= updates_sent w + 2 * length incidents)%nat.
Proof.
  cbn zeta.
  destruct (processBatchEmbeddings_trace incidents w)
    as (c & w' & outcomes & E & Hr & Hc & Hsz & _).
  rewrite E. cbn [snd].
  pose proof (runBatches_batches
                (subBatches (length incidents) incidents 0) w) as Hb.
  rewrite Hr in Hb. cbn [fst] in Hb.
  pose proof (runBatches_counters
                (subBatches (length incidents) incidents 0) w) as Hk.
  rewrite Hr in Hk. cbn zeta in Hk. cbn [snd] in Hk.
  destruct Hk as (Ha & Hm & Hu).
  { rewrite <- Hb. apply Forall_map. eapply Forall_impl; [exact Hsz|].
    cbn. intros o Ho. lia. }
  rewrite <- Hb, Hc in Hm, Hu.
  destruct (subBatches_count incidents (length incidents) 0) as [Hn _].
  assert (Hq : (length (subBatches (length incidents) incidents 0)
                <= (length incidents + 49) / 50)%nat)
    by (apply Nat.div_le_lower_bound; lia).
  repeat split; lia.
Qed.

(** ** What a backfill does to the table *)

Lemma sameRecord_refl (r : Incident) : sameRecord r r.
Proof. unfold sameRecord. repeat split; auto. Qed.

Lemma sameRecord_trans (a b c : Incident) :
  sameRecord a b -> sameRecord b c -> sameRecord a c.
Proof.
  unfold sameRecord.
  intros (? & ? & ? & ? & ? & ? & ?) (? & ? & ? & ? & ? & ? & ?).
  repeat split; try congruence; auto.
Qed.

Lemma sameRecords_refl (t : list Incident) : Forall2 sameRecord t t.
Proof. induction t; constructor; auto using sameRecord_refl. Qed.

Lemma sameRecords_trans (a b c : list Incident) :
  Forall2 sameRecord a b -> Forall2 sameRecord b c -> Forall2 sameRecord a c.
Proof.
  intros Hab. revert c.
  induction Hab as [|x y l l' Hxy Hl IH]; intros c Hbc; inversion Hbc; subst;
    constructor; eauto using sameRecord_trans.
Qed.

Lemma applyPatch_sameRecord (p : Patch) (r : Incident) :
  sameRecord r (applyPatch p r).
Proof.
  destruct p; unfold sameRecord; cbn [applyPatch id title description category
    datetime title_vector description_vector]; repeat split; auto; discriminate.
Qed.

Section FillsOnly.
Context `{Runtime}.

Lemma repository_update_same (incidentId : string) (p : Patch) (w : World) :
  Forall2 sameRecord (incidents_table w)
          (incidents_table (snd (repository_update incidentId p w))).
Proof.
  unfold repository_update. cbn [snd incidents_table].
  destruct (update_fault _ _); [apply sameRecords_refl|].
  induction (incidents_table w) as [|r t IH]; cbn [map]; constructor;
    [|exact IH].
  destruct (String.eqb (id r) incidentId);
    [apply applyPatch_sameRecord | apply sameRecord_refl].
Qed.

Lemma pushUpdates_same (field : Vector -> Patch)
  (embeddings : list (option Vector)) (needs : list Incident) :
  forall index w,
    Forall2 sameRecord (incidents_table w)
      (incidents_table (snd (pushUpdates field embeddings index needs w))).
Proof.
  induction needs as [|incident rest IH]; intros index w; cbn [pushUpdates];
    [apply sameRecords_refl|].
  destruct (embeddings !! index) as [[v|]|]; try apply IH.
  pose proof (repository_update_same (id incident) (field v) w) as H1.
  destruct (repository_update (id incident) (field v) w) as [o w1].
  specialize (IH (S index) w1).
  destruct (pushUpdates field embeddings (S index) rest w1) as [os w2].
  cbn [snd] in *. eapply sameRecords_trans; eassumption.
Qed.

Lemma resume_table (go : bool) (texts : list string) (w0 w : World) :
  incidents_table
    (snd (resume (if go then beginBatch texts w0 else None) w))
  = incidents_table w.
Proof.
  destruct go; [|reflexivity].
  destruct (beginBatch texts w0) as [p|]; [|reflexivity].
  apply finishBatch_table.
Qed.

Lemma processSingleBatch_same (batch : list Incident) (w : World) :
  Forall2 sameRecord (incidents_table w)
          (incidents_table (snd (processSingleBatch batch w))).
Proof.
  unfold processSingleBatch, bind.
  match goal with
  | |- context [resume (if ?g then beginBatch ?t w else None) w] =>
      pose proof (resume_table g t w w) as H1;
        destruct (resume (if g then beginBatch t w else None) w) as [r1 w1]
  end.
  cbn [snd] in H1.
  destruct r1 as [rs1|e|]; cbn [snd];
    try (rewrite H1; apply sameRecords_refl).
  match goal with
  | |- context [resume (if ?g then beginBatch ?t w else None) w1] =>
      pose proof (resume_table g t w w1) as H2;
        destruct (resume (if g then beginBatch t w else None) w1) as [r2 w2]
  end.
  cbn [snd] in H2.
  destruct r2 as [rs2|e|]; cbn [snd];
    try (rewrite H2, H1; apply sameRecords_refl).
  match goal with
  | |- context [pushUpdates SetTitleVector ?e ?i ?n w2] =>
      pose proof (pushUpdates_same SetTitleVector e n i w2) as H3;
        destruct (pushUpdates SetTitleVector e i n w2) as [o1 w3]
  end.
  match goal with
  | |- context [pushUpdates SetDescriptionVector ?e ?i ?n w3] =>
      pose proof (pushUpdates_same SetDescriptionVector e n i w3) as H4;
        destruct (pushUpdates SetDescriptionVector e i n w3) as [o2 w4]
  end.
  cbn [snd] in *. rewrite <- H1, <- H2.
  eapply sameRecords_trans; eassumption.
Qed.

Lemma runBatches_same (batches : list (list Incident)) : forall w,
  Forall2 sameRecord (incidents_table w)
          (incidents_table (snd (runBatches batches w))).
Proof.
  induction batches as [|batch rest IH]; intros w; cbn [runBatches];
    [apply sameRecords_refl|].
  pose proof (processSingleBatch_same batch w) as H1.
  destruct (processSingleBatch batch w) as [r w1].
  specialize (IH w1). destruct (runBatches rest w1) as [os w2].
  cbn [snd] in *. eapply sameRecords_trans; eassumption.
Qed.

Lemma processBatchEmbeddings_same (incidents : list Incident) (w : World) :
  Forall2 sameRecord (incidents_table w)
          (incidents_table (snd (processBatchEmbeddings incidents w))).
Proof.
  destruct (processBatchEmbeddings_trace incidents w)
    as (c & w' & outcomes & E & Hr & _).
  rewrite E. cbn [snd].
  pose proof (runBatches_same (subBatches (length incidents) incidents 0) w)
    as Hs.
  now rewrite Hr in Hs.
Qed.
End FillsOnly.

(** X12: whatever the provider and the database do,
    [processAllMissingEmbeddings] returns counters that add up to the number
    of rows with a missing title or description vector, and it only ever
    fills vectors: afterwards the table holds the same records in the same
    order (id, title, description, category and date unchanged) and no row
    has lost a vector it had. *)
Theorem backfill_only_fills_vectors `{Runtime} (w : World) :
  exists c w',
    processAllMissingEmbeddings w = (Returned c, w')
    /\ (processed c + errors c)%nat
       = length (List.filter missingEmbedding (incidents_table w))
    /\ Forall2 sameRecord (incidents_table w) (incidents_table w').
Proof.
  unfold processAllMissingEmbeddings.
  set (snapshot := List.filter missingEmbedding (incidents_table w)).
  destruct (processBatchEmbeddings_trace snapshot w)
    as (c & w' & outcomes & E & Hr & Hc & _ & Hp & He).
  exists c, w'. split; [exact E|]. split.
  - now rewrite Hp, He, recordsWhere_total, Hc.
  - pose proof (processBatchEmbeddings_same snapshot w) as Hs.
    now rewrite E in Hs.
Qed.
(** ** A whitespace-only title in a batch *)

(** X13: on a server without a provider, when a batch is an incident [a]
    whose title is whitespace only, followed by an incident [b] with a real
    title that is not cached, both without a title vector and neither in
    need of a description vector, and the database accepts the update,
    [processSingleBatch] writes the vector of [b]'s title into the rows of
    [a] and sends no update for [b]: the batch call drops the blank text,
    and the vectors are then matched to the incidents by position. *)
Theorem blank_title_shifts_vectors `{Runtime} (a b : Incident) (w : World) :
  openai = None ->
  needsTitle a = true -> hasText (title a) = false ->
  needsTitle b = true -> hasText (title b) = true ->
  needsDescription a = false -> needsDescription b = false ->
  embeddingCache_miss (embeddingCache w) (title b) ->
  update_fault (updates_sent w) (id a) = None ->
  let v := mockVector (simpleHash (JS.substring (title b) 0 MAX_INPUT)) in
  exists w',
    processSingleBatch [a; b] w = (Returned tt, w')
    /\ incidents_table w'
       = map (fun row =>
                if String.eqb (id row) (id a)
                then applyPatch (SetTitleVector v) row else row)
             (incidents_table w)
    /\ updates_sent w' = S (updates_sent w).
Proof.
  intros Ho Hna Hta Hnb Htb Hda Hdb Hmiss Hok v.
  unfold processSingleBatch.
  cbn [List.filter]. rewrite Hna, Hnb, Hda, Hdb.
  cbn [map length Nat.ltb Nat.leb]. rewrite beginBatch_closed.
  cbn [List.filter]. rewrite Hta, Htb.
  cbn [length Nat.eqb map misses]. unfold embeddingCache_miss in Hmiss.
  rewrite Hmiss.
  unfold bind, resume, finishBatch.
  cbn [uncached results validTexts length Nat.ltb Nat.leb]. rewrite Ho.
  cbn [mockFill generateMockEmbedding]. fold v.
  clearbody v. unfold ret.
  cbn [pushUpdates lookup list_lookup insert list_insert repository_update
       count_mock updates_sent incidents_table app awaitAll].
  rewrite Hok. cbn [app awaitAll].
  eexists. split; [reflexivity|].
  cbn [incidents_table updates_sent]. split; reflexivity.
Qed.

Lemma blank_title_shifts_vectors_witness :
  exists w',
    @processSingleBatch dev_runtime
      [unembedded "inc-1" "   " None; unembedded "inc-2" "Camden burglary" None]
      (world_of [unembedded "inc-1" "   " None;
                 unembedded "inc-2" "Camden burglary" None])
    = (Returned tt, w')
    /\ incidents_table w'
       = [applyPatch
            (SetTitleVector (@mockVector dev_runtime (simpleHash "Camden burglary")))
            (unembedded "inc-1" "   " None);
          unembedded "inc-2" "Camden burglary" None].
Proof.
  destruct (@blank_title_shifts_vectors dev_runtime
              (unembedded "inc-1" "   " None)
              (unembedded "inc-2" "Camden burglary" None)
              (world_of [unembedded "inc-1" "   " None;
                         unembedded "inc-2" "Camden burglary" None]))
    as (w' & E & Ht & _); try reflexivity.
  exists w'. split; [exact E|]. rewrite Ht. reflexivity.
Defined.
(** ** One incident *)

Section OneIncident.
Context `{Runtime}.

Lemma generateEmbedding_some (text : string) (w : World) :
  hasText text = true ->
  exists v w',
    generateEmbedding text w = (Returned (Some v), w')
    /\ incidents_table w' = incidents_table w
    /\ updates_sent w' = updates_sent w.
Proof.
  intros Ht. unfold generateEmbedding. rewrite Ht. cbn [negb].
  destruct (embeddingCache w !! createCacheKey text) as [cached|] eqn:Hc.
  - exists cached, w. auto.
  - unfold try_catch. destruct openai as [api|].
    + unfold bind, embeddings_create.
      destruct (api _ _) as [e|[|v others]];
        cbn [mock generateMockEmbedding throw ret cache_set];
        eexists; eexists; (split; [reflexivity|]); split; reflexivity.
    + cbn [mock generateMockEmbedding].
      eexists; eexists; (split; [reflexivity|]); split; reflexivity.
Qed.

Lemma embedColumn_spec (needed : bool) (text : string)
  (field : Vector -> Patch) (w : World) :
  (needed = true -> hasText text = true) ->
  exists ps w',
    embedColumn needed text field w = (Returned ps, w')
    /\ incidents_table w' = incidents_table w
    /\ updates_sent w' = updates_sent w
    /\ (needed = true -> exists v, ps = [field v])
    /\ (needed = false -> ps = [] /\ w' = w).
Proof.
  intros Ht. unfold embedColumn. destruct needed.
  - destruct (generateEmbedding_some text w (Ht eq_refl))
      as (v & w' & E & Htab & Hsent).
    unfold bind. rewrite E. exists [field v], w'. unfold ret.
    repeat split; auto; try discriminate. now exists v.
  - exists [], w. repeat split; auto; discriminate.
Qed.

Lemma updateIncidentEmbeddings_complete (incidentId : string)
  (incident : Incident) (w : World) :
  findOne incidentId w = Some incident ->
  needsTitle incident = false ->
  needsDescription incident = false ->
  updateIncidentEmbeddings incidentId w = (Returned tt, w).
Proof.
  intros Hf Ht Hd. unfold updateIncidentEmbeddings. rewrite Hf, Ht, Hd.
  reflexivity.
Qed.

Lemma findOne_after_update (incidentId : string) (g : Incident -> Incident)
  (t : list Incident) :
  (forall r, id (g r) = id r) ->
  find (fun inc => String.eqb (id inc) incidentId)
       (map (fun row => if String.eqb (id row) incidentId then g row else row)
            t)
  = option_map g (find (fun inc => String.eqb (id inc) incidentId) t).
Proof.
  intros Hid. induction t as [|r t IH]; [reflexivity|].
  cbn [map find]. destruct (String.eqb (id r) incidentId) eqn:E.
  - now rewrite Hid, E.
  - now rewrite E.
Qed.

Lemma applyPatches_sameRecord (ps : list Patch) : forall r,
  sameRecord r (fold_left (fun r p => applyPatch p r) ps r).
Proof.
  induction ps as [|p ps IH]; intros r; cbn [fold_left];
    [apply sameRecord_refl|].
  eapply sameRecord_trans; [apply applyPatch_sameRecord | apply IH].
Qed.

Lemma applyPatches_title (ps : list Patch) : forall r,
  title_vector r <> None \/ (exists v, In (SetTitleVector v) ps) ->
  title_vector (fold_left (fun r p => applyPatch p r) ps r) <> None.
Proof.
  intros r [Hr | (v & Hin)].
  - now apply (applyPatches_sameRecord ps r).
  - revert r. induction ps as [|p ps IH]; intros r; [destruct Hin|].
    cbn [fold_left]. destruct Hin as [-> | Hin]; [|now apply IH].
    now apply (applyPatches_sameRecord ps).
Qed.

Lemma applyPatches_description (ps : list Patch) : forall r,
  description_vector r <> None \/ (exists v, In (SetDescriptionVector v) ps) ->
  description_vector (fold_left (fun r p => applyPatch p r) ps r) <> None.
Proof.
  intros r [Hr | (v & Hin)].
  - now apply (applyPatches_sameRecord ps r).
  - revert r. induction ps as [|p ps IH]; intros r; [destruct Hin|].
    cbn [fold_left]. destruct Hin as [-> | Hin]; [|now apply IH].
    now apply (applyPatches_sameRecord ps).
Qed.

Lemma hasText_nonempty (text : string) :
  hasText text = true -> String.eqb text "" = false.
Proof.
  unfold hasText. intros Ht. apply andb_true_iff in Ht as [Ht _].
  now apply negb_true_iff in Ht.
Qed.

Lemma needsTitle_vector (inc : Incident) :
  hasText (title inc) = true ->
  needsTitle inc = false <-> title_vector inc <> None.
Proof.
  intros Ht. unfold needsTitle. rewrite (hasText_nonempty _ Ht).
  destruct (title_vector inc); cbn [negb]; split; congruence.
Qed.

Lemma needsDescription_vector (inc : Incident) (d : string) :
  description inc = Some d -> hasText d = true ->
  needsDescription inc = false <-> description_vector inc <> None.
Proof.
  intros Hd Ht. unfold needsDescription.
  rewrite Hd, (hasText_nonempty _ Ht).
  destruct (description_vector inc); cbn [negb]; split; congruence.
Qed.

Lemma missingEmbedding_false (inc : Incident) :
  title_vector inc <> None -> description_vector inc <> None ->
  missingEmbedding inc = false.
Proof.
  unfold missingEmbedding.
  destruct (title_vector inc), (description_vector inc); congruence.
Qed.
End OneIncident.

(** X14: [updateIncidentEmbeddings] on an id that no row has throws
    "Incident <id> not found" and changes nothing; on an incident that
    lacks no vector for a text it has, it returns without calling the
    provider or sending a statement. *)
Theorem updateIncidentEmbeddings_idle `{Runtime} (incidentId : string)
  (w : World) :
  ((forall inc, In inc (incidents_table w) -> id inc <> incidentId) ->
   updateIncidentEmbeddings incidentId w
   = (Thrown ("Incident " +:+ incidentId +:+ " not found"), w))
  /\ (forall incident,
        findOne incidentId w = Some incident ->
        needsTitle incident = false ->
        needsDescription incident = false ->
        updateIncidentEmbeddings incidentId w = (Returned tt, w)).
Proof.
  split.
  - intros Habs. unfold updateIncidentEmbeddings.
    now rewrite (findOne_absent _ _ Habs).
  - intros incident Hf Ht Hd.
    eapply updateIncidentEmbeddings_complete; eassumption.
Qed.

Lemma updateIncidentEmbeddings_idle_witness :
  @updateIncidentEmbeddings dev_runtime "inc-404" (world_of recent_store)
  = (Thrown "Incident inc-404 not found"%string, world_of recent_store)
  /\ @updateIncidentEmbeddings dev_runtime "inc-0" (world_of recent_store)
     = (Returned tt, world_of recent_store).
Proof.
  split.
  - apply (@updateIncidentEmbeddings_idle dev_runtime "inc-404"
             (world_of recent_store)).
    intros inc Hin E. unfold recent_store, world_of in Hin.
    cbn [incidents_table In] in Hin.
    destruct Hin as [<- | [<- | [<- | []]]]; vm_compute in E; discriminate.
  - apply (proj2 (@updateIncidentEmbeddings_idle dev_runtime "inc-0"
                    (world_of recent_store))
             (stored 0 [0; 1]%float noon_2024_06_15)); reflexivity.
Defined.

(** X15: when the incident exists, has a non-blank title and description,
    and the database accepts the statement, [updateIncidentEmbeddings]
    returns; afterwards the incident found under that id is the same record
    with both vectors present, the rows with another id are as they were,
    and a second call changes nothing. *)
Theorem updateIncidentEmbeddings_completes `{Runtime} (incidentId : string)
  (incident : Incident) (w : World) :
  findOne incidentId w = Some incident ->
  embeddable incident ->
  update_fault (updates_sent w) incidentId = None ->
  exists w' incident',
    updateIncidentEmbeddings incidentId w = (Returned tt, w')
    /\ findOne incidentId w' = Some incident'
    /\ sameRecord incident incident'
    /\ missingEmbedding incident' = false
    /\ (forall i r, incidents_table w !! i = Some r -> id r <> incidentId ->
                    incidents_table w' !! i = Some r)
    /\ updateIncidentEmbeddings incidentId w' = (Returned tt, w').
Proof.
  intros Hf (Ht & d & Hd & Hdt) Hok.
  destruct (embedColumn_spec (needsTitle incident) (title incident)
              SetTitleVector w (fun _ => Ht))
    as (ps1 & w1 & E1 & T1 & S1 & N1 & F1).
  assert (Hdt' : hasText (default EmptyString (description incident)) = true)
    by now rewrite Hd.
  destruct (embedColumn_spec (needsDescription incident)
              (default EmptyString (description incident))
              SetDescriptionVector w1 (fun _ => Hdt'))
    as (ps2 & w2 & E2 & T2 & S2 & N2 & F2).
  set (g := fold_left (fun r p => applyPatch p r) (ps1 ++ ps2)).
  assert (Htv : title_vector (g incident) <> None).
  { apply applyPatches_title.
    destruct (needsTitle incident) eqn:En.
    - right. destruct (N1 eq_refl) as (v & ->). exists v. now left.
    - left. now apply needsTitle_vector. }
  assert (Hdv : description_vector (g incident) <> None).
  { apply applyPatches_description.
    destruct (needsDescription incident) eqn:En.
    - right. destruct (N2 eq_refl) as (v & ->). exists v.
      apply in_or_app. right. now left.
    - left. now apply (needsDescription_vector incident d). }
  assert (Hsame : sameRecord incident (g incident))
    by apply applyPatches_sameRecord.
  assert (Hnt : needsTitle (g incident) = false).
  { apply needsTitle_vector; [|exact Htv].
    destruct Hsame as (_ & -> & _). exact Ht. }
  assert (Hnd : needsDescription (g incident) = false).
  { apply (needsDescription_vector _ d); [|exact Hdt|exact Hdv].
    destruct Hsame as (_ & _ & -> & _). exact Hd. }
  unfold updateIncidentEmbeddings at 1. rewrite Hf. unfold bind.
  rewrite E1, E2.
  destruct (0 <? length (ps1 ++ ps2))%nat eqn:Hlen.
  - unfold repository_update_fields. rewrite S2, S1, Hok, T2, T1.
    eexists. exists (g incident).
    split; [reflexivity|].
    assert (Hfound :
      findOne incidentId
        {| embeddingCache := embeddingCache w2;
           incidents_table :=
             map (fun row => if String.eqb (id row) incidentId
                             then g row else row) (incidents_table w);
           api_requests := api_requests w2;
           mock_calls := mock_calls w2;
           updates_sent := S (updates_sent w) |} = Some (g incident)).
    { unfold findOne. cbn [incidents_table].
      rewrite findOne_after_update.
      - unfold findOne in Hf. now rewrite Hf.
      - intros r. apply (applyPatches_sameRecord (ps1 ++ ps2) r). }
    split; [exact Hfound|]. split; [exact Hsame|].
    split; [now apply missingEmbedding_false|]. split.
    + intros i r Hi Hne. cbn [incidents_table].
      rewrite list_lookup_fmap, Hi. cbn [fmap option_fmap option_map].
      apply String.eqb_neq in Hne. now rewrite Hne.
    + eapply updateIncidentEmbeddings_complete; eassumption.
  - assert (Hnil : ps1 ++ ps2 = []) by now destruct (ps1 ++ ps2).
    apply app_eq_nil in Hnil as [-> ->].
    assert (En1 : needsTitle incident = false).
    { destruct (needsTitle incident); [|reflexivity].
      destruct (N1 eq_refl) as (v & Hv). discriminate. }
    assert (En2 : needsDescription incident = false).
    { destruct (needsDescription incident); [|reflexivity].
      destruct (N2 eq_refl) as (v & Hv). discriminate. }
    destruct (F1 En1) as [_ ->]. destruct (F2 En2) as [_ ->].
    exists w, incident. unfold ret.
    split; [reflexivity|]. split; [exact Hf|].
    split; [apply sameRecord_refl|].
    split; [now apply missingEmbedding_false|]. split; [auto|].
    eapply updateIncidentEmbeddings_complete; eassumption.
Qed.

Lemma updateIncidentEmbeddings_completes_witness :
  let incident :=
    unembedded "inc-1" "Camden burglary" (Some "Forced entry overnight"%string)
  in
  exists w' incident',
    @updateIncidentEmbeddings dev_runtime "inc-1" (world_of [incident])
    = (Returned tt, w')
    /\ findOne "inc-1" w' = Some incident'
    /\ missingEmbedding incident' = false.
Proof.
  cbv zeta.
  destruct (@updateIncidentEmbeddings_completes dev_runtime "inc-1"
              (unembedded "inc-1" "Camden burglary"
                          (Some "Forced entry overnight"%string))
              (world_of [unembedded "inc-1" "Camden burglary"
                           (Some "Forced entry overnight"%string)]))
    as (w' & incident' & E & Hf & _ & Hm & _).
  - reflexivity.
  - split; [reflexivity|]. eexists. split; reflexivity.
  - reflexivity.
  - exists w', incident'. auto.
Defined.
(** ** The rebuild *)


(** ** A warm cache *)

Section WarmCache.
Context `{Runtime}.

Lemma misses_cached (cache : gmap string Vector) (texts : list string) :
  (forall t, In t texts -> cache !! createCacheKey t <> None) ->
  forall index, misses cache index texts = [].
Proof.
  induction texts as [|t texts IH]; intros Hall index; [reflexivity|].
  cbn [misses].
  destruct (cache !! createCacheKey t) eqn:E.
  - apply IH. intros t' Hin. apply Hall. now right.
  - destruct (Hall t (or_introl eq_refl) E).
Qed.

Lemma resume_cached (go : bool) (texts : list string) (w0 w : World) :
  (forall t, In t texts -> embeddingCache w0 !! createCacheKey t <> None) ->
  exists rs,
    resume (if go then beginBatch texts w0 else None) w = (Returned rs, w).
Proof.
  intros Hall. destruct go; [|now exists []].
  rewrite beginBatch_closed. cbv zeta.
  destruct (length (List.filter hasText texts) =? 0)%nat; [now exists []|].
  rewrite misses_cached.
  - unfold resume, finishBatch. cbn [uncached length Nat.ltb Nat.leb results].
    eexists. reflexivity.
  - intros t Hin. apply Hall. now apply filter_In in Hin as [Hin _].
Qed.

Lemma processSingleBatch_cached (batch : list Incident) (w : World) :
  cachedTexts (embeddingCache w) batch ->
  let w' := snd (processSingleBatch batch w) in
  embeddingCache w' = embeddingCache w
  /\ api_requests w' = api_requests w
  /\ mock_calls w' = mock_calls w.
Proof.
  intros Hwarm. cbv zeta. unfold processSingleBatch, bind.
  match goal with
  | |- context [resume (if ?g then beginBatch ?t w else None) w] =>
      destruct (resume_cached g t w w) as (rs1 & ->)
  end.
  { intros t Hin. apply in_map_iff in Hin as (inc & <- & Hin).
    apply filter_In in Hin as [Hin _]. now apply Hwarm. }
  match goal with
  | |- context [resume (if ?g then beginBatch ?t w else None) w] =>
      destruct (resume_cached g t w w) as (rs2 & ->)
  end.
  { intros t Hin. apply in_map_iff in Hin as (inc & <- & Hin).
    apply filter_In in Hin as [Hin Hn]. unfold needsDescription in Hn.
    destruct (description inc) as [d|] eqn:Ed.
    - cbn [default]. now apply (Hwarm inc Hin).
    - now destruct (description_vector inc). }
  match goal with
  | |- context [pushUpdates SetTitleVector ?e ?i ?n w] =>
      pose proof (pushUpdates_cache SetTitleVector e n i w) as C1;
        pose proof (pushUpdates_counters SetTitleVector e n i w)
          as (A1 & M1 & _);
        destruct (pushUpdates SetTitleVector e i n w) as [o1 w1]
  end.
  match goal with
  | |- context [pushUpdates SetDescriptionVector ?e ?i ?n w1] =>
      pose proof (pushUpdates_cache SetDescriptionVector e n i w1) as C2;
        pose proof (pushUpdates_counters SetDescriptionVector e n i w1)
          as (A2 & M2 & _);
        destruct (pushUpdates SetDescriptionVector e i n w1) as [o2 w2]
  end.
  cbn [snd] in *. repeat split; congruence.
Qed.

Lemma runBatches_cached (batches : list (list Incident)) : forall w,
  Forall (cachedTexts (embeddingCache w)) batches ->
  let w' := snd (runBatches batches w) in
  embeddingCache w' = embeddingCache w
  /\ api_requests w' = api_requests w
  /\ mock_calls w' = mock_calls w.
Proof.
  induction batches as [|batch rest IH]; intros w Hall; cbv zeta;
    cbn [runBatches]; [auto|].
  apply Forall_cons in Hall as [Hb Hrest].
  pose proof (processSingleBatch_cached batch w Hb) as (C1 & A1 & M1).
  destruct (processSingleBatch batch w) as [r w1]. cbn [snd] in *.
  rewrite <- C1 in Hrest.
  pose proof (IH w1 Hrest) as (C2 & A2 & M2).
  destruct (runBatches rest w1) as [os w2]. cbn [snd] in *.
  repeat split; congruence.
Qed.

Lemma processBatchEmbeddings_cached (incidents : list Incident) (w : World) :
  cachedTexts (embeddingCache w) incidents ->
  let w' := snd (processBatchEmbeddings incidents w) in
  embeddingCache w' = embeddingCache w
  /\ api_requests w' = api_requests w
  /\ mock_calls w' = mock_calls w.
Proof.
  intros Hwarm. cbv zeta.
  destruct (processBatchEmbeddings_trace incidents w)
    as (c & w' & outcomes & E & Hr & _).
  rewrite E. cbn [snd].
  pose proof (runBatches_cached (subBatches (length incidents) incidents 0) w)
    as Hc.
  rewrite Hr in Hc. cbn [snd] in Hc. apply Hc.
  destruct (subBatches_partition incidents (length incidents) 0) as [Hcat _];
    [lia|].
  rewrite drop_0 in Hcat.
  apply Forall_forall. intros batch Hb inc Hin. apply Hwarm.
  rewrite <- Hcat. apply in_concat. exists batch. split; [|exact Hin].
  now apply list_elem_of_In.
Qed.
End WarmCache.

(** X18: texts that are in the cache are never embedded again.  When every
    title and description of the records is cached, a backfill of these
    records sends no request to the provider and generates no fallback
    vector, and the cache is left as it was.  The same holds for
    [rebuildAllEmbeddings], with any cache: it asks the provider for
    nothing. *)
Theorem cached_texts_are_not_embedded_again `{Runtime} (w : World) :
  (forall incidents,
     cachedTexts (embeddingCache w) incidents ->
     let w' := snd (processBatchEmbeddings incidents w) in
     embeddingCache w' = embeddingCache w
     /\ api_requests w' = api_requests w
     /\ mock_calls w' = mock_calls w)
  /\ (let w' := snd (rebuildAllEmbeddings w) in
      embeddingCache w' = embeddingCache w
      /\ api_requests w' = api_requests w
      /\ mock_calls w' = mock_calls w).
Proof.
  split.
  { intros incidents Hwarm. now apply processBatchEmbeddings_cached. }
  cbv zeta. unfold rebuildAllEmbeddings, repository_clear_vectors.
  repeat split; reflexivity.
Qed.

Lemma cached_texts_are_not_embedded_again_witness :
  let w :=
    with_entry (createCacheKey "Camden burglary") [1; 0; 0]%float
      (with_entry (createCacheKey "Forced entry overnight") [0; 1; 0]%float
         (world_of (backlog 3 7))) in
  api_requests (snd (@processBatchEmbeddings remote_runtime (backlog 3 7) w))
  = 0%nat
  /\ mock_calls (snd (@processBatchEmbeddings remote_runtime (backlog 3 7) w))
     = 0%nat.
Proof.
  cbv zeta.
  destruct (@cached_texts_are_not_embedded_again remote_runtime
              (with_entry (createCacheKey "Camden burglary") [1; 0; 0]%float
                 (with_entry (createCacheKey "Forced entry overnight")
                    [0; 1; 0]%float (world_of (backlog 3 7)))))
    as [Hbackfill _].
  destruct (Hbackfill (backlog 3 7)) as (_ & Ha & Hm).
  - intros inc Hin. cbn [backlog seq map In] in Hin.
    destruct Hin as [<- | [<- | [<- | []]]];
      (split; [vm_compute; discriminate|]);
      intros d Hd; injection Hd as <-; vm_compute; discriminate.
  - split; [exact Ha | exact Hm].
Defined.

(** ** The ranking returns the closest rows *)

(** X19: the rows returned by [semanticSearch] (when its date filters are
    valid dates and the database accepts the query vector) and by
    [findSimilarIncidents] are the closest ones.  Together with the rows
    cut off by the limit they are exactly the scored rows that pass the
    [WHERE] clause, each as often as it is in the table, and no row cut off
    is closer to the query than a row returned. *)
Theorem ranking_returns_the_closest `{Runtime} (w : World) :
  (forall query embedding limit filters lower upper,
     searchBounds filters = Some (lower, upper) ->
     select_fault embedding (incidents_table w) = None ->
     exists rows rest,
       semanticSearch query embedding limit filters w = (Returned rows, w)
       /\ Permutation (rows ++ rest)
            (map (scored embedding)
                 (List.filter (matchesSearch embedding filters lower upper)
                              (incidents_table w)))
       /\ (forall r r', In r rows -> In r' rest -> byScore r r'))
  /\ (forall incidentId limit v,
        findOne incidentId w ≫= title_vector = Some v ->
        exists rows rest,
          findSimilarIncidents incidentId limit w = (Returned rows, w)
          /\ Permutation (rows ++ rest)
               (map (scored v)
                    (List.filter (matchesSimilar incidentId)
                                 (incidents_table w)))
          /\ (forall r r', In r rows -> In r' rest -> byScore r r')).
Proof.
  split.
  - intros query embedding limit filters lower upper Hb Hf.
    unfold semanticSearch. rewrite Hb, Hf.
    eexists. eexists. split; [reflexivity|]. apply ranking_closest.
  - intros incidentId limit v Hv. unfold findSimilarIncidents. rewrite Hv.
    eexists. eexists. split; [reflexivity|]. apply ranking_closest.
Qed.

Lemma ranking_returns_the_closest_witness :
  (exists rows rest,
     @semanticSearch dev_runtime "burglary" [1; 0]%float (Some 1%nat) None
       (world_of recent_store) = (Returned rows, world_of recent_store)
     /\ Permutation (rows ++ rest)
          (map (@scored dev_runtime [1; 0]%float)
               (List.filter
                  (@matchesSearch dev_runtime [1; 0]%float None
                     "2024-06-14T00:00:00.000Z" "2024-06-16T23:59:59.999Z")
                  recent_store))
     /\ (forall r r', In r rows -> In r' rest -> byScore r r'))
  /\ (exists rows rest,
        @findSimilarIncidents dev_runtime "inc-2" (Some 1%nat)
          (world_of recent_store) = (Returned rows, world_of recent_store)
        /\ Permutation (rows ++ rest)
             (map (@scored dev_runtime [1; 0]%float)
                  (List.filter (matchesSimilar "inc-2") recent_store))
        /\ (forall r r', In r rows -> In r' rest -> byScore r r')).
Proof.
  split.
  - exact (proj1 (@ranking_returns_the_closest dev_runtime
                    (world_of recent_store))
             "burglary"%string [1; 0]%float (Some 1%nat) None
             "2024-06-14T00:00:00.000Z"%string
             "2024-06-16T23:59:59.999Z"%string
             ltac:(vm_compute; reflexivity) ltac:(vm_compute; reflexivity)).
  - exact (proj2 (@ranking_returns_the_closest dev_runtime
                    (world_of recent_store))
             "inc-2"%string (Some 1%nat) [1; 0]%float eq_refl).
Defined.

(** ** The filters of the search *)








(** X21: between two thresholds passed by the caller, neither of them
    zero, the larger one admits every row the smaller one admits, the other
    filters and the bounds of the window being the same.  A threshold of
    zero does not admit nothing: it admits exactly what 0.8 admits. *)
Theorem wider_threshold_admits_more `{Runtime} (embedding : Vector)
  (f : SearchFilters) (t1 t2 : Q) (lower upper : string) (inc : Incident) :
  ~ (t1 == 0)%Q -> ~ (t2 == 0)%Q -> (t1 <= t2)%Q ->
  (matchesSearch embedding (Some (with_threshold f t1)) lower upper inc = true ->
   matchesSearch embedding (Some (with_threshold f t2)) lower upper inc = true)
  /\ matchesSearch embedding (Some (with_threshold f 0)) lower upper inc
     = matchesSearch embedding (Some (with_threshold f (8 # 10))) lower upper
         inc.
Proof.
  intros H1 H2 Hle. unfold matchesSearch.
  cbn [effectiveThreshold with_threshold similarityThreshold mbind
       option_bind categories startDate endDate].
  destruct (Qeq_bool t1 0) eqn:E1;
    [apply Qeq_bool_iff in E1; contradiction|].
  destruct (Qeq_bool t2 0) eqn:E2;
    [apply Qeq_bool_iff in E2; contradiction|].
  split; [|reflexivity].
  destruct (title_vector inc) as [v|]; [|discriminate].
  rewrite !andb_true_iff. intros [[[Hd Hc] Hs] He].
  repeat split; try assumption.
  apply negb_true_iff in Hd. apply negb_true_iff.
  destruct (Qle_bool t2 (cosine_distance v embedding)) eqn:E; [|reflexivity].
  apply Qle_bool_iff in E.
  assert (Hle' : (t1 <= cosine_distance v embedding)%Q)
    by (eapply Qle_trans; eassumption).
  apply Qle_bool_iff in Hle'. congruence.
Qed.

Lemma wider_threshold_admits_more_witness :
  let f := {| categories := None; startDate := None; endDate := None;
              similarityThreshold := None |} in
  let inc := stored 1 [0.5; 0.5]%float noon_2024_06_15 in
  @matchesSearch dev_runtime [1; 0]%float (Some (with_threshold f (6 # 10)))
    "2024-06-14T00:00:00.000Z" "2024-06-16T23:59:59.999Z" inc
  = true
  /\ @matchesSearch dev_runtime [1; 0]%float (Some (with_threshold f (9 # 10)))
       "2024-06-14T00:00:00.000Z" "2024-06-16T23:59:59.999Z" inc
     = true.
Proof.
  cbv zeta.
  assert (E : @matchesSearch dev_runtime [1; 0]%float
                (Some (with_threshold
                         {| categories := None; startDate := None;
                            endDate := None; similarityThreshold := None |}
                         (6 # 10)))
                "2024-06-14T00:00:00.000Z" "2024-06-16T23:59:59.999Z"
                (stored 1 [0.5; 0.5]%float noon_2024_06_15) = true)
    by (vm_compute; reflexivity).
  split; [exact E|].
  refine (proj1 (@wider_threshold_admits_more dev_runtime [1; 0]%float _
                   (6 # 10) (9 # 10) _ _ _ _ _ _) E).
  - intros H0. discriminate H0.
  - intros H0. discriminate H0.
  - intros H0. discriminate H0.
Defined.

(** ** The search endpoint *)


(** The three ways the endpoint throws on the development server: the
    fallback vector of a query whose hash is 0 has no finite component, the
    fallback vector of any query has 384 components where the stored ones
    have two, and ["yesterday"] is not a date. *)
Lemma semanticSearch_endpoint_throws :
  simpleHash "f5a5a608" = 0
  /\ fst (@IncidentsController.semanticSearch dev_runtime "f5a5a608" None None
            (world_of recent_store))
     = Thrown "NaN not allowed in vector"%string
  /\ fst (@IncidentsController.semanticSearch dev_runtime "burglary" None None
            (world_of recent_store))
     = Thrown "different vector dimensions"%string
  /\ fst (@IncidentsController.semanticSearch dev_runtime "burglary" None
            (Some {| categories := None; startDate := Some "yesterday"%string;
                     endDate := None; similarityThreshold := None |})
            (world_of recent_store))
     = Thrown "Invalid time value"%string.
Proof. repeat split; vm_compute; reflexivity. Qed.

(** ** A server without a provider *)

Section Offline.
Context `{Runtime}.
Hypothesis no_provider : openai = None.

Lemma generateEmbedding_offline (text : string) (w : World) :
  let w' := snd (generateEmbedding text w) in
  embeddingCache w' = embeddingCache w /\ api_requests w' = api_requests w.
Proof.
  cbv zeta. unfold generateEmbedding.
  destruct (hasText text); cbn [negb]; [|split; reflexivity].
  destruct (embeddingCache w !! createCacheKey text); [split; reflexivity|].
  rewrite no_provider. unfold try_catch.
  cbn [mock generateMockEmbedding]. split; reflexivity.
Qed.

Lemma finishBatch_offline (p : Pending) (w : World) :
  let w' := snd (finishBatch p w) in
  embeddingCache w' = embeddingCache w /\ api_requests w' = api_requests w.
Proof.
  cbv zeta. unfold finishBatch.
  destruct (0 <? length (uncached p))%nat; [|split; reflexivity].
  rewrite no_provider.
  pose proof (mockFill_cache (uncached p) (results p) w) as Hc.
  pose proof (mockFill_counters (uncached p) (results p) w) as (Ha & _).
  destruct (mockFill (uncached p) (results p) w) as [rs w'].
  cbn [snd] in *. split; assumption.
Qed.

Lemma resume_offline (call : option Pending) (w : World) :
  let w' := snd (resume call w) in
  embeddingCache w' = embeddingCache w /\ api_requests w' = api_requests w.
Proof.
  destruct call as [p|]; [apply finishBatch_offline | split; reflexivity].
Qed.

Lemma processSingleBatch_offline (batch : list Incident) (w : World) :
  let w' := snd (processSingleBatch batch w) in
  embeddingCache w' = embeddingCache w /\ api_requests w' = api_requests w.
Proof.
  cbv zeta. unfold processSingleBatch, bind.
  match goal with
  | |- context [resume ?c w] =>
      pose proof (resume_offline c w) as (C1 & A1);
        destruct (resume c w) as [r1 w1]
  end.
  cbn [snd] in C1, A1.
  destruct r1 as [rs1|e|]; cbn [snd]; try (split; assumption).
  match goal with
  | |- context [resume ?c w1] =>
      pose proof (resume_offline c w1) as (C2 & A2);
        destruct (resume c w1) as [r2 w2]
  end.
  cbn [snd] in C2, A2.
  destruct r2 as [rs2|e|]; cbn [snd]; try (split; congruence).
  match goal with
  | |- context [pushUpdates SetTitleVector ?e ?i ?n w2] =>
      pose proof (pushUpdates_cache SetTitleVector e n i w2) as C3;
        pose proof (pushUpdates_counters SetTitleVector e n i w2)
          as (A3 & _);
        destruct (pushUpdates SetTitleVector e i n w2) as [o1 w3]
  end.
  match goal with
  | |- context [pushUpdates SetDescriptionVector ?e ?i ?n w3] =>
      pose proof (pushUpdates_cache SetDescriptionVector e n i w3) as C4;
        pose proof (pushUpdates_counters SetDescriptionVector e n i w3)
          as (A4 & _);
        destruct (pushUpdates SetDescriptionVector e i n w3) as [o2 w4]
  end.
  cbn [snd] in *. split; congruence.
Qed.

Lemma runBatches_offline (batches : list (list Incident)) : forall w,
  let w' := snd (runBatches batches w) in
  embeddingCache w' = embeddingCache w /\ api_requests w' = api_requests w.
Proof.
  induction batches as [|batch rest IH]; intros w; cbv zeta;
    cbn [runBatches]; [auto|].
  pose proof (processSingleBatch_offline batch w) as (C1 & A1).
  destruct (processSingleBatch batch w) as [r w1]. cbn [snd] in *.
  pose proof (IH w1) as (C2 & A2).
  destruct (runBatches rest w1) as [os w2]. cbn [snd] in *.
  split; congruence.
Qed.

Lemma processBatchEmbeddings_offline (incidents : list Incident) (w : World) :
  let w' := snd (processBatchEmbeddings incidents w) in
  embeddingCache w' = embeddingCache w /\ api_requests w' = api_requests w.
Proof.
  cbv zeta.
  destruct (processBatchEmbeddings_trace incidents w)
    as (c & w' & outcomes & E & Hr & _).
  rewrite E. cbn [snd].
  pose proof (runBatches_offline (subBatches (length incidents) incidents 0) w)
    as Hc.
  now rewrite Hr in Hc.
Qed.
End Offline.

(** X23: on a server without a provider nothing is ever cached.
    [generateEmbedding], [generateBatchEmbeddings] and a backfill leave the
    cache as it was, so [getCacheStats] reports the same size and memory
    before and after, and no request is counted. *)
Theorem without_provider_nothing_is_cached `{Runtime} (w : World) :
  openai = None ->
  (forall text,
     getCacheStats (snd (generateEmbedding text w)) = getCacheStats w
     /\ api_requests (snd (generateEmbedding text w)) = api_requests w)
  /\ (forall texts,
        getCacheStats (snd (generateBatchEmbeddings texts w)) = getCacheStats w
        /\ api_requests (snd (generateBatchEmbeddings texts w))
           = api_requests w)
  /\ (forall incidents,
        getCacheStats (snd (processBatchEmbeddings incidents w))
        = getCacheStats w
        /\ api_requests (snd (processBatchEmbeddings incidents w))
           = api_requests w).
Proof.
  intros Ho. unfold getCacheStats. split; [|split].
  - intros text.
    destruct (generateEmbedding_offline Ho text w) as [-> ->]. auto.
  - intros texts. unfold generateBatchEmbeddings.
    destruct (beginBatch texts w) as [p|]; [|auto].
    destruct (finishBatch_offline Ho p w) as [-> ->]. auto.
  - intros incidents.
    destruct (processBatchEmbeddings_offline Ho incidents w) as [-> ->]. auto.
Qed.

Lemma without_provider_nothing_is_cached_witness :
  getCacheStats
    (snd (@processBatchEmbeddings dev_runtime (backlog 3 7)
            (world_of (backlog 3 7))))
  = {| cache_size := 0; memoryUsage := 0 |}.
Proof.
  destruct (@without_provider_nothing_is_cached dev_runtime
              (world_of (backlog 3 7)) eq_refl) as (_ & _ & Hb).
  destruct (Hb (backlog 3 7)) as [-> _]. reflexivity.
Defined.

(** ** The relationship graph *)

Lemma find_app_first {B : Type} (f : B -> bool) (l1 l2 : list B) :
  find f (l1 ++ l2)
  = match find f l1 with Some x => Some x | None => find f l2 end.
Proof.
  induction l1 as [|x l1 IH]; [reflexivity|].
  cbn [app find]. now destruct (f x).
Qed.

Section MapFacts.
Context {A : Type}.

Lemma Map_has_In (m : JSMap A) (key : string) :
  Map_has m key = true <-> In key (map fst m).
Proof.
  unfold Map_has. rewrite existsb_exists, in_map_iff. split.
  - intros (kv & Hin & E). apply String.eqb_eq in E. eauto.
  - intros (kv & E & Hin). exists kv. split; [exact Hin|].
    now apply String.eqb_eq.
Qed.

Lemma Map_has_get (m : JSMap A) (key : string) :
  Map_has m key = true <-> exists v, Map_get m key = Some v.
Proof.
  unfold Map_has, Map_get. induction m as [|kv m IH]; cbn [existsb find].
  - split; [discriminate | intros (v & E); discriminate].
  - destruct (String.eqb (fst kv) key); cbn [orb].
    + split; [eauto | reflexivity].
    + exact IH.
Qed.

Lemma Map_set_keys (m : JSMap A) (key : string) (value : A) :
  map fst (Map_set m key value)
  = if Map_has m key then map fst m else map fst m ++ [key].
Proof.
  unfold Map_set. destruct (Map_has m key).
  - rewrite map_map. apply map_ext_in. intros kv _.
    destruct (String.eqb (fst kv) key) eqn:E; [|reflexivity].
    apply String.eqb_eq in E. now rewrite E.
  - now rewrite map_app.
Qed.

Lemma Map_set_has (m : JSMap A) (key : string) (value : A) (key' : string) :
  Map_has (Map_set m key value) key'
  = Map_has m key' || String.eqb key key'.
Proof.
  apply eq_true_iff_eq. rewrite orb_true_iff, !Map_has_In, Map_set_keys.
  rewrite String.eqb_eq.
  destruct (Map_has m key) eqn:E.
  - split; [tauto|]. intros [Hin | <-]; [exact Hin|].
    now apply Map_has_In.
  - rewrite in_app_iff. cbn [In]. tauto.
Qed.

Lemma Map_get_replace_ne (m : JSMap A) (key : string) (value : A)
  (key' : string) :
  String.eqb key key' = false ->
  Map_get (map (fun kv => if String.eqb (fst kv) key then (key, value) else kv)
               m) key'
  = Map_get m key'.
Proof.
  intros Hne. unfold Map_get. induction m as [|kv m IH]; [reflexivity|].
  cbn [map find]. destruct (String.eqb (fst kv) key) eqn:E.
  - apply String.eqb_eq in E. cbn [fst]. rewrite E, Hne. exact IH.
  - destruct (String.eqb (fst kv) key'); [reflexivity | exact IH].
Qed.

Lemma Map_get_replace_eq (m : JSMap A) (key : string) (value : A) :
  Map_has m key = true ->
  Map_get (map (fun kv => if String.eqb (fst kv) key then (key, value) else kv)
               m) key
  = Some value.
Proof.
  unfold Map_has, Map_get. induction m as [|kv m IH]; [discriminate|].
  cbn [existsb map find]. destruct (String.eqb (fst kv) key) eqn:E.
  - cbn [fst]. now rewrite String.eqb_refl.
  - rewrite E. exact IH.
Qed.

Lemma Map_get_set (m : JSMap A) (key : string) (value : A) (key' : string) :
  Map_get (Map_set m key value) key'
  = if String.eqb key key' then Some value else Map_get m key'.
Proof.
  unfold Map_set. destruct (Map_has m key) eqn:Eh.
  - destruct (String.eqb key key') eqn:E'.
    + apply String.eqb_eq in E'. subst key'. now apply Map_get_replace_eq.
    + now apply Map_get_replace_ne.
  - unfold Map_get. rewrite find_app_first.
    destruct (find _ m) as [kv|] eqn:Ef.
    + destruct (String.eqb key key') eqn:E'; [|reflexivity].
      apply String.eqb_eq in E'. subst key'.
      apply find_some in Ef as [Hin Ek].
      assert (Hh : Map_has m key = true).
      { unfold Map_has. apply existsb_exists. eauto. }
      congruence.
    + cbn [find fst]. now destruct (String.eqb key key').
Qed.
End MapFacts.

Lemma Set_add_In (s : list string) (x y : string) :
  In y (Set_add s x) <-> In y s \/ y = x.
Proof.
  unfold Set_add. destruct (existsb (String.eqb x) s) eqn:E.
  - split; [tauto|]. intros [Hin | ->]; [exact Hin|].
    apply existsb_exists in E as (z & Hz & Ez).
    apply String.eqb_eq in Ez. now subst.
  - rewrite in_app_iff. cbn [In]. intuition.
Qed.

Lemma append_inj (p a b : string) : p +:+ a = p +:+ b -> a = b.
Proof.
  induction p as [|c p IH]; cbn; [tauto|]. intros E. injection E as E. auto.
Qed.

Lemma incident_not_entity (x y : string) :
  "incident_" +:+ x <> "entity_" +:+ y.
Proof. cbn. discriminate. Qed.

(** *** The three locals evolve independently *)

Lemma forEach_visitEntity (incidentNodeId : string) (all : list Entity)
  (l : list Entity) : forall st,
  forEach (visitEntity incidentNodeId all) l st
  = match forEach (connectEntity all) l (entityConnections st) with
    | Some connections =>
        Some {| nodes := fold_left addNode (map entityNode l) (nodes st);
                edges :=
                  edges st
                  ++ map (fun entity =>
                            containsEdge incidentNodeId
                                         ("entity_" +:+ entity_id entity)) l;
                entityConnections := connections |}
    | None => None
    end.
Proof.
  induction l as [|entity l IH]; intros st.
  - cbn [forEach map fold_left]. rewrite app_nil_r. now destruct st.
  - cbn [forEach map fold_left]. unfold visitEntity at 1, connectEntity at 1.
    destruct (forEach (addConnection entity) all _) as [connections|];
      [|reflexivity].
    rewrite IH. cbn [nodes edges entityConnections].
    destruct (forEach (connectEntity all) l connections); [|reflexivity].
    now rewrite <- app_assoc.
Qed.

Lemma forEach_visitIncident (l : list JoinedIncident) : forall st,
  forEach visitIncident l st
  = match forEach connectIncident l (entityConnections st) with
    | Some connections =>
        Some {| nodes := fold_left addNode (flat_map nodesOf l) (nodes st);
                edges := edges st ++ flat_map containsEdges l;
                entityConnections := connections |}
    | None => None
    end.
Proof.
  induction l as [|inc l IH]; intros st.
  - cbn [forEach flat_map fold_left]. rewrite app_nil_r. now destruct st.
  - cbn [forEach flat_map]. unfold visitIncident at 1, connectIncident at 1.
    unfold nodesOf at 1, containsEdges at 1.
    rewrite fold_left_app. cbn [fold_left].
    destruct (entities inc) as [ents|].
    + change (default [] (Some ents)) with ents.
      rewrite forEach_visitEntity. cbn [nodes edges entityConnections].
      destruct (forEach (connectEntity ents) ents _) as [connections|];
        [|reflexivity].
      rewrite IH. cbn [nodes edges entityConnections].
      destruct (forEach connectIncident l connections); [|reflexivity].
      now rewrite <- app_assoc.
    + change (default [] (@None (list Entity))) with (@nil Entity).
      cbn [forEach map fold_left app]. rewrite IH.
      cbn [nodes edges entityConnections]. reflexivity.
Qed.

(** *** The co-occurrence sets *)

Lemma connected_set (connections : JSMap (list string)) (key : string)
  (s : list string) (x y : string) :
  connected (Map_set connections key s) x y
  <-> (x = key /\ In y s) \/ (x <> key /\ connected connections x y).
Proof.
  unfold connected. setoid_rewrite Map_get_set.
  destruct (String.eqb key x) eqn:E.
  - apply String.eqb_eq in E. subst x. split.
    + intros (s' & Es & Hin). injection Es as <-. now left.
    + intros [[_ Hin] | [Hne _]]; [eauto | congruence].
  - apply String.eqb_neq in E. split.
    + intros H. right. split; [congruence | exact H].
    + intros [[-> _] | [_ H]]; [congruence | exact H].
Qed.

Lemma addConnection_loop (entity : Entity) (others : list Entity) :
  forall connections,
    Map_has connections (entity_id entity) = true ->
    exists connections',
      forEach (addConnection entity) others connections = Some connections'
      /\ (forall key, Map_has connections' key = Map_has connections key)
      /\ (forall x y,
            connected connections' x y
            <-> connected connections x y
                \/ (x = entity_id entity /\ y <> x
                    /\ In y (map entity_id others))).
Proof.
  induction others as [|other others IH]; intros connections Hhas.
  - exists connections. cbn [forEach map In]. split; [reflexivity|].
    split; [reflexivity|]. tauto.
  - cbn [forEach]. unfold addConnection at 1.
    destruct (String.eqb (entity_id entity) (entity_id other)) eqn:E.
    + apply String.eqb_eq in E.
      destruct (IH connections Hhas) as (c' & Ec & Hk & Hc).
      exists c'. split; [exact Ec|]. split; [exact Hk|].
      intros x y. rewrite Hc. cbn [map In]. split; [tauto|].
      intros [H | (Hx & Hy & [Ho | Hin])]; [tauto | | tauto].
      subst. congruence.
    + apply String.eqb_neq in E.
      destruct (proj1 (Map_has_get connections (entity_id entity)) Hhas)
        as (s & Es).
      rewrite Es.
      set (c1 := Map_set connections (entity_id entity)
                         (Set_add s (entity_id other))).
      assert (Hk1 : forall key, Map_has c1 key = Map_has connections key).
      { intros key. unfold c1. rewrite Map_set_has.
        destruct (String.eqb (entity_id entity) key) eqn:Ek.
        - apply String.eqb_eq in Ek. subst key. rewrite Hhas. reflexivity.
        - apply orb_false_r. }
      destruct (IH c1) as (c' & Ec & Hk & Hc); [now rewrite Hk1|].
      exists c'. split; [exact Ec|]. split.
      { intros key. now rewrite Hk, Hk1. }
      intros x y. rewrite Hc. unfold c1. rewrite connected_set, Set_add_In.
      cbn [map In].
      assert (Hs : x = entity_id entity ->
                   connected connections x y <-> In y s).
      { intros ->. unfold connected. rewrite Es. split.
        - intros (s' & E' & Hin). now injection E' as <-.
        - eauto. }
      destruct (String.eqb x (entity_id entity)) eqn:Ex.
      * apply String.eqb_eq in Ex. specialize (Hs Ex). subst x.
        split.
        -- intros [[[_ [Hin | ->]] | [Hne _]] | H]; try tauto.
           right. repeat split; auto.
        -- intros [H | (_ & Hy & [Ho | Hin])]; try tauto.
           left. left. split; [reflexivity|]. right. congruence.
      * apply String.eqb_neq in Ex. tauto.
Qed.

Lemma connectEntity_spec (all : list Entity)
  (connections : JSMap (list string)) (entity : Entity) :
  exists connections',
    connectEntity all connections entity = Some connections'
    /\ (forall x y,
          connected connections' x y
          <-> connected connections x y
              \/ (x = entity_id entity /\ y <> x
                  /\ In y (map entity_id all))).
Proof.
  unfold connectEntity.
  destruct (Map_has connections (entity_id entity)) eqn:Hhas.
  - destruct (addConnection_loop entity all connections Hhas)
      as (c' & Ec & _ & Hc).
    eauto.
  - destruct (addConnection_loop entity all
                (Map_set connections (entity_id entity) []))
      as (c' & Ec & _ & Hc).
    { rewrite Map_set_has, String.eqb_refl. apply orb_true_r. }
    exists c'. split; [exact Ec|]. intros x y. rewrite Hc, connected_set.
    cbn [In].
    assert (Hnone : ~ connected connections (entity_id entity) y).
    { intros (s & Es & _).
      assert (Map_has connections (entity_id entity) = true)
        by (apply Map_has_get; eauto).
      congruence. }
    split.
    + intros [[[_ []] | [_ H]] | H]; tauto.
    + intros [H | H]; [|tauto]. left. right. split; [|exact H].
      intros ->. contradiction.
Qed.

Lemma connectEntity_loop (all : list Entity) (l : list Entity) :
  forall connections,
    exists connections',
      forEach (connectEntity all) l connections = Some connections'
      /\ (forall x y,
            connected connections' x y
            <-> connected connections x y
                \/ (In x (map entity_id l) /\ y <> x
                    /\ In y (map entity_id all))).
Proof.
  induction l as [|entity l IH]; intros connections.
  - exists connections. cbn [forEach map In]. split; [reflexivity|]. tauto.
  - cbn [forEach].
    destruct (connectEntity_spec all connections entity) as (c1 & -> & H1).
    destruct (IH c1) as (c' & Ec & Hc).
    exists c'. split; [exact Ec|]. intros x y. rewrite Hc, H1.
    cbn [map In]. split.
    + intros [[H | (-> & H)] | H]; tauto.
    + intros [H | ([<- | H] & H')]; tauto.
Qed.

Lemma connectIncident_loop (l : list JoinedIncident) :
  forall connections,
    exists connections',
      forEach connectIncident l connections = Some connections'
      /\ (forall x y,
            connected connections' x y
            <-> connected connections x y \/ coOccur l x y).
Proof.
  induction l as [|inc l IH]; intros connections.
  - exists connections. cbn [forEach]. split; [reflexivity|].
    unfold coOccur. intros x y. split; [tauto|].
    intros [H | (_ & inc & [] & _)]. exact H.
  - cbn [forEach]. unfold connectIncident at 1.
    destruct (connectEntity_loop (default [] (entities inc))
                (default [] (entities inc)) connections) as (c1 & -> & H1).
    destruct (IH c1) as (c' & Ec & Hc).
    exists c'. split; [exact Ec|]. intros x y. rewrite Hc, H1.
    unfold coOccur, entityIds. cbn [In]. split.
    + intros [[H | (Hx & Hy & Hin)] | (Hne & i & Hi & Hx & Hy)].
      * tauto.
      * right. split; [congruence|]. exists inc. tauto.
      * right. split; [exact Hne|]. exists i. tauto.
    + intros [H | (Hne & i & [<- | Hi] & Hx & Hy)].
      * tauto.
      * left. right. repeat split; auto.
      * right. split; [exact Hne|]. exists i. tauto.
Qed.

(** *** The keys of [entityConnections] *)

Lemma forEach_preserves {S A : Type} (P : S -> Prop)
  (body : S -> A -> option S) (l : list A) :
  (forall s x s', P s -> body s x = Some s' -> P s') ->
  forall s s', P s -> forEach body l s = Some s' -> P s'.
Proof.
  intros Hstep. induction l as [|x l IH]; intros s s' Hs E; cbn [forEach] in E.
  - now injection E as <-.
  - destruct (body s x) as [s1|] eqn:E1; [|discriminate]. eauto.
Qed.

Lemma Map_set_NoDup {A : Type} (m : JSMap A) (key : string) (value : A) :
  List.NoDup (map fst m) -> List.NoDup (map fst (Map_set m key value)).
Proof.
  intros Hnd. rewrite Map_set_keys. destruct (Map_has m key) eqn:E;
    [exact Hnd|].
  apply NoDup_ListNoDup, NoDup_app. apply NoDup_ListNoDup in Hnd.
  split; [exact Hnd|]. split; [|apply NoDup_singleton].
  intros x Hx Hx'. apply list_elem_of_In in Hx. apply list_elem_of_In in Hx'.
  destruct Hx' as [<- | []].
  apply Map_has_In in Hx. congruence.
Qed.

Lemma connectIncident_NoDup (l : list JoinedIncident)
  (connections connections' : JSMap (list string)) :
  List.NoDup (map fst connections) ->
  forEach connectIncident l connections = Some connections' ->
  List.NoDup (map fst connections').
Proof.
  apply (forEach_preserves (fun c => List.NoDup (map fst c))).
  intros c inc c'. unfold connectIncident.
  apply (forEach_preserves (fun c => List.NoDup (map fst c))).
  clear c c'. intros c entity c' Hnd. unfold connectEntity.
  apply (forEach_preserves (fun c => List.NoDup (map fst c))).
  - clear c c' Hnd. intros c other c' Hnd. unfold addConnection.
    destruct (String.eqb _ _); [now intros [= <-]|].
    destruct (Map_get c (entity_id entity)); [|discriminate].
    intros [= <-]. now apply Map_set_NoDup.
  - destruct (Map_has c (entity_id entity)); [exact Hnd|].
    now apply Map_set_NoDup.
Qed.

Lemma Map_get_In {A : Type} (m : JSMap A) (key : string) (value : A) :
  List.NoDup (map fst m) ->
  In (key, value) m <-> Map_get m key = Some value.
Proof.
  unfold Map_get. induction m as [|kv m IH]; intros Hnd.
  - cbn. split; [tauto | discriminate].
  - cbn [map] in Hnd. apply List.NoDup_cons_iff in Hnd as [Hnotin Hnd].
    cbn [In find]. destruct (String.eqb (fst kv) key) eqn:E.
    + apply String.eqb_eq in E. cbn [fmap option_fmap option_map]. split.
      * intros [-> | Hin]; [reflexivity|].
        exfalso. apply Hnotin. rewrite E.
        apply in_map_iff. now exists (key, value).
      * intros [= <-]. left. destruct kv. cbn in E. now subst.
    + apply String.eqb_neq in E. rewrite <- (IH Hnd). split.
      * intros [-> | Hin]; [now cbn in E | exact Hin].
      * tauto.
Qed.

Lemma connectionPairs_connected (connections : JSMap (list string))
  (a b : string) :
  List.NoDup (map fst connections) ->
  In (a, b) (connectionPairs connections) <-> connected connections a b.
Proof.
  intros Hnd. unfold connectionPairs, connected. rewrite in_flat_map. split.
  - intros ([k s] & Hin & Hp). cbn [fst snd] in Hp.
    apply in_map_iff in Hp as (y & [= <- <-] & Hy).
    exists s. split; [now apply Map_get_In | exact Hy].
  - intros (s & Es & Hb). exists (a, s). split; [now apply Map_get_In|].
    cbn [fst snd]. now apply in_map.
Qed.

Lemma coOccurrences_pairs (connections : JSMap (list string)) :
  forall es,
    coOccurrences connections es
    = fold_left (fun es ab => linkEntities (fst ab) es (snd ab))
                (connectionPairs connections) es.
Proof.
  unfold coOccurrences, connectionPairs.
  induction connections as [|[k s] m IH]; intros es; [reflexivity|].
  cbn [fold_left flat_map fst snd]. rewrite fold_left_app, IH. f_equal.
  clear IH. revert es. induction s as [|b s IHs]; intros es; [reflexivity|].
  cbn [map fold_left fst snd]. apply IHs.
Qed.

(** *** The co-occurrence edges *)

Lemma joins_existsb (a b : string) (es : list Edge) :
  existsb
    (fun e =>
       String.eqb (edge_source e) ("entity_" +:+ a)
       && String.eqb (edge_target e) ("entity_" +:+ b)
       || String.eqb (edge_source e) ("entity_" +:+ b)
          && String.eqb (edge_target e) ("entity_" +:+ a))
    es = true
  <-> exists e, In e es /\ joins e a b.
Proof.
  rewrite existsb_exists. unfold joins.
  split; intros (e & Hin & H); exists e; (split; [exact Hin|]).
  - rewrite orb_true_iff, !andb_true_iff, !String.eqb_eq in H. exact H.
  - rewrite orb_true_iff, !andb_true_iff, !String.eqb_eq. exact H.
Qed.

Lemma joins_coOccursEdge (e : Edge) (a b : string) :
  sameEnds e (coOccursEdge ("entity_" +:+ a) ("entity_" +:+ b))
  <-> joins e a b.
Proof. unfold sameEnds, joins. cbn [coOccursEdge edge_source edge_target]. tauto. Qed.

Lemma ForallOrdPairs_snoc {A : Type} (R : A -> A -> Prop) (l : list A)
  (x : A) :
  ForallOrdPairs R l -> (forall y, In y l -> R y x) ->
  ForallOrdPairs R (l ++ [x]).
Proof.
  induction 1 as [|a l Ha Hl IH]; intros Hx; cbn [app].
  - constructor; constructor.
  - constructor.
    + apply List.Forall_app. split; [exact Ha|].
      constructor; [|constructor]. apply Hx. now left.
    + apply IH. intros y Hy. apply Hx. now right.
Qed.

Lemma linkEntities_loop (es0 : list Edge) (ps : list (string * string)) :
  (forall e a b, In e es0 -> ~ joins e a b) ->
  forall co,
    ForallOrdPairs (fun e e' => ~ sameEnds e e') co ->
    exists co',
      fold_left (fun es ab => linkEntities (fst ab) es (snd ab)) ps
                (es0 ++ co)
      = es0 ++ co'
      /\ ForallOrdPairs (fun e e' => ~ sameEnds e e') co'
      /\ (forall e, In e co' ->
            In e co
            \/ exists a b,
                 In (a, b) ps
                 /\ e = coOccursEdge ("entity_" +:+ a) ("entity_" +:+ b))
      /\ (forall e, In e co -> In e co')
      /\ (forall a b, In (a, b) ps -> exists e, In e co' /\ joins e a b).
Proof.
  intros Hes0. induction ps as [|[a b] ps IH]; intros co Hco.
  - exists co. cbn [fold_left In]. repeat split; auto. intros a b [].
  - cbn [fold_left fst snd]. unfold linkEntities at 2.
    destruct (existsb _ (es0 ++ co)) eqn:E.
    + apply joins_existsb in E as (e0 & Hin0 & Hj0).
      apply in_app_iff in Hin0 as [Hin0 | Hin0];
        [destruct (Hes0 e0 a b Hin0 Hj0)|].
      destruct (IH co Hco) as (co' & Ef & Hp & Hfrom & Hkeep & Hcover).
      exists co'. split; [exact Ef|]. split; [exact Hp|]. split; [|split].
      * intros e He. destruct (Hfrom e He) as [H | (a' & b' & Hin & ->)];
          [now left|].
        right. exists a', b'. split; [now right | reflexivity].
      * exact Hkeep.
      * intros a' b' [[= <- <-] | Hin]; [eauto | now apply Hcover].
    + assert (Hnone : forall e, In e (es0 ++ co) -> ~ joins e a b).
      { intros e He Hj.
        assert (Ht : existsb
                  (fun e =>
                     String.eqb (edge_source e) ("entity_" +:+ a)
                     && String.eqb (edge_target e) ("entity_" +:+ b)
                     || String.eqb (edge_source e) ("entity_" +:+ b)
                        && String.eqb (edge_target e) ("entity_" +:+ a))
                  (es0 ++ co) = true)
          by (apply joins_existsb; eauto).
        congruence. }
      rewrite <- app_assoc.
      set (new := coOccursEdge ("entity_" +:+ a) ("entity_" +:+ b)).
      destruct (IH (co ++ [new])) as (co' & Ef & Hp & Hfrom & Hkeep & Hcover).
      { apply ForallOrdPairs_snoc; [exact Hco|].
        intros y Hy Hs. apply joins_coOccursEdge in Hs.
        apply (Hnone y); [|exact Hs]. apply in_or_app. now right. }
      exists co'. split; [exact Ef|]. split; [exact Hp|]. split; [|split].
      * intros e He. destruct (Hfrom e He) as [H | (a' & b' & Hin & ->)].
        -- apply in_app_iff in H as [H | [<- | []]]; [now left|].
           right. exists a, b. split; [now left | reflexivity].
        -- right. exists a', b'. split; [now right | reflexivity].
      * intros e He. apply Hkeep, in_or_app. now left.
      * intros a' b' [[= <- <-] | Hin]; [|now apply Hcover].
        exists new. split.
        -- apply Hkeep, in_or_app. right. now left.
        -- left. split; reflexivity.
Qed.

(** *** The nodes *)

Lemma addNode_loop (l : list Node) : forall m,
  List.NoDup (map fst m) -> keyed m ->
  List.NoDup (map fst (fold_left addNode l m))
  /\ keyed (fold_left addNode l m)
  /\ (forall key, In key (map fst (fold_left addNode l m))
                  <-> In key (map fst m) \/ In key (map node_id l)).
Proof.
  induction l as [|n l IH]; intros m Hnd Hk; cbn [fold_left map In].
  - repeat split; tauto.
  - assert (H1 : List.NoDup (map fst (addNode m n)) /\ keyed (addNode m n)
                 /\ forall key, In key (map fst (addNode m n))
                                <-> In key (map fst m) \/ node_id n = key).
    { unfold addNode. destruct (Map_has m (node_id n)) eqn:E.
      - split; [exact Hnd|]. split; [exact Hk|]. intros key.
        split; [tauto|]. intros [H | <-]; [exact H|]. now apply Map_has_In.
      - split; [now apply Map_set_NoDup|]. split.
        + unfold Map_set. rewrite E. intros key n' Hin.
          apply in_app_iff in Hin as [Hin | [[= <- <-] | []]];
            [now apply Hk | reflexivity].
        + intros key. rewrite Map_set_keys, E, in_app_iff. cbn [In]. tauto. }
    destruct H1 as (Hnd1 & Hk1 & Hin1).
    destruct (IH (addNode m n) Hnd1 Hk1) as (Hnd2 & Hk2 & Hin2).
    split; [exact Hnd2|]. split; [exact Hk2|].
    intros key. rewrite Hin2, Hin1. tauto.
Qed.

Lemma keyed_ids (m : JSMap Node) :
  keyed m -> map node_id (map snd m) = map fst m.
Proof.
  intros Hk. rewrite map_map. apply map_ext_in. intros [key n] Hin.
  cbn [fst snd]. now apply Hk.
Qed.

Lemma nodesOf_ids (incidents : list JoinedIncident) (key : string) :
  In key (map node_id (flat_map nodesOf incidents))
  <-> nodeIdOf incidents key.
Proof.
  unfold nodeIdOf, entityIds. rewrite in_map_iff. split.
  - intros (n & <- & Hn). apply in_flat_map in Hn as (inc & Hinc & Hn).
    exists inc. split; [exact Hinc|]. unfold nodesOf in Hn.
    destruct Hn as [<- | Hn]; [now left|].
    apply in_map_iff in Hn as (e & <- & He). right.
    exists (entity_id e). split; [now apply in_map | reflexivity].
  - intros (inc & Hinc & [-> | (a & Ha & ->)]).
    + exists (incidentNode inc). split; [reflexivity|].
      apply in_flat_map. exists inc. split; [exact Hinc | now left].
    + apply in_map_iff in Ha as (e & <- & He).
      exists (entityNode e). split; [reflexivity|].
      apply in_flat_map. exists inc. split; [exact Hinc|].
      right. now apply in_map.
Qed.

Lemma containsEdges_ends (incidents : list JoinedIncident) (e : Edge) :
  In e (flat_map containsEdges incidents) ->
  (exists inc a,
      In inc incidents /\ In a (entityIds inc)
      /\ edge_source e = "incident_" +:+ id (incident inc)
      /\ edge_target e = "entity_" +:+ a)
  /\ edge_type e = "contains"%string.
Proof.
  intros He. apply in_flat_map in He as (inc & Hinc & He).
  unfold containsEdges in He. apply in_map_iff in He as (x & <- & Hx).
  split; [|reflexivity]. exists inc, (entity_id x).
  repeat split; auto. unfold entityIds. now apply in_map.
Qed.

(** *** The whole call *)

Lemma getEntityRelationships_spec (incidents : list JoinedIncident) :
  exists g co,
    getEntityRelationships incidents = Returned g
    /\ graph_edges g = flat_map containsEdges incidents ++ co
    /\ (forall e, In e co ->
          exists a b,
            coOccur incidents a b
            /\ e = coOccursEdge ("entity_" +:+ a) ("entity_" +:+ b))
    /\ (forall a b, coOccur incidents a b -> exists e, In e co /\ joins e a b)
    /\ ForallOrdPairs (fun e e' => ~ sameEnds e e') co
    /\ List.NoDup (map node_id (graph_nodes g))
    /\ (forall key, In key (map node_id (graph_nodes g))
                    <-> nodeIdOf incidents key)
    /\ totalNodes (graph_stats g) = length (graph_nodes g)
    /\ totalEdges (graph_stats g) = length (graph_edges g)
    /\ (incidentNodes (graph_stats g) + entityNodes (graph_stats g))%nat
       = totalNodes (graph_stats g).
Proof.
  unfold getEntityRelationships. rewrite forEach_visitIncident.
  cbn [nodes edges entityConnections app].
  destruct (connectIncident_loop incidents []) as (c & Ec & Hc).
  rewrite Ec.
  assert (Hnd : List.NoDup (map fst c)).
  { eapply connectIncident_NoDup; [|exact Ec]. constructor. }
  assert (Hrel : forall a b, In (a, b) (connectionPairs c)
                             <-> coOccur incidents a b).
  { intros a b. rewrite connectionPairs_connected by exact Hnd.
    rewrite Hc. split; [|tauto].
    intros [(s & Es & _) | H]; [discriminate | exact H]. }
  rewrite coOccurrences_pairs.
  destruct (linkEntities_loop (flat_map containsEdges incidents)
              (connectionPairs c)) with (co := @nil Edge)
    as (co & Ef & Hp & Hfrom & _ & Hcover).
  { intros e a b He [[Hs _] | [Hs _]];
      apply containsEdges_ends in He as [(inc & x & _ & _ & Hsrc & _) _];
      rewrite Hsrc in Hs; now apply incident_not_entity in Hs. }
  { constructor. }
  rewrite app_nil_r in Ef.
  destruct (addNode_loop (flat_map nodesOf incidents) [])
    as (Hnd' & Hk & Hin); [constructor | intros key n [] |].
  eexists. exists co. split; [reflexivity|].
  cbn [graph_edges graph_nodes graph_stats totalNodes totalEdges
       incidentNodes entityNodes nodes edges entityConnections].
  split; [exact Ef|]. split.
  { intros e He. destruct (Hfrom e He) as [[] | (a & b & Hab & ->)].
    exists a, b. split; [now apply Hrel | reflexivity]. }
  split.
  { intros a b Hab. apply Hcover. now apply Hrel. }
  split; [exact Hp|].
  rewrite (keyed_ids _ Hk). split; [exact Hnd'|]. split.
  { intros key. rewrite Hin, nodesOf_ids. cbn [map In]. tauto. }
  split; [now rewrite length_map|]. split; [now rewrite Ef|].
  rewrite <- (length_map snd).
  induction (map snd (fold_left addNode (flat_map nodesOf incidents) []))
    as [|n ns IH]; [reflexivity|].
  cbn [List.filter length].
  destruct (String.eqb (node_type n) "incident"); cbn [negb length]; lia.
Qed.

(** X24: [getEntityRelationships] never throws (the set it adds to is
    always there).  Its edges are, first, one [contains] edge for every
    entity joined to an incident, in the order of the incidents and of
    their entities; then the [co_occurs] edges: each runs between two
    different entities that are joined to a same incident, every such pair
    has one, and no two of them have the same end points, in either
    direction. *)
Theorem relationship_edges (incidents : list JoinedIncident) :
  exists g co,
    getEntityRelationships incidents = Returned g
    /\ graph_edges g = flat_map containsEdges incidents ++ co
    /\ (forall e, In e co ->
          exists a b,
            coOccur incidents a b
            /\ e = coOccursEdge ("entity_" +:+ a) ("entity_" +:+ b))
    /\ (forall a b, coOccur incidents a b -> exists e, In e co /\ joins e a b)
    /\ ForallOrdPairs (fun e e' => ~ sameEnds e e') co.
Proof.
  destruct (getEntityRelationships_spec incidents)
    as (g & co & E & He & Hfrom & Hcover & Hp & _).
  exists g, co. auto.
Qed.

(** X25: the nodes of the graph have pairwise different ids: one node
    [incident_<id>] for every incident and one node [entity_<id>] for every
    entity joined to one, and no other; both end points of every edge are
    ids of nodes; and the statistics agree with the graph:
    [totalNodes] and [totalEdges] are the numbers of nodes and edges, and
    [incidentNodes + entityNodes = totalNodes]. *)
Theorem relationship_nodes (incidents : list JoinedIncident) :
  exists g,
    getEntityRelationships incidents = Returned g
    /\ List.NoDup (map node_id (graph_nodes g))
    /\ (forall key, In key (map node_id (graph_nodes g))
                    <-> nodeIdOf incidents key)
    /\ (forall e, In e (graph_edges g) ->
          In (edge_source e) (map node_id (graph_nodes g))
          /\ In (edge_target e) (map node_id (graph_nodes g)))
    /\ totalNodes (graph_stats g) = length (graph_nodes g)
    /\ totalEdges (graph_stats g) = length (graph_edges g)
    /\ (incidentNodes (graph_stats g) + entityNodes (graph_stats g))%nat
       = totalNodes (graph_stats g).
Proof.
  destruct (getEntityRelationships_spec incidents)
    as (g & co & E & He & Hfrom & _ & _ & Hnd & Hids & Hn & Hm & Hs).
  exists g. split; [exact E|]. split; [exact Hnd|]. split; [exact Hids|].
  split; [|auto].
  intros e Hin. rewrite He in Hin. rewrite !Hids.
  apply in_app_iff in Hin as [Hin | Hin].
  - apply containsEdges_ends in Hin
      as [(inc & a & Hinc & Ha & -> & ->) _].
    split; exists inc; (split; [exact Hinc|]); [now left|].
    right. now exists a.
  - destruct (Hfrom e Hin) as (a & b & (_ & inc & Hinc & Ha & Hb) & ->).
    cbn [coOccursEdge edge_source edge_target].
    split; exists inc; (split; [exact Hinc|]); right; eauto.
Qed.

(** X26: the severity of an incident node is one of [low], [medium],
    [high] and [critical], and its colour is never the grey fallback of
    [getColorBySeverity], for every category, present or not, that is not
    the name of a member of [Object.prototype]; for such a name the
    severity is that member, and the colour is the grey fallback. *)
Theorem incident_severity_and_colour (category : option string) :
  let key := default "undefined"%string category in
  if existsb (String.eqb key) Object_prototype then
    getSeverityFromCategory category = PrototypeMember key
    /\ getColorBySeverity (getSeverityFromCategory category)
       = Value "#6B7280"%string
  else
    exists s c,
      getSeverityFromCategory category = Value s
      /\ In s ["low"; "medium"; "high"; "critical"]%string
      /\ getColorBySeverity (getSeverityFromCategory category) = Value c
      /\ c <> "#6B7280"%string.
Proof.
  cbv zeta. unfold getSeverityFromCategory, property_or.
  generalize (default "undefined"%string category). intros key.
  cbn [find fst snd].
  repeat match goal with
         | |- context [String.eqb ?lit key] =>
             lazymatch lit with
             | key => fail
             | _ =>
                 let E := fresh "E" in
                 destruct (String.eqb lit key) eqn:E;
                 [apply String.eqb_eq in E; subst key; cbn;
                  eexists; eexists;
                  (split; [reflexivity|]);
                  (split; [tauto|]);
                  (split; [reflexivity | discriminate])
                 |]
             end
         end.
  destruct (existsb (String.eqb key) Object_prototype) eqn:Ep.
  - split; reflexivity.
  - exists "medium"%string. eexists. split; [reflexivity|].
    split; [cbn; tauto|]. split; [reflexivity | discriminate].
Qed.

(** ** The vectors a backfill stores *)

Lemma learned_refl (f : string -> Vector) (texts : list string)
  (cache : gmap string Vector) : learned f texts cache cache.
Proof. intros key v Hv. now left. Qed.

Lemma learned_trans (f : string -> Vector) (texts : list string)
  (c1 c2 c3 : gmap string Vector) :
  learned f texts c1 c2 -> learned f texts c2 c3 -> learned f texts c1 c3.
Proof.
  intros H12 H23 key v Hv. destruct (H23 key v Hv) as [H | H]; [|now right].
  now apply H12.
Qed.

Lemma learned_weaken (f : string -> Vector) (texts texts' : list string)
  (c c' : gmap string Vector) :
  (forall t, In t texts -> In t texts') ->
  learned f texts c c' -> learned f texts' c c'.
Proof.
  intros Hsub H key v Hv. destruct (H key v Hv) as [H' | (t & Ht & Hk & Hf)];
    [now left|].
  right. exists t. auto.
Qed.

Lemma faithfulCache_learned (f : string -> Vector) (texts : list string)
  (c c' : gmap string Vector) :
  separateKeys texts -> faithfulCache f texts c -> learned f texts c c' ->
  faithfulCache f texts c'.
Proof.
  intros Hsep Hc Hl text v Hin Hv.
  destruct (Hl _ _ Hv) as [H | (t & Ht & Hk & ->)]; [now apply Hc|].
  now rewrite (Hsep text t Hin Ht Hk).
Qed.

Section Values.
Context `{Runtime}.
Variable f : string -> Vector.
Variable api : nat -> list string -> ApiResponse.
Hypothesis provider : openai = Some api.
Hypothesis api_embeds_each : embedsEach f api.
Hypothesis database_accepts :
  forall n incidentId, update_fault n incidentId = None.

Lemma storeResponse_learned (valid : list string) (bi : list nat)
  (data : list Vector) : forall j rs w,
  (forall n e idx text,
      data !! n = Some e -> bi !! (j + n)%nat = Some idx ->
      valid !! idx = Some text ->
      e = f (JS.substring text 0 MAX_INPUT)) ->
  learned f valid (embeddingCache w)
          (embeddingCache (snd (storeResponse valid bi j data rs w))).
Proof.
  induction data as [|e rest IH]; intros j rs w Hdata; cbn [storeResponse].
  - apply learned_refl.
  - destruct (bi !! j) as [idx|] eqn:Ebi; [|apply learned_refl].
    destruct (valid !! idx) as [text|] eqn:Ev; [|apply learned_refl].
    cbn [cache_set].
    eapply learned_trans; [|apply IH].
    + cbn [embeddingCache]. intros key v Hv.
      destruct (decide (key = createCacheKey text)) as [-> | Hne].
      * rewrite lookup_insert_eq in Hv. injection Hv as <-. right.
        exists text. split; [|split; [reflexivity|]].
        -- apply list_elem_of_In. eapply list_elem_of_lookup_2, Ev.
        -- apply (Hdata 0%nat e idx text); [reflexivity | | exact Ev].
           now rewrite Nat.add_0_r.
      * rewrite lookup_insert_ne in Hv by congruence. now left.
    + intros n e' idx' text' Hn Hb Hv'.
      apply (Hdata (S n) e' idx' text'); [exact Hn | | exact Hv'].
      now rewrite Nat.add_succ_r.
Qed.

Lemma remoteFill_learned (valid : list string) (unc : list (nat * string)) :
  (forall k t text, In (k, t) unc -> valid !! k = Some text ->
                    t = JS.substring text 0 MAX_INPUT) ->
  forall fuel i rs w,
    learned f valid (embeddingCache w)
            (embeddingCache (snd (remoteFill fuel api valid unc i rs w))).
Proof.
  intros Hunc. induction fuel as [|fuel IH]; intros i rs w; cbn [remoteFill];
    destruct (i <? length unc)%nat; try apply learned_refl.
  unfold embeddings_create. rewrite api_embeds_each.
  set (chunk := slice unc i (i + API_BATCH)).
  match goal with
  | |- context [storeResponse valid (map fst chunk) 0 ?d rs ?w1] =>
      pose proof (storeResponse_learned valid (map fst chunk) d 0 rs w1) as Hs;
        destruct (storeResponse valid (map fst chunk) 0 d rs w1)
        as [[r rs1] w2] eqn:Es
  end.
  cbn [snd embeddingCache] in Hs.
  assert (Hl : learned f valid (embeddingCache w) (embeddingCache w2)).
  { apply Hs. intros n e idx text Hn Hb Hv. cbn [Nat.add] in Hb.
    rewrite !list_lookup_fmap in Hn. rewrite list_lookup_fmap in Hb.
    destruct (chunk !! n) as [[k t]|] eqn:Ec; [|discriminate].
    cbn in Hn, Hb. injection Hn as <-. injection Hb as <-.
    f_equal. apply (Hunc k t text); [|exact Hv].
    apply list_elem_of_In. apply list_elem_of_lookup_2 in Ec.
    unfold chunk, slice in Ec.
    eapply subseteq_drop, subseteq_take, Ec. }
  destruct r; cbn [snd]; try exact Hl.
  eapply learned_trans; [exact Hl | apply IH].
Qed.

Lemma misses_cut (cache : gmap string Vector) (valid : list string)
  (k : nat) (t text : string) :
  In (k, t) (misses cache 0 valid) -> valid !! k = Some text ->
  t = JS.substring text 0 MAX_INPUT.
Proof.
  intros Hin Hk. apply misses_In in Hin as (text' & _ & Hk' & _ & ->).
  rewrite Nat.sub_0_r in Hk'. congruence.
Qed.

(** A call of [generateBatchEmbeddings] that looked at the cache in the
    state [w0] and is resumed in the state [w]. *)
Lemma resume_each (go : bool) (texts : list string) (w0 w : World) :
  (go = false -> texts = []) ->
  exists w',
    resume (if go then beginBatch texts w0 else None) w
    = (Returned
         (map (fun text =>
                 Some match embeddingCache w0 !! createCacheKey text with
                      | Some v => v
                      | None => f (JS.substring text 0 MAX_INPUT)
                      end)
              (List.filter hasText texts)),
       w')
    /\ incidents_table w' = incidents_table w
    /\ updates_sent w' = updates_sent w
    /\ learned f texts (embeddingCache w) (embeddingCache w').
Proof.
  intros Hgo. destruct go.
  2:{ rewrite (Hgo eq_refl). exists w. cbn [resume List.filter map].
      unfold ret. repeat split; auto. apply learned_refl. }
  clear Hgo. rewrite beginBatch_closed. cbv zeta.
  set (valid := List.filter hasText texts).
  set (cache := embeddingCache w0).
  destruct (length valid =? 0)%nat eqn:Hn.
  { apply Nat.eqb_eq in Hn. exists w. cbn [resume]. unfold ret.
    destruct valid; [|discriminate]. repeat split; auto.
    apply learned_refl. }
  cbn [resume].
  set (p := {| validTexts := valid;
               results := map (fun t => cache !! createCacheKey t) valid;
               uncached := misses cache 0 valid |}).
  pose proof (finishBatch_table p w) as Ht.
  pose proof (finishBatch_counters p w) as (_ & _ & _ & Hu).
  assert (Hl : learned f texts (embeddingCache w)
                       (embeddingCache (snd (finishBatch p w)))).
  { apply (learned_weaken f valid).
    { intros t Ht'. unfold valid in Ht'. now apply filter_In in Ht'. }
    unfold finishBatch. cbn [uncached results validTexts p].
    destruct (0 <? length (misses cache 0 valid))%nat; [|apply learned_refl].
    rewrite provider.
    pose proof (remoteFill_learned valid (misses cache 0 valid)
                  (fun k t text => misses_cut cache valid k t text)
                  (length (misses cache 0 valid)) 0
                  (map (fun t => cache !! createCacheKey t) valid) w) as Hr.
    destruct (remoteFill_each f api api_embeds_each valid
                (misses cache 0 valid) (misses_NoDup cache valid 0)
                (length (misses cache 0 valid)) 0
                (map (fun t => cache !! createCacheKey t) valid) w)
      as (rs' & w' & E & _); [lia| |].
    { intros k t Hk. apply misses_In in Hk as (text & _ & Hl' & _).
      rewrite Nat.sub_0_r in Hl'. apply lookup_lt_Some in Hl'.
      now rewrite length_map. }
    rewrite E in Hr |- *. exact Hr. }
  assert (Hv : fst (finishBatch p w)
               = Returned
                   (map (fun text =>
                           Some match cache !! createCacheKey text with
                                | Some v => v
                                | None => f (JS.substring text 0 MAX_INPUT)
                                end) valid)).
  { unfold finishBatch. cbn [uncached results validTexts p]. rewrite provider.
    destruct (0 <? length (misses cache 0 valid))%nat eqn:Hpos.
    + destruct (remoteFill_each f api api_embeds_each valid
                  (misses cache 0 valid) (misses_NoDup cache valid 0)
                  (length (misses cache 0 valid)) 0
                  (map (fun t => cache !! createCacheKey t) valid) w)
        as (rs' & w' & E & Hl' & He & Hfr); [lia| |].
      { intros k t Hk. apply misses_In in Hk as (text & _ & Hl' & _).
        rewrite Nat.sub_0_r in Hl'. apply lookup_lt_Some in Hl'.
        now rewrite length_map. }
      rewrite E. cbn [fst]. f_equal. rewrite drop_0 in He, Hfr.
      apply slots_of_each_text;
        [now rewrite Hl', length_map | exact He | exact Hfr].
    + cbn [fst]. f_equal. apply Nat.ltb_ge in Hpos.
      destruct (misses cache 0 valid) eqn:Em; [|cbn in Hpos; lia].
      apply slots_of_each_text; rewrite ?Em.
      * apply length_map.
      * intros k t [].
      * reflexivity. }
  destruct (finishBatch p w) as [r w'] eqn:E. cbn [fst snd] in *.
  exists w'. subst r. auto.
Qed.
End Values.

Lemma applyPatch_id (p : Patch) (r : Incident) : id (applyPatch p r) = id r.
Proof. now destruct p. Qed.

Lemma applyPatch_twice (p : Patch) (r : Incident) :
  applyPatch p (applyPatch p r) = applyPatch p r.
Proof. now destruct p. Qed.

Lemma same_id_same_row (table : list Incident) (a b : Incident) :
  List.NoDup (map id table) -> In a table -> In b table -> id a = id b ->
  a = b.
Proof.
  induction table as [|r table IH]; intros Hnd Ha Hb E; [destruct Ha|].
  cbn [map] in Hnd. apply List.NoDup_cons_iff in Hnd as [Hnotin Hnd].
  destruct Ha as [<- | Ha], Hb as [<- | Hb]; auto.
  - exfalso. apply Hnotin. rewrite E. now apply in_map.
  - exfalso. apply Hnotin. rewrite <- E. now apply in_map.
Qed.

Lemma idIn_spec (x : string) (l : list Incident) :
  existsb (String.eqb x) (map id l) = true
  <-> exists inc, In inc l /\ id inc = x.
Proof.
  rewrite existsb_exists. split.
  - intros (y & Hy & E). apply String.eqb_eq in E. subst y.
    apply in_map_iff in Hy as (inc & E & Hin). eauto.
  - intros (inc & Hin & <-). exists (id inc).
    split; [now apply in_map | apply String.eqb_refl].
Qed.

Lemma patchRows_map (field : Vector -> Patch) (g : Incident -> Vector)
  (needs : list Incident) : forall table,
  fold_left
    (fun t inc =>
       map (fun row => if String.eqb (id row) (id inc)
                       then applyPatch (field (g inc)) row else row) t)
    needs table
  = map (fun r => fold_left (patchRow field g) needs r) table.
Proof.
  induction needs as [|inc needs IH]; intros table; cbn [fold_left].
  - symmetry. apply map_id.
  - rewrite IH, map_map. reflexivity.
Qed.

Lemma patchRow_other (field : Vector -> Patch) (g : Incident -> Vector)
  (needs : list Incident) (r : Incident) :
  (forall inc, In inc needs -> id inc <> id r) ->
  fold_left (patchRow field g) needs r = r.
Proof.
  induction needs as [|inc needs IH]; intros Hne; [reflexivity|].
  cbn [fold_left]. unfold patchRow at 2.
  assert (E : String.eqb (id r) (id inc) = false).
  { apply String.eqb_neq. intros E. apply (Hne inc); [now left | auto]. }
  rewrite E. apply IH. intros inc' Hin. apply Hne. now right.
Qed.

Lemma patchRow_own (field : Vector -> Patch) (g : Incident -> Vector)
  (r0 : Incident) (needs : list Incident) :
  (forall inc, In inc needs -> id inc = id r0 -> inc = r0) ->
  forall r, id r = id r0 ->
    fold_left (patchRow field g) needs r
    = if existsb (fun inc => String.eqb (id inc) (id r0)) needs
      then applyPatch (field (g r0)) r else r.
Proof.
  induction needs as [|inc needs IH]; intros Hown r Hr; [reflexivity|].
  cbn [fold_left existsb]. unfold patchRow at 2. rewrite Hr.
  rewrite (String.eqb_sym (id r0) (id inc)).
  destruct (String.eqb (id inc) (id r0)) eqn:E; cbn [orb].
  - apply String.eqb_eq in E.
    rewrite (Hown inc (or_introl eq_refl) E).
    rewrite IH.
    + rewrite applyPatch_twice. now destruct (existsb _ needs).
    + intros inc' Hin. apply Hown. now right.
    + now rewrite applyPatch_id.
  - apply IH; [|exact Hr]. intros inc' Hin. apply Hown. now right.
Qed.

Section StoredValues.
Context `{Runtime}.
Variable f : string -> Vector.
Hypothesis database_accepts :
  forall n incidentId, update_fault n incidentId = None.

Lemma pushUpdates_values (field : Vector -> Patch) (g : Incident -> Vector)
  (needs : list Incident) : forall index embeddings w,
  (forall n inc, needs !! n = Some inc ->
                 embeddings !! (index + n)%nat = Some (Some (g inc))) ->
  incidents_table (snd (pushUpdates field embeddings index needs w))
  = map (fun r => fold_left (patchRow field g) needs r) (incidents_table w).
Proof.
  intros index embeddings w Hemb. rewrite <- patchRows_map.
  revert index w Hemb.
  induction needs as [|inc needs IH]; intros index w Hemb;
    cbn [pushUpdates fold_left]; [reflexivity|].
  pose proof (Hemb 0%nat inc eq_refl) as E0. rewrite Nat.add_0_r in E0.
  rewrite E0. unfold repository_update. rewrite database_accepts.
  match goal with
  | |- context [pushUpdates field embeddings (S index) needs ?w1] =>
      specialize (IH (S index) w1);
        destruct (pushUpdates field embeddings (S index) needs w1)
        as [os w2] eqn:Ep
  end.
  cbn [snd incidents_table] in *. apply IH.
  intros n inc' Hn.
  replace (S index + n)%nat with (index + S n)%nat by lia.
  now apply (Hemb (S n)).
Qed.

Variable table0 : list Incident.
Hypothesis ids_unique : List.NoDup (map id table0).
Hypothesis records_embeddable : Forall embeddable table0.
Hypothesis resume_serves :
  forall go texts w0 w,
    (go = false -> texts = []) ->
    (forall t, In t texts -> In t (textsOf table0)) ->
    exists w',
      resume (if go then beginBatch texts w0 else None) w
      = (Returned
           (map (fun text =>
                   Some match embeddingCache w0 !! createCacheKey text with
                        | Some v => v
                        | None => f (JS.substring text 0 MAX_INPUT)
                        end)
                (List.filter hasText texts)),
         w')
      /\ incidents_table w' = incidents_table w
      /\ (faithfulCache f (textsOf table0) (embeddingCache w) ->
          faithfulCache f (textsOf table0) (embeddingCache w')).

Lemma title_in_texts (inc : Incident) :
  In inc table0 -> In (title inc) (textsOf table0).
Proof.
  intros Hin. unfold textsOf. apply in_flat_map. exists inc.
  split; [exact Hin | now left].
Qed.

Lemma description_in_texts (inc : Incident) (d : string) :
  In inc table0 -> description inc = Some d -> In d (textsOf table0).
Proof.
  intros Hin Hd. unfold textsOf. apply in_flat_map. exists inc.
  split; [exact Hin|]. rewrite Hd. right. now left.
Qed.

Lemma embeddable_row (inc : Incident) :
  In inc table0 ->
  hasText (title inc) = true
  /\ exists d, description inc = Some d /\ hasText d = true.
Proof.
  intros Hin. rewrite Forall_forall in records_embeddable.
  apply records_embeddable. now apply list_elem_of_In.
Qed.

Lemma fillVectors_steps (r0 : Incident) :
  In r0 table0 ->
  (let r1 := if needsTitle r0
             then applyPatch
                    (SetTitleVector
                       (f (JS.substring (title r0) 0 MAX_INPUT))) r0
             else r0 in
   if needsDescription r0
   then applyPatch
          (SetDescriptionVector
             (f (JS.substring (default EmptyString (description r0))
                              0 MAX_INPUT))) r1
   else r1)
  = fillVectors f r0.
Proof.
  intros Hin. destruct (embeddable_row r0 Hin) as (Ht & d & Hd & Hdt).
  apply hasText_nonempty in Ht, Hdt.
  unfold needsTitle, needsDescription, fillVectors.
  destruct r0 as [i t d0 c dt tv dv].
  cbn [title description title_vector description_vector id category
       datetime] in *.
  subst d0. rewrite Ht, Hdt.
  destruct tv, dv; reflexivity.
Qed.
Lemma served_faithful (cache : gmap string Vector) (text : string) :
  faithfulCache f (textsOf table0) cache -> In text (textsOf table0) ->
  match cache !! createCacheKey text with
  | Some v => v
  | None => f (JS.substring text 0 MAX_INPUT)
  end = f (JS.substring text 0 MAX_INPUT).
Proof.
  intros Hc Hin. destruct (cache !! createCacheKey text) as [v|] eqn:E;
    [|reflexivity].
  now apply (Hc text v).
Qed.

Lemma processSingleBatch_values (done batch : list Incident) (w : World) :
  faithfulCache f (textsOf table0) (embeddingCache w) ->
  (forall inc, In inc batch -> In inc table0) ->
  (forall inc, In inc batch -> ~ In (id inc) (map id done)) ->
  incidents_table w = filledWhere f done table0 ->
  let w' := snd (processSingleBatch batch w) in
  incidents_table w' = filledWhere f (done ++ batch) table0
  /\ faithfulCache f (textsOf table0) (embeddingCache w').
Proof.
  intros Hcache Hsub Hnew Htable. cbv zeta.
  unfold processSingleBatch, bind.
  set (needsT := List.filter needsTitle batch).
  set (needsD := List.filter needsDescription batch).
  set (gT := fun inc : Incident => f (JS.substring (title inc) 0 MAX_INPUT)).
  set (gD := fun inc : Incident =>
               f (JS.substring (default EmptyString (description inc))
                               0 MAX_INPUT)).
  (* the texts asked for *)
  assert (HinT : forall inc, In inc needsT -> In inc table0).
  { intros inc Hin. apply Hsub. unfold needsT in Hin.
    now apply filter_In in Hin. }
  assert (HinD : forall inc, In inc needsD -> In inc table0).
  { intros inc Hin. apply Hsub. unfold needsD in Hin.
    now apply filter_In in Hin. }
  assert (HtextsT : forall t, In t (map title needsT) ->
                              In t (textsOf table0)).
  { intros t Ht. apply in_map_iff in Ht as (inc & <- & Hin).
    apply title_in_texts. auto. }
  assert (HtextsD : forall t,
             In t (map (fun inc => default EmptyString (description inc))
                       needsD) ->
             In t (textsOf table0)).
  { intros t Ht. apply in_map_iff in Ht as (inc & <- & Hin).
    destruct (embeddable_row inc (HinD inc Hin)) as (_ & d & Hd & _).
    rewrite Hd. apply (description_in_texts inc); auto. }
  (* the title call *)
  destruct (resume_serves
              (0 <? length (map title needsT))%nat (map title needsT) w w)
    as (w1 & E1 & T1 & L1); [|exact HtextsT|].
  { intros Hz. apply Nat.ltb_ge in Hz. destruct (map title needsT);
      [reflexivity | cbn in Hz; lia]. }
  rewrite E1.
  (* the description call *)
  destruct (resume_serves
              (0 <? length (map (fun inc => default EmptyString
                                              (description inc)) needsD))%nat
              (map (fun inc => default EmptyString (description inc)) needsD)
              w w1)
    as (w2 & E2 & T2 & L2); [|exact HtextsD|].
  { intros Hz. apply Nat.ltb_ge in Hz.
    destruct (map _ needsD); [reflexivity | cbn in Hz; lia]. }
  rewrite E2.
  (* the vectors returned *)
  assert (HembT :
    map (fun text =>
           Some match embeddingCache w !! createCacheKey text with
                | Some v => v
                | None => f (JS.substring text 0 MAX_INPUT)
                end)
        (List.filter hasText (map title needsT))
    = map (fun inc => Some (gT inc)) needsT).
  { rewrite filter_all_true.
    - rewrite map_map. apply map_ext_in. intros inc Hin. f_equal.
      apply served_faithful; [exact Hcache|].
      apply title_in_texts. auto.
    - apply Forall_forall. intros t Ht. apply list_elem_of_In in Ht.
      apply in_map_iff in Ht as (inc & <- & Hin).
      now destruct (embeddable_row inc (HinT inc Hin)). }
  assert (HembD :
    map (fun text =>
           Some match embeddingCache w !! createCacheKey text with
                | Some v => v
                | None => f (JS.substring text 0 MAX_INPUT)
                end)
        (List.filter hasText
           (map (fun inc => default EmptyString (description inc)) needsD))
    = map (fun inc => Some (gD inc)) needsD).
  { rewrite filter_all_true.
    - rewrite map_map. apply map_ext_in. intros inc Hin. f_equal.
      apply served_faithful; [exact Hcache|].
      apply HtextsD. apply in_map_iff. eauto.
    - apply Forall_forall. intros t Ht. apply list_elem_of_In in Ht.
      apply in_map_iff in Ht as (inc & <- & Hin).
      destruct (embeddable_row inc (HinD inc Hin)) as (_ & d & Hd & Hdt).
      now rewrite Hd. }
  rewrite HembT, HembD.
  (* the updates *)
  pose proof (pushUpdates_values SetTitleVector gT needsT 0
                (map (fun inc => Some (gT inc)) needsT) w2) as P1.
  pose proof (pushUpdates_cache SetTitleVector
                (map (fun inc => Some (gT inc)) needsT) needsT 0 w2) as C1.
  destruct (pushUpdates SetTitleVector _ 0 needsT w2) as [o1 w3].
  pose proof (pushUpdates_values SetDescriptionVector gD needsD 0
                (map (fun inc => Some (gD inc)) needsD) w3) as P2.
  pose proof (pushUpdates_cache SetDescriptionVector
                (map (fun inc => Some (gD inc)) needsD) needsD 0 w3) as C2.
  destruct (pushUpdates SetDescriptionVector _ 0 needsD w3) as [o2 w4].
  cbn [snd] in *.
  split.
  2:{ rewrite C2, C1. auto. }
  rewrite P2, P1, T2, T1, Htable.
  2:{ intros n inc Hn. cbn [Nat.add]. now rewrite list_lookup_fmap, Hn. }
  2:{ intros n inc Hn. cbn [Nat.add]. now rewrite list_lookup_fmap, Hn. }
  unfold filledWhere. rewrite !map_map. apply map_ext_in. intros r0 Hr0.
  rewrite map_app, existsb_app.
  destruct (existsb (String.eqb (id r0)) (map id done)) eqn:Edone;
    cbn [orb].
  - (* a row filled by an earlier sub-batch *)
    assert (Hother : forall inc, In inc batch -> id inc <> id r0).
    { intros inc Hin E. apply (Hnew inc Hin). rewrite E.
      apply idIn_spec in Edone as (inc' & Hin' & <-). now apply in_map. }
    assert (HT : forall r, id r = id r0 ->
                 fold_left (patchRow SetTitleVector gT) needsT r = r).
    { intros r Hr. apply patchRow_other. intros inc Hin. rewrite Hr.
      apply Hother. unfold needsT in Hin. now apply filter_In in Hin. }
    assert (HD : forall r, id r = id r0 ->
                 fold_left (patchRow SetDescriptionVector gD) needsD r = r).
    { intros r Hr. apply patchRow_other. intros inc Hin. rewrite Hr.
      apply Hother. unfold needsD in Hin. now apply filter_In in Hin. }
    rewrite HT by reflexivity. now rewrite HD by reflexivity.
  - destruct (existsb (String.eqb (id r0)) (map id batch)) eqn:Ebatch.
    + (* a row of this sub-batch *)
      apply idIn_spec in Ebatch as (inc & Hin & Eid).
      assert (inc = r0)
        by (apply (same_id_same_row table0); auto).
      subst inc.
      assert (Hown : forall l inc,
                 (forall x, In x l -> In x batch) ->
                 In inc l -> id inc = id r0 -> inc = r0).
      { intros l inc Hl Hi E. apply (same_id_same_row table0); auto. }
      assert (Hex : forall p,
                 existsb (fun inc => String.eqb (id inc) (id r0))
                         (List.filter p batch) = p r0).
      { intros p. apply eq_true_iff_eq. rewrite existsb_exists. split.
        - intros (inc & Hi & E). apply filter_In in Hi as [Hi Hp].
          apply String.eqb_eq in E.
          assert (inc = r0) by (apply (same_id_same_row table0); auto).
          now subst.
        - intros Hp. exists r0. split; [|apply String.eqb_refl].
          apply filter_In. auto. }
      rewrite (patchRow_own SetTitleVector gT r0 needsT);
        [| intros inc Hi; apply (Hown needsT); auto;
           intros x Hx; unfold needsT in Hx; now apply filter_In in Hx
         | reflexivity].
      rewrite (patchRow_own SetDescriptionVector gD r0 needsD);
        [| intros inc Hi; apply (Hown needsD); auto;
           intros x Hx; unfold needsD in Hx; now apply filter_In in Hx
         | unfold needsT; rewrite Hex; destruct (needsTitle r0);
           [apply applyPatch_id | reflexivity]].
      unfold needsT, needsD. rewrite !Hex.
      apply (fillVectors_steps r0 Hr0).
    + (* a row that is not concerned *)
      assert (Hother : forall inc, In inc batch -> id inc <> id r0).
      { intros inc Hin E.
        assert (Ht : existsb (String.eqb (id r0)) (map id batch) = true)
          by (apply idIn_spec; eauto).
        congruence. }
      assert (HT : forall r, id r = id r0 ->
                   fold_left (patchRow SetTitleVector gT) needsT r = r).
      { intros r Hr. apply patchRow_other. intros inc Hin. rewrite Hr.
        apply Hother. unfold needsT in Hin. now apply filter_In in Hin. }
      assert (HD : forall r, id r = id r0 ->
                   fold_left (patchRow SetDescriptionVector gD) needsD r = r).
      { intros r Hr. apply patchRow_other. intros inc Hin. rewrite Hr.
        apply Hother. unfold needsD in Hin. now apply filter_In in Hin. }
      rewrite HT by reflexivity. now rewrite HD by reflexivity.
Qed.

Lemma runBatches_values (batches : list (list Incident)) :
  forall done w,
    faithfulCache f (textsOf table0) (embeddingCache w) ->
    (forall inc, In inc (concat batches) -> In inc table0) ->
    (forall inc, In inc (concat batches) -> ~ In (id inc) (map id done)) ->
    List.NoDup (map id (concat batches)) ->
    incidents_table w = filledWhere f done table0 ->
    incidents_table (snd (runBatches batches w))
    = filledWhere f (done ++ concat batches) table0.
Proof.
  induction batches as [|batch rest IH];
    intros done w Hcache Hsub Hnew Hnd Htable; cbn [runBatches concat].
  - now rewrite app_nil_r.
  - cbn [concat] in Hsub, Hnew, Hnd.
    destruct (processSingleBatch_values done batch w Hcache) as [Ht Hc].
    { intros inc Hin. apply Hsub, in_or_app. now left. }
    { intros inc Hin. apply Hnew, in_or_app. now left. }
    { exact Htable. }
    destruct (processSingleBatch batch w) as [r w1]. cbn [snd] in Ht, Hc.
    specialize (IH (done ++ batch) w1 Hc).
    destruct (runBatches rest w1) as [os w2]. cbn [snd] in *.
    rewrite app_assoc. apply IH.
    + intros inc Hin. apply Hsub, in_or_app. now right.
    + intros inc Hin. rewrite map_app, in_app_iff. intros [Hd | Hb].
      * apply (Hnew inc); [apply in_or_app; now right | exact Hd].
      * rewrite map_app in Hnd. apply NoDup_ListNoDup in Hnd.
        apply NoDup_app in Hnd as (_ & Hdisj & _).
        apply (Hdisj (id inc)); apply list_elem_of_In;
          [exact Hb | now apply in_map].
    + rewrite map_app in Hnd. apply NoDup_ListNoDup in Hnd.
      apply NoDup_app in Hnd as (_ & _ & Hnd). now apply NoDup_ListNoDup.
    + exact Ht.
Qed.
End StoredValues.

Lemma backfill_values `{Runtime} (f : string -> Vector) (w : World) :
  (forall n incidentId, update_fault n incidentId = None) ->
  List.NoDup (map id (incidents_table w)) ->
  Forall embeddable (incidents_table w) ->
  (forall go texts w0 w1,
      (go = false -> texts = []) ->
      (forall t, In t texts -> In t (textsOf (incidents_table w))) ->
      exists w',
        resume (if go then beginBatch texts w0 else None) w1
        = (Returned
             (map (fun text =>
                     Some match embeddingCache w0 !! createCacheKey text with
                          | Some v => v
                          | None => f (JS.substring text 0 MAX_INPUT)
                          end)
                  (List.filter hasText texts)),
           w')
        /\ incidents_table w' = incidents_table w1
        /\ (faithfulCache f (textsOf (incidents_table w)) (embeddingCache w1)
            -> faithfulCache f (textsOf (incidents_table w))
                             (embeddingCache w'))) ->
  faithfulCache f (textsOf (incidents_table w)) (embeddingCache w) ->
  exists c w',
    processAllMissingEmbeddings w = (Returned c, w')
    /\ incidents_table w' = map (fillVectors f) (incidents_table w).
Proof.
  intros Hdb Hnd Hemb Hserves Hcache.
  unfold processAllMissingEmbeddings.
  set (table0 := incidents_table w) in *.
  set (snapshot := List.filter missingEmbedding table0).
  destruct (processBatchEmbeddings_trace snapshot w)
    as (c & w' & outcomes & E & Hr & _).
  exists c, w'. split; [exact E|].
  destruct (subBatches_partition snapshot (length snapshot) 0) as [Hcat _];
    [lia|].
  rewrite drop_0 in Hcat.
  pose proof (runBatches_values f Hdb table0 Hnd Hemb Hserves
                (subBatches (length snapshot) snapshot 0) [] w Hcache) as Hv.
  rewrite Hr, Hcat in Hv. cbn [snd app] in Hv.
  rewrite Hv.
  - unfold filledWhere. apply map_ext_in. intros r0 Hr0.
    destruct (existsb (String.eqb (id r0)) (map id snapshot)) eqn:Es;
      [reflexivity|].
    assert (Hm : missingEmbedding r0 = false).
    { destruct (missingEmbedding r0) eqn:Em; [|reflexivity].
      assert (Ht : existsb (String.eqb (id r0)) (map id snapshot) = true).
      { apply idIn_spec. exists r0. split; [|reflexivity].
        apply filter_In. auto. }
      congruence. }
    unfold missingEmbedding in Hm. unfold fillVectors.
    destruct r0 as [i t d cat dt tv dv].
    cbn [title_vector description_vector] in *.
    destruct tv, dv; try discriminate. reflexivity.
  - intros inc Hin. unfold snapshot in Hin. now apply filter_In in Hin.
  - intros inc _ [].
  - now apply NoDup_ids_filter.
  - unfold filledWhere. cbn [map existsb]. symmetry. apply map_id.
Qed.

Lemma mockFill_each `{Runtime} (unc : list (nat * string)) : forall rs w,
  List.NoDup (map fst unc) ->
  (forall k t, In (k, t) unc -> (k < length rs)%nat) ->
  forall k t, In (k, t) unc ->
    fst (mockFill unc rs w) !! k = Some (Some (mockVector (simpleHash t))).
Proof.
  induction unc as [|[i t0] rest IH]; intros rs w Hnd Hlen k t Hin;
    [destruct Hin|].
  cbn [mockFill generateMockEmbedding]. cbn [map fst] in Hnd.
  apply List.NoDup_cons_iff in Hnd as [Hnotin Hnd].
  destruct Hin as [[= <- <-] | Hin].
  - rewrite mockFill_frame by exact Hnotin.
    apply list_lookup_insert_eq. apply (Hlen i t0). now left.
  - apply IH; [exact Hnd | | exact Hin].
    intros k' t' Hin'. rewrite length_insert. apply (Hlen k' t'). now right.
Qed.

Lemma resume_mock `{Runtime} (go : bool) (texts : list string)
  (w0 w : World) :
  openai = None ->
  (go = false -> texts = []) ->
  exists w',
    resume (if go then beginBatch texts w0 else None) w
    = (Returned
         (map (fun text =>
                 Some match embeddingCache w0 !! createCacheKey text with
                      | Some v => v
                      | None =>
                          mockVector
                            (simpleHash (JS.substring text 0 MAX_INPUT))
                      end)
              (List.filter hasText texts)),
       w')
    /\ incidents_table w' = incidents_table w
    /\ embeddingCache w' = embeddingCache w.
Proof.
  intros Ho Hgo. destruct go.
  2:{ rewrite (Hgo eq_refl). exists w. cbn [resume List.filter map].
      unfold ret. auto. }
  clear Hgo. rewrite beginBatch_closed. cbv zeta.
  set (valid := List.filter hasText texts).
  set (cache := embeddingCache w0).
  destruct (length valid =? 0)%nat eqn:Hn.
  { apply Nat.eqb_eq in Hn. exists w. cbn [resume]. unfold ret.
    destruct valid; [|discriminate]. auto. }
  cbn [resume].
  set (p := {| validTexts := valid;
               results := map (fun t => cache !! createCacheKey t) valid;
               uncached := misses cache 0 valid |}).
  pose proof (finishBatch_table p w) as Ht.
  pose proof (finishBatch_offline Ho p w) as [Hc _].
  assert (Hv : fst (finishBatch p w)
               = Returned
                   (map (fun text =>
                           Some match cache !! createCacheKey text with
                                | Some v => v
                                | None =>
                                    mockVector
                                      (simpleHash
                                         (JS.substring text 0 MAX_INPUT))
                                end) valid)).
  { unfold finishBatch. cbn [uncached results validTexts p]. rewrite Ho.
    destruct (0 <? length (misses cache 0 valid))%nat eqn:Hpos.
    + pose proof (mockFill_each (misses cache 0 valid)
                    (map (fun t => cache !! createCacheKey t) valid) w
                    (misses_NoDup cache valid 0)) as He.
      pose proof (mockFill_frame (misses cache 0 valid)
                    (map (fun t => cache !! createCacheKey t) valid) w)
        as Hfr.
      pose proof (mockFill_length (misses cache 0 valid)
                    (map (fun t => cache !! createCacheKey t) valid) w)
        as Hl.
      destruct (mockFill _ _ w) as [rs' w'']. cbn [fst] in *. f_equal.
      apply (slots_of_each_text cache
               (fun t => mockVector (simpleHash t)));
        [now rewrite Hl, length_map | | exact Hfr].
      apply He. intros k t Hk.
      apply misses_In in Hk as (text & _ & Hl' & _).
      rewrite Nat.sub_0_r in Hl'. apply lookup_lt_Some in Hl'.
      now rewrite length_map.
    + cbn [fst]. f_equal. apply Nat.ltb_ge in Hpos.
      destruct (misses cache 0 valid) eqn:Em; [|cbn in Hpos; lia].
      apply (slots_of_each_text cache
               (fun t => mockVector (simpleHash t))); rewrite ?Em.
      * apply length_map.
      * intros k t [].
      * reflexivity. }
  destruct (finishBatch p w) as [r w'] eqn:E. cbn [fst snd] in *.
  exists w'. subst r. auto.
Qed.

(** X27: with a provider that embeds each input on its own (by [f]), a
    database that accepts every statement, records with different ids that
    all have a non-blank title and description, no two different texts with
    the same cache key, and a cache that holds nothing but vectors of [f]
    for these texts, [processAllMissingEmbeddings] leaves the table with
    each missing title vector set to [f] of the title and each missing
    description vector set to [f] of the description (each text cut to
    8191 characters), and with everything else as it was. *)
Theorem backfill_stores_provider_vectors `{Runtime} (f : string -> Vector)
  (api : nat -> list string -> ApiResponse) (w : World) :
  openai = Some api ->
  embedsEach f api ->
  (forall n incidentId, update_fault n incidentId = None) ->
  List.NoDup (map id (incidents_table w)) ->
  Forall embeddable (incidents_table w) ->
  separateKeys (textsOf (incidents_table w)) ->
  faithfulCache f (textsOf (incidents_table w)) (embeddingCache w) ->
  exists c w',
    processAllMissingEmbeddings w = (Returned c, w')
    /\ incidents_table w' = map (fillVectors f) (incidents_table w).
Proof.
  intros Ho Hf Hdb Hnd Hemb Hsep Hcache.
  apply backfill_values; try assumption.
  intros go texts w0 w1 Hgo Htexts.
  destruct (resume_each f api Ho Hf go texts w0 w1 Hgo)
    as (w' & E & Ht & _ & Hl).
  exists w'. split; [exact E|]. split; [exact Ht|].
  intros Hc. eapply faithfulCache_learned; [exact Hsep | exact Hc |].
  eapply learned_weaken; [exact Htexts | exact Hl].
Qed.

Lemma backfill_stores_provider_vectors_witness :
  exists c w',
    @processAllMissingEmbeddings length_runtime (world_of (backlog 3 7))
    = (Returned c, w')
    /\ incidents_table w' = map (fillVectors length_vector) (backlog 3 7).
Proof.
  apply (@backfill_stores_provider_vectors length_runtime length_vector
           length_api (world_of (backlog 3 7))).
  - reflexivity.
  - intros n input. reflexivity.
  - reflexivity.
  - apply NoDup_ListNoDup, (bool_decide_unpack _). vm_compute. exact I.
  - repeat constructor; eexists; split; reflexivity.
  - intros t t' Ht Ht' E.
    cbn [world_of incidents_table backlog seq map textsOf flat_map
         unembedded title description app In] in Ht, Ht'.
    repeat match goal with
           | H : _ \/ _ |- _ => destruct H as [H | H]
           | H : False |- _ => destruct H
           end;
      subst; try reflexivity; vm_compute in E; discriminate.
  - intros t v _ Hv. cbn [world_of embeddingCache] in Hv.
    rewrite lookup_empty in Hv. discriminate.
Defined.

(** X28: on a server without a provider, with a database that accepts
    every statement, records with different ids that all have a non-blank
    title and description, and an empty cache,
    [processAllMissingEmbeddings] leaves the table with each missing vector
    set to the fallback vector of the hash of the text cut to 8191
    characters, and with everything else as it was. *)
Theorem backfill_stores_fallback_vectors `{Runtime} (w : World) :
  openai = None ->
  (forall n incidentId, update_fault n incidentId = None) ->
  List.NoDup (map id (incidents_table w)) ->
  Forall embeddable (incidents_table w) ->
  embeddingCache w = ∅ ->
  exists c w',
    processAllMissingEmbeddings w = (Returned c, w')
    /\ incidents_table w'
       = map (fillVectors (fun t => mockVector (simpleHash t)))
             (incidents_table w).
Proof.
  intros Ho Hdb Hnd Hemb Hempty.
  apply backfill_values; try assumption.
  - intros go texts w0 w1 Hgo _.
    destruct (resume_mock go texts w0 w1 Ho Hgo) as (w' & E & Ht & Hc).
    exists w'. split; [exact E|]. split; [exact Ht|]. now rewrite Hc.
  - intros t v _ Hv. rewrite Hempty, lookup_empty in Hv. discriminate.
Qed.

Lemma backfill_stores_fallback_vectors_witness :
  exists c w',
    @processAllMissingEmbeddings dev_runtime (world_of (backlog 3 7))
    = (Returned c, w')
    /\ incidents_table w'
       = map (fillVectors (fun t => @mockVector dev_runtime (simpleHash t)))
             (backlog 3 7).
Proof.
  apply (@backfill_stores_fallback_vectors dev_runtime
           (world_of (backlog 3 7))).
  - reflexivity.
  - reflexivity.
  - apply NoDup_ListNoDup, (bool_decide_unpack _). vm_compute. exact I.
  - repeat constructor; eexists; split; reflexivity.
  - reflexivity.
Defined.
(** ** generateBatchEmbeddings: every slot *)

Lemma mockFill_slots `{Runtime} (cache : gmap string Vector)
  (valid : list string) (w : World) :
  fst (mockFill (misses cache 0 valid)
                (map (fun t => cache !! createCacheKey t) valid) w)
  = map (fun text =>
           Some match cache !! createCacheKey text with
                | Some v => v
                | None => mockVector (simpleHash (JS.substring text 0 MAX_INPUT))
                end) valid.
Proof.
  apply (slots_of_each_text cache (fun t => mockVector (simpleHash t))).
  - now rewrite mockFill_length, length_map.
  - apply mockFill_each; [apply misses_NoDup|].
    intros k t Hk. apply misses_In in Hk as (text & _ & Hl & _).
    rewrite Nat.sub_0_r in Hl. apply lookup_lt_Some in Hl.
    now rewrite length_map.
  - apply mockFill_frame.
Qed.

Lemma generateBatchEmbeddings_fallback_slots `{Runtime} (texts : list string)
  (w : World) :
  (openai = None
   \/ exists api, openai = Some api
                  /\ forall n input, exists e, api n input = ApiRejects e) ->
  fst (generateBatchEmbeddings texts w)
  = Returned
      (map (fun text =>
              Some match embeddingCache w !! createCacheKey text with
                   | Some v => v
                   | None =>
                       mockVector (simpleHash (JS.substring text 0 MAX_INPUT))
                   end)
           (List.filter hasText texts)).
Proof.
  intros Hprov. rewrite generateBatchEmbeddings_closed. cbv zeta.
  set (valid := List.filter hasText texts).
  set (cache := embeddingCache w).
  destruct (length valid =? 0)%nat eqn:Hn.
  { apply Nat.eqb_eq in Hn. now destruct valid. }
  unfold finishBatch. cbn [uncached results validTexts].
  destruct (0 <? length (misses cache 0 valid))%nat eqn:Hpos.
  - destruct Hprov as [-> | (api & -> & Hrej)].
    + pose proof (mockFill_slots cache valid w) as Hm.
      destruct (mockFill _ _ w) as [rs' w']. cbn [fst] in *. now f_equal.
    + apply Nat.ltb_lt in Hpos.
      destruct (length (misses cache 0 valid)) as [|n] eqn:El; [lia|].
      cbn [remoteFill]. rewrite El.
      replace (0 <? S n)%nat with true by reflexivity.
      unfold embeddings_create.
      destruct (Hrej (api_requests w)
                  (map snd (slice (misses cache 0 valid) 0 (0 + API_BATCH))))
        as [e ->].
      match goal with
      | |- context [mockFill _ _ ?w1] =>
          pose proof (mockFill_slots cache valid w1) as Hm;
            destruct (mockFill (misses cache 0 valid)
                        (map (fun t => cache !! createCacheKey t) valid) w1)
              as [rs' w']
      end.
      cbn [fst] in *. now f_equal.
  - cbn [fst]. f_equal. apply Nat.ltb_ge in Hpos.
    destruct (misses cache 0 valid) eqn:Em; [|cbn in Hpos; lia].
    apply (slots_of_each_text cache (fun t => mockVector (simpleHash t)));
      rewrite ?Em.
    + apply length_map.
    + intros k t [].
    + reflexivity.
Qed.

(** C6 (as amended): the call always returns, and the result has one slot
    per non-empty input text, in the order of those texts: empty and
    whitespace-only texts are dropped, not answered with [null].  Slot [k]
    belongs to the [k]-th non-empty text: it holds the cached vector of
    that text when the text is in the cache, whatever the provider does;
    for the other texts it holds the fallback vector of the text cut to
    8191 characters when no provider is configured or the provider rejects
    the requests, and the provider's vector for the text cut to 8191
    characters when the provider embeds each input on its own.  Every slot
    holds a vector when the provider never answers with fewer embeddings
    than it was sent inputs. *)
Theorem generateBatchEmbeddings_shape `{Runtime} (texts : list string)
  (w : World) :
  exists rs w',
    generateBatchEmbeddings texts w = (Returned rs, w')
    /\ length rs = length (List.filter hasText texts)
    /\ (forall k text v,
          List.filter hasText texts !! k = Some text ->
          embeddingCache w !! createCacheKey text = Some v ->
          rs !! k = Some (Some v))
    /\ (openai = None
        \/ (exists api, openai = Some api
                        /\ forall n input, exists e, api n input = ApiRejects e) ->
        rs = map (fun text =>
                    Some match embeddingCache w !! createCacheKey text with
                         | Some v => v
                         | None =>
                             mockVector
                               (simpleHash (JS.substring text 0 MAX_INPUT))
                         end)
                 (List.filter hasText texts))
    /\ (forall f api,
          openai = Some api -> embedsEach f api ->
          rs = map (fun text =>
                      Some match embeddingCache w !! createCacheKey text with
                           | Some v => v
                           | None => f (JS.substring text 0 MAX_INPUT)
                           end)
                   (List.filter hasText texts))
    /\ ((forall api, openai = Some api -> answersInFull api) ->
        forall k, (k < length rs)%nat -> exists v, rs !! k = Some (Some v)).
Proof.
  pose proof (generateBatchEmbeddings_fallback_slots texts w) as Hfb.
  pose proof (fun f api => generateBatchEmbeddings_each f api texts w) as Hea.
  rewrite generateBatchEmbeddings_closed in *. cbv zeta in *.
  set (valid := List.filter hasText texts) in *.
  destruct (length valid =? 0)%nat eqn:Hn.
  - apply Nat.eqb_eq in Hn. destruct valid; [|discriminate].
    exists [], w. split; [reflexivity|]. split; [reflexivity|].
    split; [|split; [|split]].
    + intros k text v Hk. rewrite lookup_nil in Hk. discriminate.
    + reflexivity.
    + reflexivity.
    + cbn. intros _ k Hk. lia.
  - set (p := {| validTexts := valid;
                 results := map (fun t => embeddingCache w !! createCacheKey t)
                                valid;
                 uncached := misses (embeddingCache w) 0 valid |}) in *.
    destruct (finishBatch_spec p w) as (rs & w' & E & Hl & Hno).
    { intros k Hk. now apply misses_hole. }
    rewrite E in Hfb, Hea. cbn [fst] in Hfb, Hea.
    exists rs, w'. split; [exact E|].
    split; [now rewrite Hl; cbn [results p]; rewrite length_map|].
    split; [|split; [|split]].
    + intros k text v Hk Hc.
      rewrite (finishBatch_frame p w rs w' k E).
      * cbn [results p]. rewrite list_lookup_fmap, Hk. cbn. now rewrite Hc.
      * cbn [uncached p]. intros Hin.
        apply in_map_iff in Hin as ([i t] & Hi & Hin). cbn [fst] in Hi.
        subst i. apply misses_In in Hin as (text' & _ & Hl' & Hm & _).
        rewrite Nat.sub_0_r in Hl'. unfold embeddingCache_miss in Hm.
        congruence.
    + intros Hprov. specialize (Hfb Hprov). congruence.
    + intros f api Ho Hf. specialize (Hea f api Ho Hf). congruence.
    + intros Hfull k Hk. destruct (lookup_lt_is_Some_2 rs k Hk) as [[v|] Hv].
      * now exists v.
      * destruct (Hno Hfull k Hv).
Qed.

(** The amended claim on a server whose provider answers each input with
    its length as a vector: the blank texts get no slot, the text that is
    in the cache keeps its cached vector, and the other texts get the
    provider's vectors, in their order. *)
Lemma generateBatchEmbeddings_shape_witness :
  exists w',
    @generateBatchEmbeddings length_runtime
      [" "; "Camden burglary"; ""; "Forced entry overnight"; "Theft"]
      (with_entry (createCacheKey "Forced entry overnight") [0; 1; 0]%float
         (world_of []))
    = (Returned [Some [15]%float; Some [0; 1; 0]%float; Some [5]%float], w').
Proof.
  destruct (@generateBatchEmbeddings_shape length_runtime
              [" "; "Camden burglary"; ""; "Forced entry overnight"; "Theft"]
              (with_entry (createCacheKey "Forced entry overnight")
                 [0; 1; 0]%float (world_of [])))
    as (rs & w' & E & _ & _ & _ & He & _).
  exists w'. rewrite E. f_equal. f_equal.
  rewrite (He length_vector length_api eq_refl);
    [|intros n input; reflexivity].
  vm_compute. reflexivity.
Defined.

(** C6 (as stated) fails: a whitespace-only text gets no slot.  For two
    input texts the result has one slot, and slot 0 holds the vector of the
    second text rather than [null]. *)
Lemma blank_text_gets_no_slot :
  let texts := [" "; "Camden burglary"]%string in
  exists rs,
    fst (@generateBatchEmbeddings dev_runtime texts (world_of []))
    = Returned rs
    /\ length texts = 2%nat
    /\ length rs = 1%nat
    /\ rs !! 0%nat
       = Some (Some (@mockVector dev_runtime (simpleHash "Camden burglary"))).
Proof.
  cbv zeta. eexists. split.
  - apply (@generateBatchEmbeddings_fallback dev_runtime); reflexivity.
  - repeat split; reflexivity.
Qed.
